(** * ECSL: compact integers and the deferred-call cell [any_function]

    A shallow embedding of two components of the ECSL snippet library:

    - [ecsl/compact/Integer.hpp] together with the byte storage of
      [ecsl/compact/detail/Storage.hpp] (module [Compact]);
    - [AnyFunction.hpp], the type-erased deferred call with its future
      (module [AnyFunction]).  The repository carries two revisions of that
      header; where they differ the definitions take a [revision]. *)

From Stdlib Require Import ZArith List Bool Lia.
From Stdlib.Strings Require Import Byte.
From stdpp Require Import base option list gmap.
Import ListNotations.

Local Open Scope Z_scope.

(* ===================================================================== *)
(** ** Compact (unaligned) integers                                       *)
(* ===================================================================== *)

Module Compact.

(** An integral type [T] is described by [sizeof(T)] and its signedness. *)
Record integral := { size_of : nat; is_signed : bool }.

Definition bits (T : integral) : Z := 8 * Z.of_nat (size_of T).

(** The values of type [T]. *)
Definition in_range (T : integral) (v : Z) : Prop :=
  if is_signed T
  then - 2 ^ (bits T - 1) <= v < 2 ^ (bits T - 1)
  else 0 <= v < 2 ^ bits T.

(** Byte order of the target; [memcpy] copies the object representation,
    whatever it is. *)
Inductive byteorder := little_endian | big_endian.

(** [types::memory_t] of the missing [SimpleTypes.hpp] is taken to be a
    byte. *)
Definition memory_t := byte.

Definition byte_of_Z (z : Z) : memory_t :=
  match Byte.of_N (Z.to_N (z mod 256)) with
  | Some b => b
  | None => x00
  end.

Definition Z_of_byte (b : memory_t) : Z := Z.of_N (Byte.to_N b).

(** Little-endian image of the low [n] bytes of [u]. *)
Fixpoint bytes_le (n : nat) (u : Z) : list memory_t :=
  match n with
  | O => []
  | S n' => byte_of_Z u :: bytes_le n' (u / 256)
  end.

Fixpoint unsigned_le (bs : list memory_t) : Z :=
  match bs with
  | [] => 0
  | b :: bs' => Z_of_byte b + 256 * unsigned_le bs'
  end.

(** Object representation of a value of type [T] (two's complement), and
    the value an object representation denotes. *)
Definition object_representation (bo : byteorder) (T : integral) (v : Z)
  : list memory_t :=
  let le := bytes_le (size_of T) (v mod 2 ^ bits T) in
  match bo with little_endian => le | big_endian => rev le end.

Definition value_representation (bo : byteorder) (T : integral)
  (bs : list memory_t) : Z :=
  let u := unsigned_le (match bo with little_endian => bs | big_endian => rev bs end) in
  if is_signed T && (2 ^ (bits T - 1) <=? u) then u - 2 ^ bits T else u.

(** [detail::compact::storage<T>]: the array [m_data[sizeof(T)]]. *)
Record storage := { m_data : list memory_t }.

Section Storage.
Variable bo : byteorder.
Variable T : integral.

(** [storage::store]: [value_type tmp_(args...); memcpy(m_data, &tmp_,
    sizeof(m_data))]. *)
Definition storage_store (value : Z) (s : storage) : storage :=
  {| m_data := take (length (m_data s)) (object_representation bo T value) |}.

(** [storage::load]: [value_type tmp_; memcpy(&tmp_, m_data,
    sizeof(m_data)); return tmp_]. *)
Definition storage_load (s : storage) : Z :=
  value_representation bo T (m_data s).

(** [compact_integer<T>] holds one [storage<T>]. *)
Record compact_integer := { m_storage : storage }.

(** Storage of a [compact_integer<T>] before its constructor body runs:
    [sizeof(T)] indeterminate bytes. *)
Definition has_size (c : compact_integer) : Prop :=
  length (m_data (m_storage c)) = size_of T.

Definition store (value : Z) (c : compact_integer) : compact_integer :=
  {| m_storage := storage_store value (m_storage c) |}.

Definition load (c : compact_integer) : Z := storage_load (m_storage c).

(** [compact_integer() noexcept { store(value_type(0)); }] *)
Definition default_construct (raw : compact_integer) : compact_integer :=
  store 0 raw.

(** [explicit compact_integer(U other) noexcept { store(other); }] *)
Definition construct (other : Z) (raw : compact_integer) : compact_integer :=
  store other raw.

(** [storage::modify(as_param, func, args...)]: [auto tmp_ = load();
    func(tmp_, args...); store(std::move(tmp_))].  [func] gives the value
    it leaves in [tmp_], or nothing when its behaviour is undefined. *)
Definition storage_modify (func : Z -> option Z) (s : storage) : option storage :=
  match func (storage_load s) with
  | Some tmp_ => Some (storage_store tmp_ s)
  | None => None
  end.

(** Conversion of an integer to [T]: modulo [2 ^ bits T]. *)
Definition to_T (z : Z) : Z :=
  let u := z mod 2 ^ bits T in
  if is_signed T && (2 ^ (bits T - 1) <=? u) then u - 2 ^ bits T else u.

(** [sizeof(int)] of the target. *)
Variable sizeof_int : nat.

Definition int_range (z : Z) : bool :=
  (- 2 ^ (8 * Z.of_nat sizeof_int - 1) <=? z) && (z <? 2 ^ (8 * Z.of_nat sizeof_int - 1)).

Definition in_range_b (z : Z) : bool :=
  if is_signed T
  then (- 2 ^ (bits T - 1) <=? z) && (z <? 2 ^ (bits T - 1))
  else (0 <=? z) && (z <? 2 ^ bits T).

(** What is left in a [T] by an arithmetic operator whose exact result on
    the operands is [r].  A [T] narrower than [int] is promoted to [int],
    the result is computed there and converted back; otherwise the result
    is computed in [T], modulo [2 ^ bits T] when [T] is unsigned.  A signed
    result that does not fit is undefined. *)
Definition arithmetic (r : Z) : option Z :=
  if (size_of T <? sizeof_int)%nat
  then (if int_range r then Some (to_T r) else None)
  else if is_signed T
       then (if in_range_b r then Some r else None)
       else Some (r mod 2 ^ bits T).

Definition modify (func : Z -> option Z) (c : compact_integer)
  : option compact_integer :=
  match storage_modify func (m_storage c) with
  | Some s => Some {| m_storage := s |}
  | None => None
  end.

(** [operator++()] and [operator--()]: [modify(as_param, ++v)] and
    [modify(as_param, --v)].  (C++17 has neither for [bool].) *)
Definition pre_increment (c : compact_integer) : option compact_integer :=
  modify (fun v => arithmetic (v + 1)) c.
Definition pre_decrement (c : compact_integer) : option compact_integer :=
  modify (fun v => arithmetic (v - 1)) c.

(** [operator++(int)]: [compact_integer tmp( *this); operator++(); return
    tmp;], giving the returned copy and the object afterwards. *)
Definition post_increment (c : compact_integer)
  : option (compact_integer * compact_integer) :=
  let tmp := c in
  match pre_increment c with
  | Some c' => Some (tmp, c')
  | None => None
  end.

(** [T] is [bool].  It is an integral type like the others, stored in
    [sizeof(bool)] bytes, but an integer is converted to it by comparing
    with zero, not modulo [2 ^ bits T], and it is promoted to [int]
    whatever its size. *)
Variable is_bool : bool.

Definition converted (z : Z) : Z :=
  if is_bool then (if z =? 0 then 0 else 1) else to_T z.

(** What a compound assignment whose exact result is [r] leaves in a
    [T]. *)
Definition compound (r : Z) : option Z :=
  if is_bool then (if int_range r then Some (converted r) else None)
  else arithmetic r.

(** [operator+=(a)] and [operator-=(a)]. *)
Definition add_assign (a : Z) (c : compact_integer) : option compact_integer :=
  modify (fun v => compound (v + a)) c.
Definition sub_assign (a : Z) (c : compact_integer) : option compact_integer :=
  modify (fun v => compound (v - a)) c.

(** [operator~()]: [compact_integer(~load())]; the complement is taken in
    the promoted type and converted to [T] where the constructor passes it
    to [store]: modulo [2 ^ bits T], which is what [store] writes, or for
    [bool] by comparing with zero. *)
Definition bit_not (c : compact_integer) : compact_integer :=
  construct (if is_bool then converted (Z.lnot (load c)) else Z.lnot (load c)) c.

(** The comparison operators. *)
Definition eq_op (lhs rhs : compact_integer) : bool := load lhs =? load rhs.
Definition ne_op (lhs rhs : compact_integer) : bool := negb (eq_op lhs rhs).
Definition lt_op (lhs rhs : compact_integer) : bool := load lhs <? load rhs.
Definition gt_op (lhs rhs : compact_integer) : bool := lt_op rhs lhs.
Definition ge_op (lhs rhs : compact_integer) : bool := negb (lt_op lhs rhs).
Definition le_op (lhs rhs : compact_integer) : bool := negb (gt_op lhs rhs).

End Storage.

(** *** Concrete types and objects used in examples *)

Definition int8_t : integral := {| size_of := 1; is_signed := true |}.
Definition uint8_t : integral := {| size_of := 1; is_signed := false |}.
Definition int16_t : integral := {| size_of := 2; is_signed := true |}.
Definition int32_t : integral := {| size_of := 4; is_signed := true |}.

(** The compact integer whose [m_data] holds the given bytes. *)
Definition of_bytes (bs : list memory_t) : compact_integer :=
  {| m_storage := {| m_data := bs |} |}.

End Compact.

(* ===================================================================== *)
(** ** The deferred-call cell                                             *)
(* ===================================================================== *)

Module AnyFunction.

(** The two revisions of [AnyFunction.hpp] in the repository.  [plain]
    stores every argument decayed and compares result types as they are
    (it cannot hold [void] results); [with_references] adds
    [reference_storage], [as_void], the [has_all_arguments] action and a
    [future::wait] that may run a prepared call. *)
Inductive revision := plain | with_references.

(** *** C++ types, as far as [type_id] tells them apart *)

Inductive fundamental :=
  t_void | t_bool | t_char | t_int | t_long | t_double | t_class (n : nat).

Inductive reference := not_a_reference | lvalue_reference | rvalue_reference.

Record cpp_type := {
  base : fundamental;
  is_const : bool;
  is_volatile : bool;
  ref : reference
}.

#[global] Instance fundamental_eq_dec : EqDecision fundamental.
Proof. solve_decision. Defined.
#[global] Instance reference_eq_dec : EqDecision reference.
Proof. solve_decision. Defined.
#[global] Instance cpp_type_eq_dec : EqDecision cpp_type.
Proof. solve_decision. Defined.

(** [std::decay<T>::type] on the types above (no arrays, no function
    types): drop the reference, then the cv-qualifiers. *)
Definition decay (t : cpp_type) : cpp_type :=
  {| base := base t; is_const := false; is_volatile := false;
     ref := not_a_reference |}.

Definition is_lvalue_reference (t : cpp_type) : bool :=
  bool_decide (ref t = lvalue_reference).

(** [std::is_void<T>]: possibly cv-qualified [void]. *)
Definition is_void (t : cpp_type) : bool :=
  bool_decide (base t = t_void) && bool_decide (ref t = not_a_reference).

(** What a slot of the cell is declared to hold. *)
Inductive stored_type :=
  | as_is (t : cpp_type)
  | reference_storage (t : cpp_type)
  | as_void.

#[global] Instance stored_type_eq_dec : EqDecision stored_type.
Proof. solve_decision. Defined.

(** [function_argument<T>].  In [plain] it is [std::decay<T>::type]. *)
Definition function_argument (rev : revision) (t : cpp_type) : stored_type :=
  match rev with
  | plain => as_is (decay t)
  | with_references =>
      if is_lvalue_reference t then reference_storage t else as_is (decay t)
  end.

(** [function_result<T>].  [plain] has no such trait: the result type is
    used as it is. *)
Definition function_result (rev : revision) (t : cpp_type) : stored_type :=
  match rev with
  | plain => as_is t
  | with_references =>
      if is_void t then as_void
      else if is_lvalue_reference t then reference_storage t
      else as_is (decay t)
  end.

(** [type_id<T...>()] is the address of a function instantiated per type
    list, so two ids are equal exactly when the types are; [null_id] is
    the null pointer. *)
Inductive type_name :=
  | of_type (s : stored_type)
  | optional_tuple (l : list stored_type).

#[global] Instance type_name_eq_dec : EqDecision type_name.
Proof. solve_decision. Defined.

Definition type_id_t := option type_name.
Definition null_id : type_id_t := None.
Definition type_id (n : type_name) : type_id_t := Some n.

(** *** Values, exceptions, callables *)

Definition value := Z.

(** The value of the empty struct [as_void]. *)
Definition as_void_value : value := 0.

(** What a [std::exception_ptr] of the cell refers to. *)
Inductive exception_ptr := missing_argument | raised_by_callable (code : nat).

Inductive invoke_result := returned (v : value) | raised (e : exception_ptr).

(** A callable, invoked on the values of the argument slots. *)
Definition callable := list value -> invoke_result.

(** *** The contexts *)

Inductive tag := unsafe_tag | shared_tag | spinlock_tag | waitable_tag.

#[global] Instance tag_eq_dec : EqDecision tag.
Proof. solve_decision. Defined.

(** [struct waitable { std::mutex m_mu; std::condition_variable m_cv; }];
    the mutex is locked or not, the condition variable has no state of its
    own here. *)
Record waitable := { m_mu : bool }.

(** The members a context adds to its two bases. *)
Inductive context_members :=
  | unsafe_ctx
  | shared_ctx
  | spinlock_ctx (m_spinlock : bool)
  | waitable_ctx (m_waitable : waitable).

(** [context_trait<Tag, ...>::type]. *)
Definition context_trait (t : tag) : context_members :=
  match t with
  | unsafe_tag => unsafe_ctx
  | shared_tag => shared_ctx
  | spinlock_tag => spinlock_ctx false
  | waitable_tag => waitable_ctx {| m_mu := false |}
  end.

Definition context_type (m : context_members) : tag :=
  match m with
  | unsafe_ctx => unsafe_tag
  | shared_ctx => shared_tag
  | spinlock_ctx _ => spinlock_tag
  | waitable_ctx _ => waitable_tag
  end.

(** [ctx_storage<Callable, Result, Args...>] *)
Record ctx_storage := {
  m_exception : option exception_ptr;
  m_callable : option callable;
  m_result : option value;
  m_arguments : list (option value)
}.

(** A context: the [ref_counted] base with its [m_counter] (a
    [std::size_t] or [std::atomic_size_t], 64 bits wide), the
    [ctx_storage] base, and the members of the context type. *)
Record context := {
  m_counter : Z;
  ctx_base : ctx_storage;
  own : context_members
}.

Definition size_max_plus_one : Z := 2 ^ 64.

Definition with_counter (n : Z) (c : context) : context :=
  {| m_counter := n; ctx_base := ctx_base c; own := own c |}.
Definition with_base (s : ctx_storage) (c : context) : context :=
  {| m_counter := m_counter c; ctx_base := s; own := own c |}.
Definition with_own (m : context_members) (c : context) : context :=
  {| m_counter := m_counter c; ctx_base := ctx_base c; own := m |}.

Definition with_exception (e : option exception_ptr) (s : ctx_storage) :=
  {| m_exception := e; m_callable := m_callable s; m_result := m_result s;
     m_arguments := m_arguments s |}.
Definition with_result (r : option value) (s : ctx_storage) :=
  {| m_exception := m_exception s; m_callable := m_callable s; m_result := r;
     m_arguments := m_arguments s |}.
Definition with_arguments (a : list (option value)) (s : ctx_storage) :=
  {| m_exception := m_exception s; m_callable := m_callable s;
     m_result := m_result s; m_arguments := a |}.

(** What the code does besides changing the context. *)
Inductive event :=
  | ev_invoke (args : list value)   (* the stored callable is invoked *)
  | ev_lock_global                  (* g_waitable.m_mu.lock() *)
  | ev_unlock_global                (* g_waitable.m_mu.unlock() *)
  | ev_notify_global                (* g_waitable.m_cv.notify_all() *)
  | ev_notify_context               (* ctx.m_waitable.m_cv.notify_all() *)
  | ev_destroy                      (* alloc_trait::destroy *)
  | ev_deallocate                   (* alloc_trait::deallocate *)
  | ev_bind_temporary (i : nat).    (* slot i refers to a temporary now dead *)

(** [ref_counted::acquire] and [ref_counted::release]. *)
Definition acquire (c : context) : context :=
  with_counter ((m_counter c + 1) mod size_max_plus_one) c.

Definition release (c : context) : option context * list event :=
  let n := (m_counter c - 1) mod size_max_plus_one in
  if n =? 0 then (None, [ev_destroy; ev_deallocate])
  else (Some (with_counter n c), []).

(** [lock], [try_lock], [unlock] of the four contexts.  [lock] gives
    [None] when it never returns (the flag or the mutex is taken and
    nobody else runs); [unlock] gives [None] when the behaviour is
    undefined (a [std::mutex] that is not locked).  The mutex of a
    [waitable_ctx] is [m_waitable.m_mu] (one revision writes [m_mu]). *)
Definition lock (c : context) : option context :=
  match own c with
  | unsafe_ctx | shared_ctx => Some c
  | spinlock_ctx flag =>
      if flag then None else Some (with_own (spinlock_ctx true) c)
  | waitable_ctx w =>
      if m_mu w then None else Some (with_own (waitable_ctx {| m_mu := true |}) c)
  end.

Definition try_lock (c : context) : bool * context :=
  match own c with
  | unsafe_ctx | shared_ctx => (true, c)
  | spinlock_ctx flag => (negb flag, with_own (spinlock_ctx true) c)
  | waitable_ctx w =>
      if m_mu w then (false, c)
      else (true, with_own (waitable_ctx {| m_mu := true |}) c)
  end.

Definition unlock (c : context) : option context :=
  match own c with
  | unsafe_ctx | shared_ctx => Some c
  | spinlock_ctx _ => Some (with_own (spinlock_ctx false) c)
  | waitable_ctx w =>
      if m_mu w then Some (with_own (waitable_ctx {| m_mu := false |}) c)
      else None
  end.

(** [waitable_source<Context>]: the specialisations for [unsafe_ctx] and
    [waitable_ctx], the primary template for the other two.  These are the
    events of the notifier of a [call] action, which the action appends to
    the history.  The action does not wait for the mutex: a statement about
    a [call] that runs beside other threads says in what state of the
    mutex ([global_locked]) it starts. *)
Definition lock_waitable (m : context_members) : list event :=
  match m with
  | unsafe_ctx | waitable_ctx _ => []
  | shared_ctx | spinlock_ctx _ => [ev_lock_global]
  end.
Definition unlock_waitable (m : context_members) : list event :=
  match m with
  | unsafe_ctx | waitable_ctx _ => []
  | shared_ctx | spinlock_ctx _ => [ev_unlock_global]
  end.
Definition notify (m : context_members) : list event :=
  match m with
  | unsafe_ctx => []
  | waitable_ctx _ => [ev_notify_context]
  | shared_ctx | spinlock_ctx _ => [ev_notify_global]
  end.


(** *** Helpers over [std::tuple<std::optional<T>...>] *)

Definition has_value_ {A : Type} (o : option A) : bool :=
  match o with Some _ => true | None => false end.

(** [detail::has_values_impl]: the fold [result_ = result_ && bool(get<I>(t))]. *)
Definition has_values_impl (t : list (option value)) (indices : list nat) : bool :=
  fold_left (fun result_ i => result_ && has_value_ (nth i t None)) indices true.

Definition has_values (t : list (option value)) : bool :=
  has_values_impl t (seq 0 (length t)).

(** The three [ith_element::detail] recursions over [index_sequence<C, I...>]
    (for an empty pack there is no index to compare with). *)
Fixpoint get_impl (i : nat) (indices : list nat) : option nat :=
  match indices with
  | [] => None
  | C :: Is => if Nat.eqb i C then Some C else get_impl i Is
  end.

Fixpoint is_same_impl (T : list stored_type) (i : nat) (id : type_id_t)
  (indices : list nat) : bool :=
  match indices with
  | [] => false
  | C :: Is =>
      if Nat.eqb i C
      then match T !! C with
           | Some tC => bool_decide (type_id (of_type tC) = id)
           | None => false
           end
      else is_same_impl T i id Is
  end.

Fixpoint has_value_impl (i : nat) (t : list (option value)) (indices : list nat)
  : bool :=
  match indices with
  | [] => false
  | C :: Is => if Nat.eqb i C then has_value_ (nth C t None) else has_value_impl i t Is
  end.

Definition ith_get (i : nat) (t : list (option value)) : option nat :=
  get_impl i (seq 0 (length t)).
Definition ith_is_same (T : list stored_type) (i : nat) (id : type_id_t) : bool :=
  is_same_impl T i id (seq 0 (length T)).
Definition ith_has_value (i : nat) (t : list (option value)) : bool :=
  has_value_impl i t (seq 0 (length t)).

(** The arguments [apply] passes on: every optional of [m_arguments] is
    dereferenced. *)
Definition argument_values (t : list (option value)) : list value :=
  map (fun o => match o with Some v => v | None => 0 end) t.

(** The two [ctx_storage::store_exception]; [None] is the rethrow inside a
    [noexcept] function, that is [std::terminate]. *)
Definition store_exception (e : exception_ptr) (s : ctx_storage) : option ctx_storage :=
  match m_exception s with
  | Some _ => None
  | None => Some (with_exception (Some e) s)
  end.

(** *** The manager function *)

Inductive action_type :=
  | up_ref_counter
  | down_ref_counter
  | lock_call
  | try_lock_call
  | unlock_call
  | get_argument_storage
  | call
  | has_anything            (* [plain] only *)
  | has_result
  | has_exception
  | has_argument
  | check_result_type
  | check_argument_type
  | get_result
  | get_argument
  | get_exception
  | get_waitable
  | get_argument_count
  | has_all_arguments.      (* [with_references] only *)

#[global] Instance action_type_eq_dec : EqDecision action_type.
Proof. solve_decision. Defined.

(** The places inside (or beside) a context a [void*] answer points to. *)
Inductive pointer :=
  | to_context
  | to_arguments
  | to_result
  | to_exception
  | to_argument (i : nat)
  | to_own_waitable
  | to_global_waitable.

#[global] Instance pointer_eq_dec : EqDecision pointer.
Proof. solve_decision. Defined.

(** One instantiation [core_manager<Context, Callable, Result, Args...>]:
    the context type and the signature it was instantiated with. *)
Record manager := {
  mg_context : tag;
  mg_result : cpp_type;
  mg_args : list cpp_type
}.

#[global] Instance manager_eq_dec : EqDecision manager.
Proof. solve_decision. Defined.

(** What a manager call leaves behind: the returned pointer ([None] is
    [nullptr]), the context ([None] once destroyed and deallocated), the
    number written through [arg], and the events. *)
Record reply := {
  r_pointer : option pointer;
  r_context : option context;
  r_out : option nat;
  r_events : list event
}.

Inductive dispatch :=
  | Replied (r : reply)
  | Terminates       (* std::terminate *)
  | Never_returns    (* waits for a lock for ever *)
  | Undefined.       (* undefined behaviour *)

Definition answer (p : option pointer) (c : context) : dispatch :=
  Replied {| r_pointer := p; r_context := Some c; r_out := None; r_events := [] |}.

Definition answer_if (b : bool) (c : context) : dispatch :=
  answer (if b then Some to_context else None) c.

Definition has_anything_ (s : ctx_storage) : bool :=
  has_value_ (m_result s) || has_value_ (m_exception s).

(** The [call] case.  (The source reads the arguments as
    [context.m_args]; the member is [m_arguments].) *)
Definition call_case (Result : cpp_type) (rev : revision) (c : context) : dispatch :=
  let s := ctx_base c in
  if negb (has_values (m_arguments s)) then
    match store_exception missing_argument s with
    | None => Terminates
    | Some s' => answer None (with_base s' c)
    end
  else
    let before := lock_waitable (own c) in
    let after := unlock_waitable (own c) ++ notify (own c) in
    if has_anything_ s then
      Replied {| r_pointer := Some to_context; r_context := Some c;
                 r_out := None; r_events := before ++ after |}
    else
      match m_callable s with
      | None => Undefined
      | Some f =>
          let args := argument_values (m_arguments s) in
          match f args with
          | returned v =>
              let v' := match rev with
                        | with_references => if is_void Result then as_void_value else v
                        | plain => v
                        end in
              Replied {| r_pointer := Some to_context;
                         r_context := Some (with_base (with_result (Some v') s) c);
                         r_out := None;
                         r_events := before ++ [ev_invoke args] ++ after |}
          | raised e =>
              match store_exception e s with
              | None => Terminates
              | Some s' =>
                  Replied {| r_pointer := None;
                             r_context := Some (with_base s' c);
                             r_out := None;
                             r_events := before ++ [ev_invoke args] ++ after |}
              end
          end
      end.

(** [core_manager<Context, Callable, Result, Args...>(action, ctx, id, arg)].
    [arg] is the [std::size_t] the [void* arg] points to, if any.  The first
    test is the [reinterpret_cast<Context*>(ctx)]: the object must be a
    [Context].  An action the revision's enumeration does not have matches
    no case of the [switch] and falls to the final [return ctx]. *)
Definition core_manager (rev : revision) (m : manager)
  (action : action_type) (c : context) (id : type_id_t) (arg : option nat)
  : dispatch :=
  if negb (bool_decide (context_type (own c) = mg_context m)) then Undefined else
  let s := ctx_base c in
  let Args := map (function_argument rev) (mg_args m) in
  match action with
  | up_ref_counter => answer (Some to_context) (acquire c)
  | down_ref_counter =>
      let '(c', evs) := release c in
      Replied {| r_pointer := Some to_context; r_context := c';
                 r_out := None; r_events := evs |}
  | lock_call =>
      match lock c with
      | Some c' => answer (Some to_context) c'
      | None => Never_returns
      end
  | try_lock_call =>
      let '(ok, c') := try_lock c in answer_if ok c'
  | unlock_call =>
      match unlock c with
      | Some c' => answer (Some to_context) c'
      | None => Undefined
      end
  | get_argument_storage =>
      answer (if bool_decide (type_id (optional_tuple Args) = id)
              then Some to_arguments else None) c
  | call => call_case (mg_result m) rev c
  | has_anything =>
      match rev with
      | plain => answer_if (has_anything_ s) c
      | with_references => answer (Some to_context) c
      end
  | has_result => answer_if (has_value_ (m_result s)) c
  | has_exception => answer_if (has_value_ (m_exception s)) c
  | has_argument =>
      match arg with
      | Some i_ => answer_if (ith_has_value i_ (m_arguments s)) c
      | None => Undefined
      end
  | check_result_type =>
      answer_if (bool_decide (type_id (of_type (function_result rev (mg_result m))) = id)) c
  | check_argument_type =>
      match arg with
      | Some i_ => answer_if (ith_is_same Args i_ id) c
      | None => Undefined
      end
  | get_result => answer (Some to_result) c
  | get_argument =>
      match arg with
      | Some i_ => answer (to_argument <$> ith_get i_ (m_arguments s)) c
      | None => Undefined
      end
  | get_exception => answer (Some to_exception) c
  | get_waitable =>
      answer (Some (match own c with
                    | waitable_ctx _ => to_own_waitable
                    | _ => to_global_waitable
                    end)) c
  | get_argument_count =>
      match arg with
      | Some _ =>
          Replied {| r_pointer := Some to_context; r_context := Some c;
                     r_out := Some (length (mg_args m)); r_events := [] |}
      | None => Undefined
      end
  | has_all_arguments =>
      match rev with
      | with_references => answer_if (has_values (m_arguments s)) c
      | plain => answer (Some to_context) c
      end
  end.


(** *** Handles and the memory they point into *)

(** [af_ctx_manager]: [void* m_context] and [manager_function* m_manager];
    [any_function] and [future<T>] derive from it and add no member. *)
Record af_ctx_manager := {
  m_context : option nat;
  m_manager : option manager
}.

Definition empty : af_ctx_manager := {| m_context := None; m_manager := None |}.

(** [explicit operator bool]: [m_context && m_manager]. *)
Definition to_bool (h : af_ctx_manager) : bool :=
  has_value_ (m_context h) && has_value_ (m_manager h).

(** [operator==] of two handles. *)
Definition equal (lhs rhs : af_ctx_manager) : bool :=
  bool_decide (m_context lhs = m_context rhs)
  && bool_decide (m_manager lhs = m_manager rhs).

(** The allocated contexts by address, the next address the allocator
    hands out (addresses are not reused), and the events so far, each with
    the address of the context it belongs to. *)
Record machine := {
  heap : gmap nat context;
  next_free : nat;
  trace : list (nat * event)
}.

(** What leaves a function by [throw]. *)
Inductive thrown :=
  | bad_type_cast
  | bad_optional_access
  | rethrown (e : exception_ptr).

Inductive outcome (A : Type) :=
  | Ok (a : A) (σ : machine)
  | Thrown (e : thrown) (σ : machine)
  | Terminated
  | Blocked
  | Undefined_behaviour.
Arguments Ok {A} a σ.
Arguments Thrown {A} e σ.
Arguments Terminated {A}.
Arguments Blocked {A}.
Arguments Undefined_behaviour {A}.

Definition M (A : Type) := machine -> outcome A.

Definition ret {A} (a : A) : M A := fun σ => Ok a σ.
Definition bind {A B} (m : M A) (k : A -> M B) : M B :=
  fun σ =>
    match m σ with
    | Ok a σ' => k a σ'
    | Thrown e σ' => Thrown e σ'
    | Terminated => Terminated
    | Blocked => Blocked
    | Undefined_behaviour => Undefined_behaviour
    end.
Definition throw {A} (e : thrown) : M A := fun σ => Thrown e σ.
Definition undefined {A} : M A := fun _ => Undefined_behaviour.

(** Run [after] when [body] is left, by return or by exception (a
    destructor at the end of a scope). *)
Definition at_scope_exit {A} (body : M A) (after : M unit) : M A :=
  fun σ =>
    match body σ with
    | Ok a σ' => bind after (fun _ => ret a) σ'
    | Thrown e σ' => bind after (fun _ => throw e) σ'
    | Terminated => Terminated
    | Blocked => Blocked
    | Undefined_behaviour => Undefined_behaviour
    end.

Notation "'let*' x ':=' m 'in' k" := (bind m (fun x => k))
  (at level 10, x name, m at level 100, k at level 200).
Notation "'run' m 'then' k" := (bind m (fun _ => k))
  (at level 10, m at level 100, k at level 200).

Definition storage_at (l : nat) (σ : machine) : option ctx_storage :=
  ctx_base <$> heap σ !! l.

Definition emit (l : nat) (evs : list event) (σ : machine) : machine :=
  {| heap := heap σ;
     next_free := next_free σ;
     trace := trace σ ++ map (pair l) evs |}.

Definition put (l : nat) (c : option context) (evs : list event) (σ : machine)
  : machine :=
  {| heap := match c with
             | Some c' => <[l := c']> (heap σ)
             | None => delete l (heap σ)
             end;
     next_free := next_free σ;
     trace := trace σ ++ map (pair l) evs |}.

(** The mutex of the process-wide waitable after a history of events: it
    is locked when the last [lock] or [unlock] of it is a [lock].
    ([g_waitable] is one object for each instantiation of
    [waitable_source]; the model has one, the place [to_global_waitable]:
    it describes a program whose contexts with a process-wide waitable are
    of one type.) *)
Definition global_locked (evs : list (nat * event)) : bool :=
  fold_left (fun locked e =>
               match e.2 with
               | ev_lock_global => true
               | ev_unlock_global => false
               | _ => locked
               end) evs false.

(** [call_with(action, id, arg)]: [m_manager(action, m_context, id, arg)].
    A null manager, a null context or a context that is no longer
    allocated is undefined behaviour. *)
Definition call_with (rev : revision) (h : af_ctx_manager)
  (action : action_type) (id : type_id_t) (arg : option nat)
  : M (option pointer * option nat) :=
  fun σ =>
    match m_manager h, m_context h with
    | Some mg, Some l =>
        match heap σ !! l with
        | Some c =>
            match core_manager rev mg action c id arg with
            | Replied r => Ok (r_pointer r, r_out r) (put l (r_context r) (r_events r) σ)
            | Terminates => Terminated
            | Never_returns => Blocked
            | Undefined => Undefined_behaviour
            end
        | None => Undefined_behaviour
        end
    | _, _ => Undefined_behaviour
    end.

(** A manager call used as a condition: is the answer non-null? *)
Definition ask (rev : revision) (h : af_ctx_manager) (action : action_type)
  (id : type_id_t) (arg : option nat) : M bool :=
  let* r := call_with rev h action id arg in ret (has_value_ r.1).

(** [call_guard guard_{m_context, m_manager}] around [body]. *)
Definition guarded {A} (rev : revision) (h : af_ctx_manager) (body : M A) : M A :=
  let* locked := ask rev h lock_call null_id None in
  at_scope_exit body
    (if locked then run call_with rev h unlock_call null_id None then ret tt
     else ret tt).

(** **** Construction, copies, moves, destruction *)

(** [any_function(Tag, R( *f)(Args...), al)]: [alloc_context], then the
    callable is stored and the two pointers are set. *)
Definition construct (Tag : tag) (f : callable) (R : cpp_type)
  (Args : list cpp_type) : M af_ctx_manager :=
  fun σ =>
    let storage_ := next_free σ in
    let c := {| m_counter := 1;
                ctx_base := {| m_exception := None; m_callable := Some f;
                               m_result := None;
                               m_arguments := replicate (length Args) None |};
                own := context_trait Tag |} in
    Ok {| m_context := Some storage_;
          m_manager := Some {| mg_context := Tag; mg_result := R; mg_args := Args |} |}
       {| heap := <[storage_ := c]> (heap σ);
          next_free := S storage_;
          trace := trace σ |}.

(** [af_ctx_manager(const af_ctx_manager& other)] *)
Definition copy_construct (rev : revision) (other : af_ctx_manager)
  : M af_ctx_manager :=
  let this := {| m_context := m_context other; m_manager := m_manager other |} in
  if to_bool other
  then run call_with rev this up_ref_counter null_id None then ret this
  else ret this.

(** [swap]: the two handles after it. *)
Definition swap (this other : af_ctx_manager) : af_ctx_manager * af_ctx_manager :=
  (other, this).

(** [af_ctx_manager(af_ctx_manager&& other)]: the new handle and what is
    left in [other]. *)
Definition move_construct (other : af_ctx_manager)
  : M (af_ctx_manager * af_ctx_manager) :=
  ret (swap empty other).

(** [~af_ctx_manager()] *)
Definition destroy (rev : revision) (this : af_ctx_manager) : M unit :=
  if to_bool this
  then run call_with rev this down_ref_counter null_id None then ret tt
  else ret tt.

(** [operator=(af_ctx_manager&& other)]; [same_object] is [this == &other]. *)
Definition move_assign (same_object : bool) (this other : af_ctx_manager)
  : M (af_ctx_manager * af_ctx_manager) :=
  if same_object then ret (this, other) else ret (swap this other).

(** [operator=(const af_ctx_manager& other)]: the temporary
    [af_ctx_manager(other)] is move-assigned to [*this] and destroyed at
    the end of the full expression. *)
Definition copy_assign (rev : revision) (same_object : bool)
  (this other : af_ctx_manager) : M af_ctx_manager :=
  if same_object then ret this else
  run (if to_bool this
       then run call_with rev this down_ref_counter null_id None then ret tt
       else ret tt) then
  let* tmp := copy_construct rev other in
  let* r := move_assign false this tmp in
  run destroy rev r.2 then
  ret r.1.


(** **** The call operators *)

Inductive call_result := succeeded | exception | arguments_not_accepted.

#[global] Instance call_result_eq_dec : EqDecision call_result.
Proof. solve_decision. Defined.

(** The positions, counted from [i], of the arguments deduced as lvalue
    references. *)
Fixpoint lvalue_positions (i : nat) (args : list (cpp_type * value)) : list nat :=
  match args with
  | [] => []
  | a :: rest =>
      (if is_lvalue_reference a.1 then [i] else []) ++ lvalue_positions (S i) rest
  end.

(** The slots [args_ = std::make_tuple(std::forward<Args>(args)...)]
    binds to an element of the temporary tuple.  [std::make_tuple] copies
    every argument into the tuple; a slot of type [reference_storage<T&>]
    takes the address of the copy, which is dead when the statement ends.
    [plain] has no such slot: it stores every argument by value. *)
Definition bound_to_temporary (rev : revision) (args : list (cpp_type * value))
  : list nat :=
  match rev with
  | plain => []
  | with_references => lvalue_positions 0 args
  end.

(** That assignment compiles: [reference_storage<T&>] must be
    constructible from an rvalue of the decayed type, so [T] must be const
    and not volatile; in [plain] nothing is asked of the arguments.  With
    an argument list that fails this there is no [operator()] to speak
    of. *)
Definition call_compiles (rev : revision) (args : list (cpp_type * value)) : bool :=
  match rev with
  | plain => true
  | with_references =>
      forallb (fun a => negb (is_lvalue_reference a.1)
                        || (is_const a.1 && negb (is_volatile a.1))) args
  end.

(** A write through the pointer [get_argument_storage] returned:
    [args_ = std::make_tuple(std::forward<Args>(args)...)].  Every slot
    is engaged afterwards.  A slot of [reference_storage] is modelled by
    the value of the object it refers to; for the slots bound to the
    temporary that object is gone, which [ev_bind_temporary] records. *)
Definition assign_arguments (rev : revision) (h : af_ctx_manager)
  (args : list (cpp_type * value)) : M unit :=
  fun σ =>
    match m_context h with
    | Some l =>
        match heap σ !! l with
        | Some c =>
            Ok tt (put l (Some (with_base
                                  (with_arguments (map Some (map snd args)) (ctx_base c)) c))
                     (map ev_bind_temporary (bound_to_temporary rev args)) σ)
        | None => Undefined_behaviour
        end
    | None => Undefined_behaviour
    end.

(** The [call] action that follows the assignment.  All slots being
    engaged, it invokes the callable exactly when the cell holds neither
    result nor exception, and the invocation reads every slot: with a slot
    bound to the dead temporary that is undefined behaviour. *)
Definition call_assigned (rev : revision) (h : af_ctx_manager)
  (args : list (cpp_type * value)) : M bool :=
  match bound_to_temporary rev args with
  | [] => ask rev h call null_id None
  | _ :: _ =>
      fun σ =>
        match m_context h with
        | Some l =>
            match heap σ !! l with
            | Some c =>
                if has_anything_ (ctx_base c) then ask rev h call null_id None σ
                else Undefined_behaviour
            | None => Undefined_behaviour
            end
        | None => Undefined_behaviour
        end
  end.

(** [operator()(Args&&... args)]; every supplied argument comes with the
    type deduced for it ([T&] for an lvalue of type [T], [T] for an
    rvalue). *)
Definition call_operator (rev : revision) (h : af_ctx_manager)
  (args : list (cpp_type * value)) : M call_result :=
  let opt_args := optional_tuple (map (fun a => function_argument rev a.1) args) in
  guarded rev h (
    let* arg_storage_ := call_with rev h get_argument_storage (type_id opt_args) None in
    match arg_storage_.1 with
    | None => ret arguments_not_accepted
    | Some _ =>
        run assign_arguments rev h args then
        let* ok := call_assigned rev h args in
        ret (if ok then succeeded else exception)
    end).

(** [operator()()]: call with the stored arguments. *)
Definition call_stored (rev : revision) (h : af_ctx_manager) : M call_result :=
  guarded rev h (
    let* ok := ask rev h call null_id None in
    ret (if ok then succeeded else exception)).

(** [is_result_of_type<T>()] *)
Definition is_result_of_type (rev : revision) (h : af_ctx_manager) (T : cpp_type)
  : M bool :=
  ask rev h check_result_type (type_id (of_type (function_result rev T))) None.

(** **** The future *)

(** [explicit future(const any_function& af)].  When the body throws, the
    base subobject, already constructed, is destroyed. *)
Definition future_construct (rev : revision) (T : cpp_type) (af : af_ctx_manager)
  : M af_ctx_manager :=
  let* this := copy_construct rev af in
  if to_bool af then
    let* same := is_result_of_type rev af T in
    if same then ret this
    else run destroy rev this then throw bad_type_cast
  else ret this.

(** [valid()] *)
Definition valid (h : af_ctx_manager) : bool := to_bool h.

Inductive future_status := ready | timeout | deferred.

#[global] Instance future_status_eq_dec : EqDecision future_status.
Proof. solve_decision. Defined.

(** What the other threads do to the memory while this one is blocked on
    the condition variable. *)
Definition interference := machine -> machine.

Definition interfere (w : interference) : M unit := fun σ => Ok tt (w σ).

(** [m_mu.lock()] and [m_mu.unlock()] of the waitable [get_waitable]
    pointed to.  The mutex of a context is part of the context; the state
    of the process-wide one is read off the history.  Locking a mutex
    another thread holds does not return while nobody else runs;
    unlocking one that is not locked is undefined. *)
Definition mutex_lock (h : af_ctx_manager) (w_ : option pointer) : M unit :=
  fun σ =>
    match w_, m_context h with
    | Some to_global_waitable, Some l =>
        if global_locked (trace σ) then Blocked
        else Ok tt (emit l [ev_lock_global] σ)
    | Some to_own_waitable, Some l =>
        match heap σ !! l with
        | Some c =>
            match own c with
            | waitable_ctx w =>
                if m_mu w then Blocked
                else Ok tt (put l (Some (with_own (waitable_ctx {| m_mu := true |}) c)) [] σ)
            | _ => Undefined_behaviour
            end
        | None => Undefined_behaviour
        end
    | _, _ => Undefined_behaviour
    end.

Definition mutex_unlock (h : af_ctx_manager) (w_ : option pointer) : M unit :=
  fun σ =>
    match w_, m_context h with
    | Some to_global_waitable, Some l =>
        if global_locked (trace σ) then Ok tt (emit l [ev_unlock_global] σ)
        else Undefined_behaviour
    | Some to_own_waitable, Some l =>
        match heap σ !! l with
        | Some c =>
            match own c with
            | waitable_ctx w =>
                if m_mu w
                then Ok tt (put l (Some (with_own (waitable_ctx {| m_mu := false |}) c)) [] σ)
                else Undefined_behaviour
            | _ => Undefined_behaviour
            end
        | None => Undefined_behaviour
        end
    | _, _ => Undefined_behaviour
    end.

(** The predicate the three waits pass to the condition variable:
    [has_anything] in [plain], [has_result || has_exception] otherwise. *)
Definition completed (rev : revision) (h : af_ctx_manager) : M bool :=
  match rev with
  | plain => ask rev h has_anything null_id None
  | with_references =>
      let* r := ask rev h has_result null_id None in
      if r then ret true else ask rev h has_exception null_id None
  end.

(** [std::condition_variable::wait(lock, pred)], by its definition
    [while (!pred()) wait(lock);].  Each blocking [wait(lock)] releases the
    mutex, lets one [interference] happen and takes the mutex again; with
    no interference left nothing wakes the thread any more. *)
Fixpoint cv_wait (unlock_ lock_ : M unit) (pred : M bool)
  (wakes : list interference) : M unit :=
  let* done := pred in
  if done then ret tt else
  match wakes with
  | [] => fun _ => Blocked
  | w :: rest =>
      run unlock_ then run interfere w then run lock_ then
      cv_wait unlock_ lock_ pred rest
  end.

(** [wait_until(lock, abs_time, pred)], by its definition
    [while (!pred()) if (wait_until(lock, abs_time) == cv_status::timeout)
    return pred(); return true;].  [wakes] are the waits that end before
    the deadline, [last] the one the deadline ends.  [wait_for] is
    [wait_until] at [now + rel_time]. *)
Fixpoint cv_wait_until (unlock_ lock_ : M unit) (pred : M bool)
  (wakes : list interference) (last : interference) : M bool :=
  let* done := pred in
  if done then ret true else
  match wakes with
  | [] => run unlock_ then run interfere last then run lock_ then pred
  | w :: rest =>
      run unlock_ then run interfere w then run lock_ then
      cv_wait_until unlock_ lock_ pred rest last
  end.

(** The condition-variable part shared by the waits: [get_waitable], a
    [std::unique_lock] on its mutex, the wait, and the unlock when the
    lock goes out of scope. *)
Definition under_waitable_lock {A} (rev : revision) (h : af_ctx_manager)
  (body : M unit -> M unit -> M A) : M A :=
  let* w_ := call_with rev h get_waitable null_id None in
  run mutex_lock h w_.1 then
  at_scope_exit (body (mutex_unlock h w_.1) (mutex_lock h w_.1))
                (mutex_unlock h w_.1).

(** [is_prepared]'s condition, as [future::wait] evaluates it. *)
Definition prepared (rev : revision) (h : af_ctx_manager) : M bool :=
  let* all := ask rev h has_all_arguments null_id None in
  if all then
    let* r := ask rev h has_result null_id None in
    if r then ret false else
    let* e := ask rev h has_exception null_id None in
    ret (negb e)
  else ret false.

(** [future::wait()].  In [with_references] a prepared call is run by the
    waiting thread itself. *)
Definition wait (rev : revision) (h : af_ctx_manager) (wakes : list interference)
  : M unit :=
  let on_condition :=
    under_waitable_lock rev h
      (fun unlock_ lock_ => cv_wait unlock_ lock_ (completed rev h) wakes) in
  match rev with
  | plain => on_condition
  | with_references =>
      let* called :=
        guarded rev h (
          let* p := prepared rev h in
          if p then run call_with rev h call null_id None then ret true
          else ret false) in
      if called then ret tt else on_condition
  end.

(** [future::wait_until(timeout_time)] and [future::wait_for(duration)]. *)
Definition wait_until (rev : revision) (h : af_ctx_manager)
  (wakes : list interference) (last : interference) : M future_status :=
  under_waitable_lock rev h
    (fun unlock_ lock_ =>
       let* r := cv_wait_until unlock_ lock_ (completed rev h) wakes last in
       ret (if r then ready else timeout)).

Definition wait_for := wait_until.

(** Reads through the pointers [get_exception] and [get_result] returned. *)
Definition read_exception (h : af_ctx_manager) : M (option exception_ptr) :=
  fun σ =>
    match m_context h with
    | Some l => match heap σ !! l with
                | Some c => Ok (m_exception (ctx_base c)) σ
                | None => Undefined_behaviour
                end
    | None => Undefined_behaviour
    end.

Definition read_result (h : af_ctx_manager) : M (option value) :=
  fun σ =>
    match m_context h with
    | Some l => match heap σ !! l with
                | Some c => Ok (m_result (ctx_base c)) σ
                | None => Undefined_behaviour
                end
    | None => Undefined_behaviour
    end.

(** [future<T>::get()]; the overload for [void] only asks for the result
    pointer and returns nothing ([None]).  (One revision asks for the
    result pointer through an undeclared [af]; the future itself is
    meant.) *)
Definition get (rev : revision) (T : cpp_type) (h : af_ctx_manager)
  (wakes : list interference) : M (option value) :=
  run wait rev h wakes then
  guarded rev h (
    let* e := ask rev h has_exception null_id None in
    if e then
      run call_with rev h get_exception null_id None then
      let* eptr_ := read_exception h in
      match eptr_ with
      | Some ex => throw (rethrown ex)
      | None => undefined
      end
    else
      run call_with rev h get_result null_id None then
      match rev with
      | with_references =>
          if is_void T then ret None else
          let* r := read_result h in
          match r with Some v => ret (Some v) | None => throw bad_optional_access end
      | plain =>
          let* r := read_result h in
          match r with Some v => ret (Some v) | None => throw bad_optional_access end
      end).

(** *** Vocabulary of the statements *)

(** The handle [h] refers, through manager [mg], to the live context [c]
    at address [l], and [c] is of the type [mg] was instantiated for. *)
Definition points_to (σ : machine) (h : af_ctx_manager) (mg : manager)
  (l : nat) (c : context) : Prop :=
  m_manager h = Some mg /\ m_context h = Some l /\ heap σ !! l = Some c
  /\ context_type (own c) = mg_context mg.

(** Is the lock of the context taken, and the context with it taken. *)
Definition held (c : context) : bool :=
  match own c with
  | unsafe_ctx | shared_ctx => false
  | spinlock_ctx flag => flag
  | waitable_ctx w => m_mu w
  end.

Definition taken (c : context) : context :=
  match own c with
  | unsafe_ctx | shared_ctx => c
  | spinlock_ctx _ => with_own (spinlock_ctx true) c
  | waitable_ctx _ => with_own (waitable_ctx {| m_mu := true |}) c
  end.

(** The events of a notifier around nothing: what a [call] that finds the
    cell completed leaves in the trace. *)
Definition notifier_events (m : context_members) : list event :=
  lock_waitable m ++ unlock_waitable m ++ notify m.

Definition is_invoke (e : event) : bool :=
  match e with ev_invoke _ => true | _ => false end.

(** The context at [l] holds a result or an exception. *)
Definition completed_at (l : nat) (σ : machine) : Prop :=
  exists s, storage_at l σ = Some s /\ has_anything_ s = true.

(** All arguments are there and neither a result nor an exception is. *)
Definition is_prepared (s : ctx_storage) : bool :=
  has_values (m_arguments s) && negb (has_anything_ s).

(** Partial correctness of a computation: from a state in [P], a return
    ends in [Q] and an exception leaves a state in [R]. *)
Definition triple {A} (P : machine -> Prop) (m : M A)
  (Q : A -> machine -> Prop) (R : machine -> Prop) : Prop :=
  forall σ, P σ ->
    match m σ with
    | Ok a σ' => Q a σ'
    | Thrown _ σ' => R σ'
    | _ => True
    end.

(** The interference [w] keeps the property [Q] of the storage at [l]. *)
Definition stable (Q : option ctx_storage -> Prop) (l : nat) (w : interference)
  : Prop :=
  forall σ, Q (storage_at l σ) -> Q (storage_at l (w σ)).

(** [o] is a [throw] of [bad_type_cast]. *)
Definition throws_bad_type_cast {A} (o : outcome A) : Prop :=
  exists σ', o = Thrown bad_type_cast σ'.

(** What a caller sees of a manager call. *)
Definition observation := option (option pointer * list event).

Definition observe (d : dispatch) : observation :=
  match d with
  | Replied r => Some (r_pointer r, r_events r)
  | _ => None
  end.

(** The observations of a sequence of actions on a context, each with
    [null_id] and no [arg]; a call that does not reply ends the run. *)
Fixpoint behaviour (rev : revision) (mg : manager) (actions : list action_type)
  (c : context) : list observation :=
  match actions with
  | [] => []
  | a :: rest =>
      let d := core_manager rev mg a c null_id None in
      observe d ::
      match d with
      | Replied {| r_context := Some c' |} => behaviour rev mg rest c'
      | _ => []
      end
  end.

(** A property of the storage at [l], as a property of the memory. *)
Definition on_storage (l : nat) (P : option ctx_storage -> Prop) : machine -> Prop :=
  fun σ => P (storage_at l σ).

(** The asking action [a] leaves the context as it is and answers non-null
    exactly when [f] holds of the storage. *)
Definition reports (rev : revision) (a : action_type) (f : ctx_storage -> bool) : Prop :=
  forall mg c r,
    core_manager rev mg a c null_id None = Replied r ->
    r_context r = Some c /\ has_value_ (r_pointer r) = f (ctx_base c).

(** Total correctness: from a state in [P] the computation returns, in a
    state in [Q]. *)
Definition total {A} (P : machine -> Prop) (m : M A)
  (Q : A -> machine -> Prop) : Prop :=
  forall σ, P σ -> exists a σ', m σ = Ok a σ' /\ Q a σ'.

(** The waitable [get_waitable] answers for a context, and the context
    with the mutex of that waitable taken. *)
Definition its_waitable (c : context) : pointer :=
  match own c with
  | waitable_ctx _ => to_own_waitable
  | _ => to_global_waitable
  end.

Definition mutex_taken (c : context) : context :=
  match own c with
  | waitable_ctx _ => with_own (waitable_ctx {| m_mu := true |}) c
  | _ => c
  end.

(** The mutex of the waitable of the context [c]: its own when it has
    one, the process-wide one otherwise. *)
Definition waitable_mutex (c : context) (σ : machine) : bool :=
  match own c with
  | waitable_ctx w => m_mu w
  | _ => global_locked (trace σ)
  end.

(** The context at [l] is live, of the type of [mg], and the mutex of its
    waitable is free, or held. *)
Definition waitable_free (mg : manager) (l : nat) (σ : machine) : Prop :=
  exists c, heap σ !! l = Some c /\ context_type (own c) = mg_context mg
            /\ waitable_mutex c σ = false.

Definition waitable_held (mg : manager) (l : nat) (σ : machine) : Prop :=
  exists c, heap σ !! l = Some c /\ context_type (own c) = mg_context mg
            /\ waitable_mutex c σ = true.

(** What the other threads do during one wait on the condition variable,
    which they find and leave with the mutex free: they leave the cell
    without result and exception if they find it so, or they leave it with
    one of them. *)
Definition keeps_waiting (mg : manager) (l : nat) (w : interference) : Prop :=
  forall σ, waitable_free mg l σ -> ~ completed_at l σ ->
            waitable_free mg l (w σ) /\ ~ completed_at l (w σ).


(** The notifier of a [call] on [c] finds its mutex free: the context
    type has no notifier mutex, or the process-wide one is not held. *)
Definition notifier_can_lock (c : context) (σ : machine) : Prop :=
  lock_waitable (own c) = [] \/ global_locked (trace σ) = false.

(** The context with the mutex of its waitable given back. *)
Definition mutex_released (c : context) : context :=
  match own c with
  | waitable_ctx _ => with_own (waitable_ctx {| m_mu := false |}) c
  | _ => c
  end.

(** *** Concrete cells used in examples *)

Definition int_ : cpp_type :=
  {| base := t_int; is_const := false; is_volatile := false; ref := not_a_reference |}.
Definition const_int : cpp_type :=
  {| base := t_int; is_const := true; is_volatile := false; ref := not_a_reference |}.
Definition int_lvalue : cpp_type :=
  {| base := t_int; is_const := false; is_volatile := false; ref := lvalue_reference |}.
Definition const_int_lvalue : cpp_type :=
  {| base := t_int; is_const := true; is_volatile := false; ref := lvalue_reference |}.

(** [int successor(int x) { return x + 1; }] *)
Definition successor : callable :=
  fun args => match args with [x] => returned (x + 1) | _ => returned 0 end.


Definition successor_manager (t : tag) : manager :=
  {| mg_context := t; mg_result := int_; mg_args := [int_] |}.

(** A context for [successor] with the given slots and [n] handles. *)
Definition successor_context (t : tag) (n : Z) (argument result : option value)
  (exc : option exception_ptr) : context :=
  {| m_counter := n;
     ctx_base := {| m_exception := exc; m_callable := Some successor;
                    m_result := result; m_arguments := [argument] |};
     own := context_trait t |}.


Definition handle_to (l : nat) (mg : manager) : af_ctx_manager :=
  {| m_context := Some l; m_manager := Some mg |}.



(** One context at address [0]. *)
Definition one_cell (c : context) : machine :=
  {| heap := {[ 0%nat := c ]}; next_free := 1; trace := [] |}.

(** Two contexts: the one at [0] with two handles, the one at [1] with
    one. *)
Definition two_cells : machine :=
  {| heap := {[ 0%nat := successor_context unsafe_tag 2 None None None;
                1%nat := successor_context unsafe_tag 1 None None None ]};
     next_free := 2; trace := [] |}.

(** *** Further operations of the handles *)

(** [any_function::has_anything()], [has_result()], [has_exception()]:
    asked under a [call_guard]. *)
Definition af_has_anything (rev : revision) (h : af_ctx_manager) : M bool :=
  guarded rev h (completed rev h).
Definition af_has_result (rev : revision) (h : af_ctx_manager) : M bool :=
  guarded rev h (ask rev h has_result null_id None).
Definition af_has_exception (rev : revision) (h : af_ctx_manager) : M bool :=
  guarded rev h (ask rev h has_exception null_id None).

(** [any_function::is_prepared()] (in [with_references]). *)
Definition af_is_prepared (h : af_ctx_manager) : M bool :=
  guarded with_references h (prepared with_references h).

(** [has_arguments()] (in [with_references]) and [has_argument(n)]; no
    guard. *)
Definition af_has_arguments (h : af_ctx_manager) : M bool :=
  ask with_references h has_all_arguments null_id None.
Definition af_has_argument (rev : revision) (h : af_ctx_manager) (n : nat) : M bool :=
  ask rev h has_argument null_id (Some n).

(** [argument_count()]: [std::size_t n_{0}; call_with(get_argument_count,
    null_id, &n_); return n_;]. *)
Definition argument_count (rev : revision) (h : af_ctx_manager) : M nat :=
  let n_ := 0%nat in
  let* r := call_with rev h get_argument_count null_id (Some n_) in
  ret (match r.2 with Some written => written | None => n_ end).

(** The type [is_argument_of_type<T>] and [argument_cast<T>] ask for:
    [T] itself in [plain], [function_argument<T>] in [with_references]. *)
Definition asked_argument (rev : revision) (T : cpp_type) : stored_type :=
  match rev with
  | plain => as_is T
  | with_references => function_argument with_references T
  end.

(** [is_argument_of_type<T>(n)] *)
Definition is_argument_of_type (rev : revision) (h : af_ctx_manager)
  (T : cpp_type) (n : nat) : M bool :=
  ask rev h check_argument_type (type_id (of_type (asked_argument rev T))) (Some n).

(** A reference bound to what a manager answer points to; binding to
    [nullptr] is undefined. *)
Definition bind_reference (p : option pointer) : M pointer :=
  match p with
  | Some place => ret place
  | None => undefined
  end.

(** [result_cast<T>(const any_function&)] and
    [result_cast<T>(const any_function* )]: the place of the
    [std::optional] they refer to. *)
Definition result_cast (rev : revision) (T : cpp_type) (af : af_ctx_manager)
  : M pointer :=
  let* same := is_result_of_type rev af T in
  if negb same then throw bad_type_cast else
  guarded rev af (
    let* r := call_with rev af get_result null_id None in
    bind_reference r.1).

Definition result_cast_ptr (rev : revision) (T : cpp_type) (af : af_ctx_manager)
  : M (option pointer) :=
  let* same := is_result_of_type rev af T in
  if negb same then ret None else
  guarded rev af (
    let* r := call_with rev af get_result null_id None in
    ret r.1).

(** [argument_cast<T>(const any_function&, n)] and
    [argument_cast<T>(const any_function*, n)]. *)
Definition argument_cast (rev : revision) (T : cpp_type) (af : af_ctx_manager)
  (n : nat) : M pointer :=
  let* same := is_argument_of_type rev af T n in
  if negb same then throw bad_type_cast else
  guarded rev af (
    let* r := call_with rev af get_argument null_id (Some n) in
    bind_reference r.1).

Definition argument_cast_ptr (rev : revision) (T : cpp_type) (af : af_ctx_manager)
  (n : nat) : M (option pointer) :=
  let* same := is_argument_of_type rev af T n in
  if negb same then ret None else
  guarded rev af (
    let* r := call_with rev af get_argument null_id (Some n) in
    ret r.1).

(** [any_function::rethrow()]: no guard; dereferencing an empty optional
    is undefined. *)
Definition rethrow (rev : revision) (h : af_ctx_manager) : M unit :=
  run call_with rev h get_exception null_id None then
  let* eptr_ := read_exception h in
  match eptr_ with
  | Some ex => throw (rethrown ex)
  | None => undefined
  end.

(** [explicit any_function(const future<T>& fut)]. *)
Definition from_future (rev : revision) (fut : af_ctx_manager) : M af_ctx_manager :=
  copy_construct rev fut.

(** [get_future<T>()] of [with_references]: [return future<T>{*this}].
    (The one of [plain] returns [*this] through the explicit constructor
    and is not modelled.) *)
Definition get_future (T : cpp_type) (af : af_ctx_manager) : M af_ctx_manager :=
  future_construct with_references T af.

(** Destroying [n] handles that all equal [h], one after the other. *)
Fixpoint destroy_each (rev : revision) (h : af_ctx_manager) (n : nat) : M unit :=
  match n with
  | O => ret tt
  | S n' => run destroy rev h then destroy_each rev h n'
  end.

(** A callable was invoked [n] times according to the events. *)
Definition invocations (evs : list (nat * event)) : nat :=
  length (filter (fun e => is_invoke e.2 = true) evs).

End AnyFunction.

(* ===================================================================== *)
(** ** Properties of the compact integers                                 *)
(* ===================================================================== *)

Section CompactFacts.
Import Compact.

Lemma Z_of_byte_of_Z (z : Z) : Z_of_byte (byte_of_Z z) = z mod 256.
Proof.
  unfold Z_of_byte, byte_of_Z.
  assert (Hr : 0 <= z mod 256 < 256) by (apply Z.mod_pos_bound; lia).
  destruct (Byte.of_N (Z.to_N (z mod 256))) as [b|] eqn:E.
  - apply Byte.to_of_N in E. rewrite E. lia.
  - apply Byte.of_N_None_iff in E. lia.
Qed.

Lemma length_bytes_le (n : nat) (u : Z) : length (bytes_le n u) = n.
Proof. revert u. induction n as [|n IH]; intros u; simpl; [reflexivity|]. now rewrite IH. Qed.

Lemma unsigned_le_bytes_le (n : nat) (u : Z) :
  unsigned_le (bytes_le n u) = u mod 2 ^ (8 * Z.of_nat n).
Proof.
  revert u. induction n as [|n IH]; intros u.
  - simpl. now rewrite Z.mod_1_r.
  - cbn [bytes_le unsigned_le]. rewrite Z_of_byte_of_Z, IH.
    replace (8 * Z.of_nat (S n)) with (8 + 8 * Z.of_nat n) by lia.
    rewrite Z.pow_add_r by lia.
    change (2 ^ 8) with 256.
    rewrite Z.rem_mul_r by lia. reflexivity.
Qed.

(** Reading back what [memcpy] wrote gives the stored bit pattern. *)
Lemma load_store_pattern (bo : byteorder) (T : integral) (v : Z) (s : storage) :
  length (m_data s) = size_of T ->
  unsigned_le
    (match bo with
     | little_endian => m_data (storage_store bo T v s)
     | big_endian => rev (m_data (storage_store bo T v s))
     end) = v mod 2 ^ bits T.
Proof.
  intros Hlen. unfold storage_store, object_representation. cbn [m_data].
  rewrite Hlen.
  assert (Hmod : (v mod 2 ^ bits T) mod 2 ^ bits T = v mod 2 ^ bits T).
  { apply Z.mod_mod. unfold bits. lia. }
  destruct bo.
  - rewrite firstn_all2 by (rewrite length_bytes_le; lia).
    rewrite unsigned_le_bytes_le. exact Hmod.
  - rewrite firstn_all2 by (rewrite length_rev, length_bytes_le; lia).
    rewrite rev_involutive, unsigned_le_bytes_le. exact Hmod.
Qed.

Lemma storage_load_store (bo : byteorder) (T : integral) (v : Z) (s : storage) :
  (0 < size_of T)%nat ->
  in_range T v ->
  length (m_data s) = size_of T ->
  storage_load bo T (storage_store bo T v s) = v.
Proof.
  intros Hpos Hv Hlen. unfold storage_load, value_representation.
  rewrite load_store_pattern by assumption.
  assert (Hb : 8 <= bits T) by (unfold bits; lia).
  assert (Hp : 2 ^ bits T = 2 * 2 ^ (bits T - 1)).
  { rewrite <- Z.pow_succ_r by lia. f_equal. lia. }
  assert (Hh : 0 < 2 ^ (bits T - 1)) by (apply Z.pow_pos_nonneg; lia).
  unfold in_range in Hv. destruct (is_signed T); cbn [andb].
  - destruct (Z_lt_le_dec v 0) as [Hneg|Hnn].
    + assert (Hm : v mod 2 ^ bits T = v + 2 ^ bits T).
      { symmetry. apply (Z.mod_unique v (2 ^ bits T) (-1)); lia. }
      rewrite Hm.
      destruct (Z.leb_spec (2 ^ (bits T - 1)) (v + 2 ^ bits T)); lia.
    + rewrite Z.mod_small by lia.
      destruct (Z.leb_spec (2 ^ (bits T - 1)) v); lia.
  - apply Z.mod_small. lia.
Qed.

(** C7: every value [v] of an integral type [T] survives the packed
    representation: [compact_integer<T>(v).load() == v], [load()] after
    [store(v)] gives [v], and a default-constructed [compact_integer<T>]
    loads [T(0)]. *)
Theorem compact_integer_round_trip
  (bo : byteorder) (T : integral) (v : Z) (raw : compact_integer) :
  (0 < size_of T)%nat ->
  in_range T v ->
  has_size T raw ->
  load bo T (construct bo T v raw) = v
  /\ load bo T (store bo T v raw) = v
  /\ load bo T (default_construct bo T raw) = 0.
Proof.
  intros Hpos Hv Hsz. unfold construct, default_construct, load, store.
  cbn [m_storage]. repeat split.
  - now apply storage_load_store.
  - now apply storage_load_store.
  - apply storage_load_store; try assumption.
    unfold in_range.
    assert (Hb : 8 <= bits T) by (unfold bits; lia).
    assert (0 < 2 ^ (bits T - 1)) by (apply Z.pow_pos_nonneg; lia).
    assert (0 < 2 ^ bits T) by (apply Z.pow_pos_nonneg; lia).
    destruct (is_signed T); lia.
Qed.

(** The round trip at [int16_t], value [-2], big-endian target. *)
Lemma compact_integer_round_trip_witness :
  load big_endian {| size_of := 2; is_signed := true |}
    (construct big_endian {| size_of := 2; is_signed := true |} (-2)
       {| m_storage := {| m_data := [x00; x00] |} |}) = -2
  /\ load big_endian {| size_of := 2; is_signed := true |}
       (store big_endian {| size_of := 2; is_signed := true |} (-2)
          {| m_storage := {| m_data := [x00; x00] |} |}) = -2
  /\ load big_endian {| size_of := 2; is_signed := true |}
       (default_construct big_endian {| size_of := 2; is_signed := true |}
          {| m_storage := {| m_data := [x00; x00] |} |}) = 0.
Proof.
  apply (compact_integer_round_trip big_endian
           {| size_of := 2; is_signed := true |} (-2)
           {| m_storage := {| m_data := [x00; x00] |} |}).
  - cbn. lia.
  - unfold in_range, bits. cbn. lia.
  - reflexivity.
Defined.


End CompactFacts.

(* ===================================================================== *)
(** ** Properties of the deferred-call cell                               *)
(* ===================================================================== *)

Section AnyFunctionFacts.
Import AnyFunction.

(** *** Memory *)

Lemma put_put (l : nat) (c1 : option context) (c2 : context)
  (e1 e2 : list event) (σ : machine) :
  put l (Some c2) e2 (put l c1 e1 σ) = put l (Some c2) (e1 ++ e2) σ.
Proof.
  unfold put. cbn [heap next_free trace]. f_equal.
  - destruct c1; [apply insert_insert_eq | apply insert_delete_eq].
  - now rewrite map_app, app_assoc.
Qed.

Lemma put_same (l : nat) (c : context) (σ : machine) :
  heap σ !! l = Some c -> put l (Some c) [] σ = σ.
Proof.
  intros H. destruct σ as [hp nf tr]. unfold put. cbn in *.
  rewrite insert_id by exact H. now rewrite app_nil_r.
Qed.

Lemma heap_put (l : nat) (c : context) (e : list event) (σ : machine) :
  heap (put l (Some c) e σ) !! l = Some c.
Proof. unfold put. cbn [heap]. apply lookup_insert_eq. Qed.

Lemma storage_at_put (l : nat) (c : context) (e : list event) (σ : machine) :
  storage_at l (put l (Some c) e σ) = Some (ctx_base c).
Proof. unfold storage_at. now rewrite heap_put. Qed.

Lemma storage_at_emit (l l' : nat) (e : list event) (σ : machine) :
  storage_at l (emit l' e σ) = storage_at l σ.
Proof. reflexivity. Qed.

Lemma points_to_put σ h mg l c c' e :
  points_to σ h mg l c ->
  context_type (own c') = context_type (own c) ->
  points_to (put l (Some c') e σ) h mg l c'.
Proof.
  intros (Hm & Hc & Hl & Ht) Hty. repeat split; try assumption.
  - apply heap_put.
  - congruence.
Qed.

(** *** The locks *)

Lemma context_type_taken c : context_type (own (taken c)) = context_type (own c).
Proof. unfold taken. destruct (own c) eqn:E; cbn; rewrite ?E; reflexivity. Qed.

Lemma ctx_base_taken c : ctx_base (taken c) = ctx_base c.
Proof. unfold taken. destruct (own c); reflexivity. Qed.

Lemma taken_with_base s c : taken (with_base s c) = with_base s (taken c).
Proof. unfold taken. cbn. destruct (own c); reflexivity. Qed.

Lemma with_base_same c : with_base (ctx_base c) c = c.
Proof. now destruct c. Qed.

Lemma lock_free c : held c = false -> lock c = Some (taken c).
Proof.
  unfold held, lock, taken. destruct (own c) as [| |flag|w]; intros H;
    try reflexivity; now rewrite H.
Qed.

Lemma unlock_taken s c :
  held c = false -> unlock (with_base s (taken c)) = Some (with_base s c).
Proof.
  unfold held, unlock, taken. destruct c as [n b o].
  destruct o as [| |flag|[mu]]; cbn; intros H; subst; reflexivity.
Qed.

Lemma events_taken c :
  lock_waitable (own (taken c)) = lock_waitable (own c)
  /\ unlock_waitable (own (taken c)) = unlock_waitable (own c)
  /\ notify (own (taken c)) = notify (own c).
Proof. unfold taken. destruct (own c) eqn:E; cbn; rewrite ?E; auto. Qed.

(** *** Manager calls through a handle *)

Lemma cast_ok (mg : manager) (c : context) :
  context_type (own c) = mg_context mg ->
  bool_decide (context_type (own c) = mg_context mg) = true.
Proof. intros H. now apply bool_decide_eq_true. Qed.

Lemma call_with_at rev h mg l c σ a id arg :
  points_to σ h mg l c ->
  call_with rev h a id arg σ =
  match core_manager rev mg a c id arg with
  | Replied r => Ok (r_pointer r, r_out r) (put l (r_context r) (r_events r) σ)
  | Terminates => Terminated
  | Never_returns => Blocked
  | Undefined => Undefined_behaviour
  end.
Proof. intros (Hm & Hc & Hl & _). unfold call_with. now rewrite Hm, Hc, Hl. Qed.

Lemma core_lock_call rev mg c id arg :
  context_type (own c) = mg_context mg -> held c = false ->
  core_manager rev mg lock_call c id arg = answer (Some to_context) (taken c).
Proof.
  intros Ht Hf. unfold core_manager.
  rewrite (cast_ok mg c Ht). cbn.
  now rewrite lock_free.
Qed.

Lemma core_unlock_call rev mg s c id arg :
  context_type (own c) = mg_context mg -> held c = false ->
  core_manager rev mg unlock_call (with_base s (taken c)) id arg
  = answer (Some to_context) (with_base s c).
Proof.
  intros Ht Hf. unfold core_manager.
  cbn [own with_base]. rewrite context_type_taken, (cast_ok mg c Ht).
  cbn. now rewrite unlock_taken.
Qed.

(** [call_guard] around a body: the lock is taken, the body runs, the lock
    is given back. *)
Lemma guarded_at {A} rev h mg l c σ (body : M A) :
  points_to σ h mg l c -> held c = false ->
  guarded rev h body σ =
  at_scope_exit body
    (run call_with rev h unlock_call null_id None then ret tt)
    (put l (Some (taken c)) [] σ).
Proof.
  intros Hp Hf. unfold guarded, ask, bind.
  rewrite (call_with_at _ _ _ _ _ _ _ _ _ Hp).
  rewrite core_lock_call by (try apply Hp; assumption).
  reflexivity.
Qed.

(** *** The [call] action *)

Lemma has_values_impl_spec (t : list (option value)) (indices : list nat) (b : bool) :
  fold_left (fun result_ i => result_ && has_value_ (nth i t None)) indices b
  = b && forallb (fun i => has_value_ (nth i t None)) indices.
Proof.
  revert b. induction indices as [|i rest IH]; intros b; cbn.
  - now rewrite andb_true_r.
  - rewrite IH. now rewrite andb_assoc.
Qed.

Lemma forallb_indices (t : list (option value)) (start : nat) (pre : list (option value)) :
  length pre = start ->
  forallb (fun i => has_value_ (nth i (pre ++ t) None)) (seq start (length t))
  = forallb has_value_ t.
Proof.
  revert start pre. induction t as [|o t IH]; intros start pre Hlen; cbn; [reflexivity|].
  rewrite app_nth2 by lia. rewrite Hlen, Nat.sub_diag. cbn. f_equal.
  specialize (IH (S start) (pre ++ [o])).
  rewrite <- app_assoc in IH. cbn in IH. apply IH.
  rewrite length_app. cbn. lia.
Qed.

Lemma has_values_forallb (t : list (option value)) :
  has_values t = forallb has_value_ t.
Proof.
  unfold has_values, has_values_impl. rewrite has_values_impl_spec. cbn.
  exact (forallb_indices t 0 [] eq_refl).
Qed.

Lemma has_values_assigned (vs : list value) : has_values (map Some vs) = true.
Proof.
  rewrite has_values_forallb. induction vs as [|v vs IH]; cbn; [reflexivity | exact IH].
Qed.

Lemma core_call rev mg c id arg :
  context_type (own c) = mg_context mg ->
  core_manager rev mg call c id arg = call_case (mg_result mg) rev c.
Proof. intros Ht. unfold core_manager. now rewrite (cast_ok mg c Ht). Qed.

Lemma call_case_missing R rev c :
  has_values (m_arguments (ctx_base c)) = false ->
  m_exception (ctx_base c) = None ->
  call_case R rev c
  = answer None (with_base (with_exception (Some missing_argument) (ctx_base c)) c).
Proof.
  intros Hv He. unfold call_case, store_exception. now rewrite Hv, He.
Qed.

Lemma call_case_missing_again R rev c e :
  has_values (m_arguments (ctx_base c)) = false ->
  m_exception (ctx_base c) = Some e ->
  call_case R rev c = Terminates.
Proof.
  intros Hv He. unfold call_case, store_exception. now rewrite Hv, He.
Qed.

Lemma call_case_completed R rev c :
  has_values (m_arguments (ctx_base c)) = true ->
  has_anything_ (ctx_base c) = true ->
  call_case R rev c
  = Replied {| r_pointer := Some to_context; r_context := Some c;
               r_out := None; r_events := notifier_events (own c) |}.
Proof.
  intros Hv Ha. unfold call_case. now rewrite Hv, Ha.
Qed.

Lemma notifier_events_no_invoke m :
  Forall (fun e => is_invoke e = false) (notifier_events m).
Proof. destruct m; cbn; repeat constructor. Qed.

(** C8 (as amended): once the context holds a result or an exception, a
    [call] action whose argument slots are all populated returns the
    context pointer without invoking the callable and leaves every slot as
    it was; and whatever the slots, a [call] action that returns then has
    not invoked the callable, has kept the result slot, and has kept a
    stored exception. *)
Theorem call_after_completion
  (rev : revision) (mg : manager) (c : context) (id : type_id_t) (arg : option nat) :
  context_type (own c) = mg_context mg ->
  has_anything_ (ctx_base c) = true ->
  (has_values (m_arguments (ctx_base c)) = true ->
   core_manager rev mg call c id arg
   = Replied {| r_pointer := Some to_context; r_context := Some c;
                r_out := None; r_events := notifier_events (own c) |})
  /\ (forall r, core_manager rev mg call c id arg = Replied r ->
        Forall (fun e => is_invoke e = false) (r_events r)
        /\ exists c', r_context r = Some c'
             /\ m_result (ctx_base c') = m_result (ctx_base c)
             /\ m_callable (ctx_base c') = m_callable (ctx_base c)
             /\ m_arguments (ctx_base c') = m_arguments (ctx_base c)
             /\ (forall e, m_exception (ctx_base c) = Some e ->
                           m_exception (ctx_base c') = Some e)).
Proof.
  intros Ht Ha. rewrite core_call by assumption. split.
  - intros Hv. now apply call_case_completed.
  - intros r Hr.
    destruct (has_values (m_arguments (ctx_base c))) eqn:Hv.
    + rewrite call_case_completed in Hr by assumption.
      injection Hr as <-. cbn. split; [apply notifier_events_no_invoke|].
      exists c. repeat split; auto.
    + destruct (m_exception (ctx_base c)) as [e|] eqn:He.
      * rewrite (call_case_missing_again _ _ _ e) in Hr by assumption. discriminate.
      * rewrite call_case_missing in Hr by assumption.
        injection Hr as <-. cbn. split; [constructor|].
        eexists. split; [reflexivity|]. cbn. repeat split; auto.
        intros e; discriminate.
Qed.

Lemma call_after_completion_witness :
  core_manager plain (successor_manager spinlock_tag) call
    (successor_context spinlock_tag 1 (Some 5) (Some 6) None) null_id None
  = Replied {| r_pointer := Some to_context;
               r_context := Some (successor_context spinlock_tag 1 (Some 5) (Some 6) None);
               r_out := None;
               r_events := [ev_lock_global; ev_unlock_global; ev_notify_global] |}.
Proof.
  exact (proj1 (call_after_completion plain (successor_manager spinlock_tag)
                  (successor_context spinlock_tag 1 (Some 5) (Some 6) None)
                  null_id None eq_refl eq_refl) eq_refl).
Defined.

(** C8, as stated, fails: with a result stored and an argument slot empty
    the [call] action fills the exception slot; and with the exception of
    a first call without arguments stored, a second such call does not
    return at all. *)
Lemma completion_is_not_write_once :
  has_anything_ (ctx_base (successor_context unsafe_tag 1 None (Some 7) None)) = true
  /\ (exists c',
        core_manager plain (successor_manager unsafe_tag) call
          (successor_context unsafe_tag 1 None (Some 7) None) null_id None
        = answer None c'
        /\ m_exception (ctx_base (successor_context unsafe_tag 1 None (Some 7) None)) = None
        /\ m_exception (ctx_base c') = Some missing_argument)
  /\ core_manager plain (successor_manager unsafe_tag) call
       (successor_context unsafe_tag 1 None None None) null_id None
     = answer None (successor_context unsafe_tag 1 None None (Some missing_argument))
  /\ has_anything_
       (ctx_base (successor_context unsafe_tag 1 None None (Some missing_argument)))
     = true
  /\ core_manager plain (successor_manager unsafe_tag) call
       (successor_context unsafe_tag 1 None None (Some missing_argument))
       null_id None
     = Terminates.
Proof.
  split; [reflexivity|]. split; [|repeat split].
  eexists. split; [reflexivity|]. split; reflexivity.
Qed.

(** C10: a [call] action that finds an argument slot empty does not invoke
    the callable; it stores [missing_argument] in the exception slot, which
    was empty, and answers [nullptr], so that the call operation returns
    [call_result::exception]. *)
Theorem call_with_missing_argument
  (rev : revision) (σ : machine) (h : af_ctx_manager) (mg : manager)
  (l : nat) (c : context) :
  points_to σ h mg l c ->
  held c = false ->
  has_values (m_arguments (ctx_base c)) = false ->
  m_exception (ctx_base c) = None ->
  core_manager rev mg call c null_id None
  = answer None (with_base (with_exception (Some missing_argument) (ctx_base c)) c)
  /\ call_stored rev h σ
     = Ok exception
         (put l (Some (with_base (with_exception (Some missing_argument) (ctx_base c)) c))
            [] σ).
Proof.
  intros Hp Hf Hv He. pose proof Hp as (_ & _ & _ & Ht). split.
  - rewrite core_call by assumption. now apply call_case_missing.
  - unfold call_stored. rewrite (guarded_at _ _ _ _ _ _ _ Hp Hf).
    assert (Hp1 : points_to (put l (Some (taken c)) [] σ) h mg l (taken c)).
    { apply (points_to_put _ _ _ _ _ _ _ Hp). apply context_type_taken. }
    unfold at_scope_exit, ask, bind.
    rewrite (call_with_at _ _ _ _ _ _ _ _ _ Hp1).
    rewrite core_call by (now rewrite context_type_taken).
    rewrite call_case_missing by (now rewrite ctx_base_taken).
    cbn [answer r_pointer r_out r_context r_events ret fst has_value_].
    rewrite ctx_base_taken, put_put.
    match goal with
    | |- context [call_with _ _ unlock_call _ _ (put l (Some ?c1) ?e σ)] =>
        assert (Hp2 : points_to (put l (Some c1) e σ) h mg l c1)
    end.
    { apply (points_to_put _ _ _ _ _ _ _ Hp). cbn. apply context_type_taken. }
    rewrite (call_with_at _ _ _ _ _ _ _ _ _ Hp2).
    rewrite core_unlock_call by assumption.
    cbn [answer r_pointer r_out r_context r_events ret].
    now rewrite put_put.
Qed.

Lemma call_with_missing_argument_witness :
  call_stored with_references (handle_to 0 (successor_manager waitable_tag))
    (one_cell (successor_context waitable_tag 1 None None None))
  = Ok exception
      (put 0 (Some (successor_context waitable_tag 1 None None (Some missing_argument)))
         [] (one_cell (successor_context waitable_tag 1 None None None))).
Proof.
  refine (proj2 (call_with_missing_argument with_references
                   (one_cell (successor_context waitable_tag 1 None None None))
                   (handle_to 0 (successor_manager waitable_tag))
                   (successor_manager waitable_tag) 0
                   (successor_context waitable_tag 1 None None None)
                   _ eq_refl eq_refl eq_refl)).
  repeat split.
Defined.

(** *** The call operator with arguments *)

Lemma core_get_argument_storage rev mg c id arg :
  context_type (own c) = mg_context mg ->
  core_manager rev mg get_argument_storage c id arg
  = answer (if bool_decide
                 (type_id (optional_tuple (map (function_argument rev) (mg_args mg))) = id)
            then Some to_arguments else None) c.
Proof. intros Ht. unfold core_manager. now rewrite (cast_ok mg c Ht). Qed.

Lemma assign_arguments_at rev σ h mg l c args :
  points_to σ h mg l c ->
  assign_arguments rev h args σ
  = Ok tt (put l (Some (with_base (with_arguments (map Some (map snd args)) (ctx_base c)) c))
             (map ev_bind_temporary (bound_to_temporary rev args)) σ).
Proof. intros (_ & Hc & Hl & _). unfold assign_arguments. now rewrite Hc, Hl. Qed.

(** A [call] action on a cell whose arguments have just been assigned
    replies, and no exception is stored twice. *)
Lemma call_case_assigned R rev c f vs :
  m_callable (ctx_base c) = Some f ->
  m_arguments (ctx_base c) = map Some vs ->
  exists r c', call_case R rev c = Replied r /\ r_context r = Some c'
               /\ own c' = own c /\ m_counter c' = m_counter c.
Proof.
  intros Hf Hargs. unfold call_case. rewrite Hargs, has_values_assigned. cbn [negb].
  destruct (has_anything_ (ctx_base c)) eqn:Ha.
  - eexists _, c. repeat split.
  - rewrite Hf. destruct (f _) as [v|e].
    + eexists _, _. repeat split.
    + unfold store_exception.
      unfold has_anything_ in Ha. apply orb_false_elim in Ha as [_ He].
      destruct (m_exception (ctx_base c)); [discriminate|].
      eexists _, _. repeat split.
Qed.

Lemma map_as_is_inj (l1 l2 : list cpp_type) :
  map as_is l1 = map as_is l2 -> l1 = l2.
Proof.
  revert l2. induction l1 as [|t l1 IH]; intros [|t' l2] H; cbn in H;
    try discriminate; [reflexivity|].
  injection H as -> H. f_equal. now apply IH.
Qed.

(** *** Constructing a future *)

Lemma handle_eta (h : af_ctx_manager) :
  {| m_context := m_context h; m_manager := m_manager h |} = h.
Proof. now destruct h. Qed.

Lemma equal_refl (h : af_ctx_manager) : equal h h = true.
Proof. unfold equal. now rewrite !bool_decide_eq_true_2. Qed.

Lemma points_to_bool σ h mg l c : points_to σ h mg l c -> to_bool h = true.
Proof. intros (Hm & Hc & _). unfold to_bool. now rewrite Hm, Hc. Qed.

Lemma core_up_ref_counter rev mg c id arg :
  context_type (own c) = mg_context mg ->
  core_manager rev mg up_ref_counter c id arg = answer (Some to_context) (acquire c).
Proof. intros Ht. unfold core_manager. now rewrite (cast_ok mg c Ht). Qed.

Lemma core_check_result_type rev mg c T arg :
  context_type (own c) = mg_context mg ->
  core_manager rev mg check_result_type c
    (type_id (of_type (function_result rev T))) arg
  = answer_if (bool_decide (function_result rev (mg_result mg) = function_result rev T)) c.
Proof.
  intros Ht. unfold core_manager. rewrite (cast_ok mg c Ht). cbn.
  f_equal. apply bool_decide_ext. unfold type_id. split; [now intros [= ->] | now intros ->].
Qed.

Lemma copy_construct_at rev σ h mg l c :
  points_to σ h mg l c ->
  copy_construct rev h σ = Ok h (put l (Some (acquire c)) [] σ).
Proof.
  intros Hp. unfold copy_construct. rewrite (points_to_bool _ _ _ _ _ Hp), handle_eta.
  unfold bind. rewrite (call_with_at _ _ _ _ _ _ _ _ _ Hp).
  rewrite core_up_ref_counter by apply Hp. reflexivity.
Qed.

(** C2 (as amended): constructing [future<T>] from an empty handle returns
    an empty future; from a handle to a live context it throws
    [bad_type_cast] exactly when the storage type [function_result<T>]
    differs from that of the callable's result type, which in the revision
    without that trait means when the result type is not [T]; and when it
    does not throw, the future holds the same context and manager (it
    compares equal to the handle) and the count has gone up by one. *)
Theorem future_construct_checks_result
  (rev : revision) (T : cpp_type) (σ : machine) (h : af_ctx_manager) :
  (to_bool h = false -> future_construct rev T h σ = Ok h σ)
  /\ (forall mg l c, points_to σ h mg l c ->
        (throws_bad_type_cast (future_construct rev T h σ) <->
         function_result rev T <> function_result rev (mg_result mg))
        /\ (rev = plain ->
            (throws_bad_type_cast (future_construct rev T h σ) <-> mg_result mg <> T))
        /\ (function_result rev T = function_result rev (mg_result mg) ->
            exists fut, future_construct rev T h σ
                        = Ok fut (put l (Some (acquire c)) [] σ)
                        /\ equal fut h = true)).
Proof.
  split.
  - intros Hb. unfold future_construct, copy_construct. rewrite Hb, handle_eta.
    reflexivity.
  - intros mg l c Hp.
    assert (Hrun : future_construct rev T h σ =
      if bool_decide (function_result rev (mg_result mg) = function_result rev T)
      then Ok h (put l (Some (acquire c)) [] σ)
      else Thrown bad_type_cast
             (put l (release (acquire c)).1 (release (acquire c)).2
                (put l (Some (acquire c)) [] σ))).
    { unfold future_construct. unfold bind at 1.
      rewrite (copy_construct_at _ _ _ _ _ _ Hp), (points_to_bool _ _ _ _ _ Hp).
      assert (Hp1 : points_to (put l (Some (acquire c)) [] σ) h mg l (acquire c)).
      { apply (points_to_put _ _ _ _ _ _ _ Hp). reflexivity. }
      unfold is_result_of_type, ask. unfold bind at 1. unfold bind at 1.
      rewrite (call_with_at _ _ _ _ _ _ _ _ _ Hp1).
      rewrite core_check_result_type by apply Hp.
      unfold answer_if, answer. cbn [r_pointer r_out r_context r_events ret fst].
      rewrite put_put. cbn [app].
      case_bool_decide as Hsame; cbn [has_value_]; [reflexivity|].
      unfold bind, destroy.
      rewrite (points_to_bool _ _ _ _ _ Hp). unfold bind.
      rewrite (call_with_at _ _ _ _ _ _ _ _ _ Hp1).
      unfold core_manager. rewrite (cast_ok mg (acquire c)) by apply Hp.
      destruct (release (acquire c)) as [c' evs]. reflexivity. }
    assert (Hmain :
      (function_result rev T = function_result rev (mg_result mg) ->
       future_construct rev T h σ = Ok h (put l (Some (acquire c)) [] σ))
      /\ (function_result rev T <> function_result rev (mg_result mg) ->
          throws_bad_type_cast (future_construct rev T h σ))).
    { rewrite Hrun. case_bool_decide as Hsame.
      - split; [reflexivity | intros Hne; now destruct Hne].
      - split; [intros Heq; now destruct Hsame|]. intros _.
        unfold throws_bad_type_cast. eauto. }
    destruct Hmain as [Hsame Hdiff].
    assert (Hiff : throws_bad_type_cast (future_construct rev T h σ) <->
                   function_result rev T <> function_result rev (mg_result mg)).
    { split; [|exact Hdiff]. intros [σ' Hthrow] Heq.
      rewrite (Hsame Heq) in Hthrow. discriminate. }
    split; [exact Hiff|]. split.
    + intros ->. rewrite Hiff. cbn. split; intros Hne Heq; apply Hne; congruence.
    + intros Heq. exists h. split; [now apply Hsame | apply equal_refl].
Qed.

Lemma future_construct_checks_result_witness :
  future_construct plain int_ empty (one_cell (successor_context unsafe_tag 1 None None None))
  = Ok empty (one_cell (successor_context unsafe_tag 1 None None None))
  /\ (throws_bad_type_cast
        (future_construct plain const_int (handle_to 0 (successor_manager unsafe_tag))
           (one_cell (successor_context unsafe_tag 1 None None None)))
      <-> function_result plain const_int
          <> function_result plain (mg_result (successor_manager unsafe_tag))).
Proof.
  split.
  - exact (proj1 (future_construct_checks_result plain int_
                    (one_cell (successor_context unsafe_tag 1 None None None)) empty)
                 eq_refl).
  - refine (proj1 (proj2 (future_construct_checks_result plain const_int
                    (one_cell (successor_context unsafe_tag 1 None None None))
                    (handle_to 0 (successor_manager unsafe_tag)))
                  (successor_manager unsafe_tag) 0%nat
                  (successor_context unsafe_tag 1 None None None) _)).
    repeat split.
Defined.

(** C2, as stated, fails in the revision with [function_result]: the
    callable returns [int], [future<const int>] names another type, and
    the constructor does not throw. *)
Lemma future_of_const_result_is_accepted :
  mg_result (successor_manager unsafe_tag) <> const_int
  /\ future_construct with_references const_int
       (handle_to 0 (successor_manager unsafe_tag))
       (one_cell (successor_context unsafe_tag 1 None None None))
     = Ok (handle_to 0 (successor_manager unsafe_tag))
          (one_cell (successor_context unsafe_tag 2 None None None)).
Proof. split; [discriminate | reflexivity]. Qed.

(** *** The four contexts *)

Lemma context_type_trait (t : tag) : context_type (context_trait t) = t.
Proof. now destruct t. Qed.

(** The lock actions do not tell [unsafe_ctx] from [shared_ctx]: both
    answer the context pointer and change nothing. *)
Lemma unsafe_and_shared_lock_alike rev mg c id arg a :
  context_type (own c) = mg_context mg ->
  mg_context mg = unsafe_tag \/ mg_context mg = shared_tag ->
  a = lock_call \/ a = try_lock_call \/ a = unlock_call ->
  core_manager rev mg a c id arg = answer (Some to_context) c.
Proof.
  intros Ht Hpol Ha. unfold core_manager. rewrite (cast_ok mg c Ht). cbn.
  unfold lock, try_lock, unlock.
  destruct (own c) eqn:E; cbn in Ht;
    try (destruct Hpol as [Hpol|Hpol]; rewrite Hpol in Ht; discriminate Ht);
    destruct Ha as [->|[->| ->]]; reflexivity.
Qed.

(** C4: each of the four tags selects its own context type; the three
    actions [lock_call], [try_lock_call], [unlock_call] do nothing and
    always succeed on an [unsafe_ctx] or [shared_ctx], test-and-set and
    clear the flag of a [spinlock_ctx], and lock, try and unlock the mutex
    of a [waitable_ctx]; and any two of the four managers can be told apart
    by what they answer and which events they cause. *)
Theorem four_policies_one_interface (rev : revision) :
  (forall (Tag : tag) (f : callable) (R : cpp_type) (Args : list cpp_type) (σ : machine),
      exists h σ' mg c,
        construct Tag f R Args σ = Ok h σ'
        /\ points_to σ' h mg (next_free σ) c
        /\ mg_context mg = Tag /\ own c = context_trait Tag /\ held c = false)
  /\ (forall t : tag, context_type (context_trait t) = t)
  /\ (forall (mg : manager) (c : context) (id : type_id_t) (arg : option nat),
        context_type (own c) = mg_context mg ->
        match own c with
        | unsafe_ctx | shared_ctx =>
            core_manager rev mg lock_call c id arg = answer (Some to_context) c
            /\ core_manager rev mg try_lock_call c id arg = answer (Some to_context) c
            /\ core_manager rev mg unlock_call c id arg = answer (Some to_context) c
        | spinlock_ctx flag =>
            core_manager rev mg lock_call c id arg
            = (if flag then Never_returns
               else answer (Some to_context) (with_own (spinlock_ctx true) c))
            /\ core_manager rev mg try_lock_call c id arg
               = answer (if flag then None else Some to_context)
                   (with_own (spinlock_ctx true) c)
            /\ core_manager rev mg unlock_call c id arg
               = answer (Some to_context) (with_own (spinlock_ctx false) c)
        | waitable_ctx w =>
            core_manager rev mg lock_call c id arg
            = (if m_mu w then Never_returns
               else answer (Some to_context) (with_own (waitable_ctx {| m_mu := true |}) c))
            /\ core_manager rev mg try_lock_call c id arg
               = (if m_mu w then answer None c
                  else answer (Some to_context)
                         (with_own (waitable_ctx {| m_mu := true |}) c))
            /\ core_manager rev mg unlock_call c id arg
               = (if m_mu w
                  then answer (Some to_context)
                         (with_own (waitable_ctx {| m_mu := false |}) c)
                  else Undefined)
        end)
  /\ (forall t1 t2 : tag, t1 <> t2 ->
        exists actions,
          behaviour rev (successor_manager t1) actions
            (successor_context t1 1 (Some 5) None None)
          <> behaviour rev (successor_manager t2) actions
               (successor_context t2 1 (Some 5) None None)).
Proof.
  repeat split.
  - intros Tag f R Args σ. unfold construct.
    eexists _, _, {| mg_context := Tag; mg_result := R; mg_args := Args |}, _.
    split; [reflexivity|]. split.
    + repeat split; cbn; [apply lookup_insert_eq | apply context_type_trait].
    + cbn. repeat split. now destruct Tag.
  - apply context_type_trait.
  - intros mg c id arg Ht. unfold core_manager. rewrite (cast_ok mg c Ht). cbn.
    unfold lock, try_lock, unlock.
    destruct (own c) as [| |flag|w]; cbn; repeat split;
      try (destruct flag; reflexivity); destruct (m_mu w); reflexivity.
  - intros t1 t2 Hne.
    exists [try_lock_call; try_lock_call; get_waitable; call].
    destruct rev, t1, t2; try (now destruct Hne); vm_compute; discriminate.
Qed.

Lemma four_policies_one_interface_witness :
  (core_manager plain (successor_manager spinlock_tag) lock_call
     (successor_context spinlock_tag 1 None None None) null_id None
   = answer (Some to_context)
       (with_own (spinlock_ctx true) (successor_context spinlock_tag 1 None None None))
   /\ core_manager plain (successor_manager spinlock_tag) try_lock_call
        (successor_context spinlock_tag 1 None None None) null_id None
      = answer (Some to_context)
          (with_own (spinlock_ctx true) (successor_context spinlock_tag 1 None None None))
   /\ core_manager plain (successor_manager spinlock_tag) unlock_call
        (successor_context spinlock_tag 1 None None None) null_id None
      = answer (Some to_context)
          (with_own (spinlock_ctx false) (successor_context spinlock_tag 1 None None None)))
  /\ exists actions,
       behaviour plain (successor_manager unsafe_tag) actions
         (successor_context unsafe_tag 1 (Some 5) None None)
       <> behaviour plain (successor_manager shared_tag) actions
            (successor_context shared_tag 1 (Some 5) None None).
Proof.
  split.
  - exact (proj1 (proj2 (proj2 (four_policies_one_interface plain)))
             (successor_manager spinlock_tag)
             (successor_context spinlock_tag 1 None None None) null_id None eq_refl).
  - refine (proj2 (proj2 (proj2 (four_policies_one_interface plain)))
              unsafe_tag shared_tag _).
    discriminate.
Defined.

(** *** Counting the handles *)

Lemma core_down_ref_counter rev mg c id arg :
  context_type (own c) = mg_context mg ->
  core_manager rev mg down_ref_counter c id arg
  = Replied {| r_pointer := Some to_context; r_context := (release c).1;
               r_out := None; r_events := (release c).2 |}.
Proof.
  intros Ht. unfold core_manager. rewrite (cast_ok mg c Ht). cbn.
  now destruct (release c).
Qed.

(** Destroying a handle releases the context once. *)
Lemma destroy_at rev σ h mg l c :
  points_to σ h mg l c ->
  destroy rev h σ = Ok tt (put l (release c).1 (release c).2 σ).
Proof.
  intros Hp. unfold destroy. rewrite (points_to_bool _ _ _ _ _ Hp). unfold bind.
  rewrite (call_with_at _ _ _ _ _ _ _ _ _ Hp).
  now rewrite core_down_ref_counter by apply Hp.
Qed.

(** The last release destroys and deallocates, once each. *)
Lemma release_last c :
  m_counter c = 1 -> release c = (None, [ev_destroy; ev_deallocate]).
Proof. intros H. unfold release. now rewrite H. Qed.

(** Moving a handle leaves the memory alone. *)
Lemma move_construct_keeps (h : af_ctx_manager) (σ : machine) :
  move_construct h σ = Ok (h, empty) σ.
Proof. reflexivity. Qed.

(** C5 fails on copy assignment: a context at [0] with two handles, a
    context at [1] with one; assigning the handle of [1] to one of the
    handles of [0] takes two counts from [0], so that context is destroyed
    and deallocated although a handle still refers to it, and the next use
    of that handle is undefined. *)
Theorem copy_assign_releases_twice (rev : revision) :
  exists σ',
    copy_assign rev false (handle_to 0 (successor_manager unsafe_tag))
      (handle_to 1 (successor_manager unsafe_tag)) two_cells
    = Ok (handle_to 1 (successor_manager unsafe_tag)) σ'
    /\ (m_counter <$> heap two_cells !! 0%nat) = Some 2
    /\ heap σ' !! 0%nat = None
    /\ (m_counter <$> heap σ' !! 1%nat) = Some 2
    /\ trace σ' = [(0%nat, ev_destroy); (0%nat, ev_deallocate)]
    /\ destroy rev (handle_to 0 (successor_manager unsafe_tag)) σ'
       = Undefined_behaviour.
Proof.
  destruct rev; eexists; (split; [vm_compute; reflexivity|]); repeat split.
Qed.

(** *** Partial-correctness rules *)

Lemma triple_ret {A} (P : machine -> Prop) (a : A) Q R :
  (forall σ, P σ -> Q a σ) -> triple P (ret a) Q R.
Proof. intros H σ HP. now apply H. Qed.

Lemma triple_bind {A B} P (m : M A) (k : A -> M B) Q' Q R :
  triple P m Q' R -> (forall a, triple (Q' a) (k a) Q R) ->
  triple P (bind m k) Q R.
Proof.
  intros Hm Hk σ HP. unfold bind. specialize (Hm σ HP).
  destruct (m σ) as [a σ'|e σ'| | |]; try exact I; [|exact Hm].
  exact (Hk a σ' Hm).
Qed.

Lemma triple_at_scope_exit {A} P (body : M A) (after : M unit) Q' R' Q R :
  triple P body Q' R' ->
  (forall a, triple (Q' a) after (fun _ => Q a) R) ->
  triple R' after (fun _ => R) R ->
  triple P (at_scope_exit body after) Q R.
Proof.
  intros Hb Hq Hr σ HP. unfold at_scope_exit. specialize (Hb σ HP).
  destruct (body σ) as [a σ'|e σ'| | |]; try exact I.
  - specialize (Hq a σ' Hb). unfold bind.
    destruct (after σ') as [u σ''|e σ''| | |]; try exact I; exact Hq.
  - specialize (Hr σ' Hb). unfold bind.
    destruct (after σ') as [u σ''|e' σ''| | |]; try exact I; exact Hr.
Qed.

Lemma triple_weaken {A} (P P' : machine -> Prop) (m : M A)
  (Q Q' : A -> machine -> Prop) (R R' : machine -> Prop) :
  triple P' m Q' R' ->
  (forall σ, P σ -> P' σ) -> (forall a σ, Q' a σ -> Q a σ) ->
  (forall σ, R' σ -> R σ) ->
  triple P m Q R.
Proof.
  intros H HP HQ HR σ Hσ. specialize (H σ (HP σ Hσ)).
  destruct (m σ); auto.
Qed.

Lemma triple_false {A} (m : M A) Q R : triple (fun _ => False) m Q R.
Proof. intros σ []. Qed.

(** *** Actions that only look *)

Lemma lock_keeps_storage c c' : lock c = Some c' -> ctx_base c' = ctx_base c.
Proof.
  unfold lock. destruct (own c) as [| |flag|w].
  - now intros [= <-].
  - now intros [= <-].
  - destruct flag; [discriminate | now intros [= <-]].
  - destruct (m_mu w); [discriminate | now intros [= <-]].
Qed.

Lemma try_lock_keeps_storage c : ctx_base (try_lock c).2 = ctx_base c.
Proof.
  unfold try_lock. destruct (own c) as [| |flag|w]; try reflexivity.
  now destruct (m_mu w).
Qed.

Lemma unlock_keeps_storage c c' : unlock c = Some c' -> ctx_base c' = ctx_base c.
Proof.
  unfold unlock. destruct (own c) as [| |flag|w].
  - now intros [= <-].
  - now intros [= <-].
  - now intros [= <-].
  - destruct (m_mu w); [now intros [= <-] | discriminate].
Qed.

(** Every action but [call] and [down_ref_counter] leaves the context in
    place with its storage as it was. *)
Lemma reply_keeps_storage rev mg a c id arg r :
  a <> call -> a <> down_ref_counter ->
  core_manager rev mg a c id arg = Replied r ->
  exists c', r_context r = Some c' /\ ctx_base c' = ctx_base c.
Proof.
  intros Hcall Hdown. unfold core_manager.
  destruct (bool_decide _); cbn [negb]; [|discriminate].
  destruct a; try contradiction; unfold answer_if, answer.
  - intros [= <-]. cbn. eauto.
  - destruct (lock c) as [c'|] eqn:E; [|discriminate].
    intros [= <-]. cbn. eauto using lock_keeps_storage.
  - pose proof (try_lock_keeps_storage c) as E.
    destruct (try_lock c) as [ok c']. intros [= <-]. cbn. eauto.
  - destruct (unlock c) as [c'|] eqn:E; [|discriminate].
    intros [= <-]. cbn. eauto using unlock_keeps_storage.
  - intros [= <-]. cbn. eauto.
  - destruct rev; intros [= <-]; cbn; eauto.
  - intros [= <-]. cbn. eauto.
  - intros [= <-]. cbn. eauto.
  - destruct arg; [|discriminate]. intros [= <-]. cbn. eauto.
  - intros [= <-]. cbn. eauto.
  - destruct arg; [|discriminate]. intros [= <-]. cbn. eauto.
  - intros [= <-]. cbn. eauto.
  - destruct arg; [|discriminate]. intros [= <-]. cbn. eauto.
  - intros [= <-]. cbn. eauto.
  - intros [= <-]. cbn. eauto.
  - destruct arg; [|discriminate]. intros [= <-]. cbn. eauto.
  - destruct rev; intros [= <-]; cbn; eauto.
Qed.

Lemma reports_has_result rev :
  reports rev has_result (fun s => has_value_ (m_result s)).
Proof.
  intros mg c r. unfold core_manager. destruct (bool_decide _); [|discriminate]. cbn.
  unfold answer_if, answer. intros [= <-]. cbn.
  now destruct (has_value_ (m_result (ctx_base c))).
Qed.

Lemma reports_has_exception rev :
  reports rev has_exception (fun s => has_value_ (m_exception s)).
Proof.
  intros mg c r. unfold core_manager. destruct (bool_decide _); [|discriminate]. cbn.
  unfold answer_if, answer. intros [= <-]. cbn.
  now destruct (has_value_ (m_exception (ctx_base c))).
Qed.

Lemma reports_has_anything : reports plain has_anything has_anything_.
Proof.
  intros mg c r. unfold core_manager. destruct (bool_decide _); [|discriminate]. cbn.
  unfold answer_if, answer. intros [= <-]. cbn. now destruct (has_anything_ _).
Qed.

Lemma reports_has_all_arguments :
  reports with_references has_all_arguments (fun s => has_values (m_arguments s)).
Proof.
  intros mg c r. unfold core_manager. destruct (bool_decide _); [|discriminate]. cbn.
  unfold answer_if, answer. intros [= <-]. cbn. now destruct (has_values _).
Qed.

Section AtOneContext.
Variable rev : revision.
Variable h : af_ctx_manager.
Variable l : nat.
Hypothesis Hcontext : m_context h = Some l.

Lemma call_with_keeps P a id arg R :
  a <> call -> a <> down_ref_counter ->
  triple (on_storage l P) (call_with rev h a id arg) (fun _ => on_storage l P) R.
Proof.
  intros Hcall Hdown σ HP. unfold call_with. rewrite Hcontext.
  destruct (m_manager h) as [mg|]; [|exact I].
  destruct (heap σ !! l) as [c|] eqn:Hl; [|exact I].
  destruct (core_manager rev mg a c id arg) as [r| | |] eqn:Hr; try exact I.
  destruct (reply_keeps_storage _ _ _ _ _ _ _ Hcall Hdown Hr) as (c' & -> & Hbase).
  unfold on_storage in *. rewrite storage_at_put, Hbase.
  unfold storage_at in HP. now rewrite Hl in HP.
Qed.

Lemma ask_reports P a f R :
  reports rev a f ->
  triple (on_storage l P) (ask rev h a null_id None)
    (fun b => on_storage l (fun o => P o /\ exists s, o = Some s /\ b = f s)) R.
Proof.
  intros Hrep σ HP. unfold ask, bind, call_with. rewrite Hcontext.
  destruct (m_manager h) as [mg|]; [|exact I].
  destruct (heap σ !! l) as [c|] eqn:Hl; [|exact I].
  destruct (core_manager rev mg a c null_id None) as [r| | |] eqn:Hr; try exact I.
  destruct (Hrep _ _ _ Hr) as [Hc Hb]. cbn. rewrite Hc.
  unfold on_storage in *. rewrite storage_at_put.
  unfold storage_at in HP. rewrite Hl in HP. cbn in HP. split; [exact HP|].
  exists (ctx_base c). split; [reflexivity | exact Hb].
Qed.

Lemma ask_keeps P a id arg R :
  a <> call -> a <> down_ref_counter ->
  triple (on_storage l P) (ask rev h a id arg) (fun _ => on_storage l P) R.
Proof.
  intros Hcall Hdown. unfold ask.
  eapply triple_bind; [now apply call_with_keeps|].
  intros r. now apply triple_ret.
Qed.

Lemma mutex_lock_keeps P w_ R :
  triple (on_storage l P) (mutex_lock h w_) (fun _ => on_storage l P) R.
Proof.
  intros σ HP. unfold mutex_lock. rewrite Hcontext.
  destruct w_ as [[]|]; try exact I.
  - destruct (heap σ !! l) as [c|] eqn:Hl; [|exact I].
    destruct (own c); try exact I. destruct (m_mu _); [exact I|].
    unfold on_storage in *. rewrite storage_at_put. cbn.
    unfold storage_at in HP. now rewrite Hl in HP.
  - destruct (global_locked (trace σ)); [exact I | exact HP].
Qed.

Lemma mutex_unlock_keeps P w_ R :
  triple (on_storage l P) (mutex_unlock h w_) (fun _ => on_storage l P) R.
Proof.
  intros σ HP. unfold mutex_unlock. rewrite Hcontext.
  destruct w_ as [[]|]; try exact I.
  - destruct (heap σ !! l) as [c|] eqn:Hl; [|exact I].
    destruct (own c); try exact I. destruct (m_mu _); [|exact I].
    unfold on_storage in *. rewrite storage_at_put. cbn.
    unfold storage_at in HP. now rewrite Hl in HP.
  - destruct (global_locked (trace σ)); [exact HP | exact I].
Qed.

Lemma interfere_stable P w R :
  stable P l w -> triple (on_storage l P) (interfere w) (fun _ => on_storage l P) R.
Proof. intros Hs σ HP. cbn. now apply Hs. Qed.

Lemma guarded_keeps {A} P (body : M A) (Q : A -> option ctx_storage -> Prop) :
  triple (on_storage l P) body (fun a => on_storage l (Q a)) (on_storage l P) ->
  triple (on_storage l P) (guarded rev h body) (fun a => on_storage l (Q a)) (on_storage l P).
Proof.
  intros Hbody. unfold guarded.
  eapply triple_bind; [apply ask_keeps; discriminate|].
  intros locked. cbn beta.
  eapply triple_at_scope_exit; [exact Hbody| |].
  - intros a. destruct locked; [|now apply triple_ret].
    eapply triple_bind; [apply call_with_keeps; discriminate|].
    intros ?. now apply triple_ret.
  - destruct locked; [|now apply triple_ret].
    eapply triple_bind; [apply call_with_keeps; discriminate|].
    intros ?. now apply triple_ret.
Qed.

End AtOneContext.

(** *** Waiting on the future *)

Section Waiting.
Variable rev : revision.
Variable h : af_ctx_manager.
Variable l : nat.
Hypothesis Hcontext : m_context h = Some l.

Lemma triple_throw {A} (P : machine -> Prop) (e : thrown) (Q : A -> machine -> Prop) R :
  (forall σ, P σ -> R σ) -> triple P (throw e) Q R.
Proof. intros H σ HP. now apply H. Qed.

Lemma triple_never {A} (P : machine -> Prop) (Q : A -> machine -> Prop) R :
  triple P (fun _ => Blocked) Q R.
Proof. intros σ _. exact I. Qed.

Lemma triple_undefined {A} (P : machine -> Prop) (Q : A -> machine -> Prop) R :
  triple P undefined Q R.
Proof. intros σ _. exact I. Qed.

Lemma triple_pre {A} (P P' : machine -> Prop) (m : M A) Q R :
  triple P' m Q R -> (forall σ, P σ -> P' σ) -> triple P m Q R.
Proof. intros H HP σ Hσ. exact (H σ (HP σ Hσ)). Qed.

Lemma on_storage_weaken (P P' : option ctx_storage -> Prop) σ :
  (forall o, P o -> P' o) -> on_storage l P σ -> on_storage l P' σ.
Proof. unfold on_storage. auto. Qed.

(** The predicate of the waits tells whether the storage holds a result or
    an exception, and changes nothing. *)
Lemma completed_reports P R :
  triple (on_storage l P) (completed rev h)
    (fun b => on_storage l (fun o => P o /\ exists s, o = Some s /\ b = has_anything_ s)) R.
Proof.
  unfold completed. destruct rev.
  - apply (ask_reports plain h l Hcontext). apply reports_has_anything.
  - eapply triple_bind.
    { apply (ask_reports with_references h l Hcontext). apply reports_has_result. }
    intros r. cbn beta. destruct r.
    + apply triple_ret. intros σ. apply on_storage_weaken.
      intros o (HP & s & -> & Hr). split; [exact HP|]. exists s. split; [reflexivity|].
      unfold has_anything_. now rewrite <- Hr.
    + eapply triple_weaken.
      * apply (ask_reports with_references h l Hcontext
                 (fun o => P o /\ exists s, o = Some s /\ false = has_value_ (m_result s))
                 has_exception (fun s => has_value_ (m_exception s))).
        apply reports_has_exception.
      * intros σ H. exact H.
      * cbn beta. intros a σ. apply on_storage_weaken.
        intros o ((HP & s & -> & Hr) & s' & [= <-] & He). split; [exact HP|].
        exists s. split; [reflexivity|]. unfold has_anything_. now rewrite <- Hr.
      * intros σ H. exact H.
Qed.

Section ConditionVariable.
Variables unlock_ lock_ : M unit.
Hypothesis unlock_keeps :
  forall P R, triple (on_storage l P) unlock_ (fun _ => on_storage l P) R.
Hypothesis lock_keeps :
  forall P R, triple (on_storage l P) lock_ (fun _ => on_storage l P) R.

(** One blocking wait keeps what the interference keeps. *)
Lemma blocked_wait_keeps {A} P w (k : M A) Q R :
  stable P l w ->
  triple (on_storage l P) k Q R ->
  triple (on_storage l P)
    (run unlock_ then run interfere w then run lock_ then k) Q R.
Proof.
  intros Hs Hk.
  eapply triple_bind; [apply unlock_keeps|]. intros ?.
  eapply triple_bind; [now apply (interfere_stable l)|]. intros ?.
  eapply triple_bind; [apply lock_keeps|]. intros ?. exact Hk.
Qed.

Lemma cv_wait_keeps P wakes R :
  Forall (stable P l) wakes ->
  triple (on_storage l P) (cv_wait unlock_ lock_ (completed rev h) wakes)
    (fun _ => on_storage l
                (fun o => P o /\ exists s, o = Some s /\ has_anything_ s = true)) R.
Proof.
  induction 1 as [|w rest Hw Hrest IH]; cbn [cv_wait].
  - eapply triple_bind; [apply completed_reports|]. intros done. destruct done.
    + apply triple_ret. intros σ. apply on_storage_weaken.
      intros o (HP & s & -> & Hd). eauto.
    + apply triple_never.
  - eapply triple_bind; [apply completed_reports|]. intros done. destruct done.
    + apply triple_ret. intros σ. apply on_storage_weaken.
      intros o (HP & s & -> & Hd). eauto.
    + apply triple_pre with (P' := on_storage l P);
        [|intros σ; apply on_storage_weaken; tauto].
      apply blocked_wait_keeps; [exact Hw | exact IH].
Qed.

Lemma cv_wait_until_keeps P wakes last R :
  Forall (stable P l) wakes -> stable P l last ->
  triple (on_storage l P) (cv_wait_until unlock_ lock_ (completed rev h) wakes last)
    (fun b => on_storage l
                (fun o => P o /\ exists s, o = Some s /\ b = has_anything_ s)) R.
Proof.
  intros Hwakes Hlast. induction Hwakes as [|w rest Hw Hrest IH]; cbn [cv_wait_until].
  - eapply triple_bind; [apply completed_reports|]. intros done. destruct done.
    + apply triple_ret. intros σ H; exact H.
    + apply triple_pre with (P' := on_storage l P);
        [|intros σ; apply on_storage_weaken; tauto].
      apply blocked_wait_keeps; [exact Hlast | apply completed_reports].
  - eapply triple_bind; [apply completed_reports|]. intros done. destruct done.
    + apply triple_ret. intros σ H; exact H.
    + apply triple_pre with (P' := on_storage l P);
        [|intros σ; apply on_storage_weaken; tauto].
      apply blocked_wait_keeps; [exact Hw | exact IH].
Qed.

End ConditionVariable.

(** The lock on the waitable around a body that keeps [P]. *)
Lemma under_waitable_lock_keeps {A} P (Q : A -> option ctx_storage -> Prop)
  (body : M unit -> M unit -> M A) :
  (forall unlock_ lock_,
      (forall P' R', triple (on_storage l P') unlock_ (fun _ => on_storage l P') R') ->
      (forall P' R', triple (on_storage l P') lock_ (fun _ => on_storage l P') R') ->
      triple (on_storage l P) (body unlock_ lock_)
        (fun a => on_storage l (Q a)) (on_storage l P)) ->
  triple (on_storage l P) (under_waitable_lock rev h body)
    (fun a => on_storage l (Q a)) (on_storage l P).
Proof.
  intros Hbody. unfold under_waitable_lock.
  eapply triple_bind; [apply (call_with_keeps rev h l Hcontext); discriminate|].
  intros w_. cbn beta.
  eapply triple_bind; [apply (mutex_lock_keeps h l Hcontext)|]. intros ?.
  eapply triple_at_scope_exit.
  - apply Hbody; intros P' R'.
    + apply (mutex_unlock_keeps h l Hcontext).
    + apply (mutex_lock_keeps h l Hcontext).
  - intros x. apply (mutex_unlock_keeps h l Hcontext).
  - apply (mutex_unlock_keeps h l Hcontext).
Qed.

(** The timed waits only look at the cell. *)
Lemma wait_until_keeps P wakes last :
  Forall (stable P l) wakes -> stable P l last ->
  triple (on_storage l P) (wait_until rev h wakes last)
    (fun st => on_storage l
                 (fun o => P o /\ exists s, o = Some s
                           /\ st = (if has_anything_ s then ready else timeout)))
    (on_storage l P).
Proof.
  intros Hwakes Hlast. unfold wait_until.
  apply under_waitable_lock_keeps. intros unlock_ lock_ Hu Hl.
  eapply triple_bind; [now apply cv_wait_until_keeps|].
  intros r. apply triple_ret. intros σ. apply on_storage_weaken.
  intros o (HP & s & -> & ->). eauto.
Qed.

(** The part of [wait] on the condition variable. *)
Lemma wait_on_condition_keeps P wakes :
  Forall (stable P l) wakes ->
  triple (on_storage l P)
    (under_waitable_lock rev h
       (fun unlock_ lock_ => cv_wait unlock_ lock_ (completed rev h) wakes))
    (fun _ => on_storage l
                (fun o => P o /\ exists s, o = Some s /\ has_anything_ s = true))
    (on_storage l P).
Proof.
  intros Hwakes.
  apply (under_waitable_lock_keeps P
           (fun _ o => P o /\ exists s, o = Some s /\ has_anything_ s = true)).
  intros unlock_ lock_ Hu Hl. now apply cv_wait_keeps.
Qed.

End Waiting.

Section Futures.
Variable h : af_ctx_manager.
Variable l : nat.
Hypothesis Hcontext : m_context h = Some l.

Lemma prepared_reports P R :
  triple (on_storage l P) (prepared with_references h)
    (fun p => on_storage l (fun o => P o /\ exists s, o = Some s /\ p = is_prepared s)) R.
Proof.
  unfold prepared.
  eapply triple_bind.
  { apply (ask_reports with_references h l Hcontext). apply reports_has_all_arguments. }
  intros all. cbn beta. destruct all.
  - eapply triple_bind.
    { apply (ask_reports with_references h l Hcontext). apply reports_has_result. }
    intros r. cbn beta. destruct r.
    + apply triple_ret. intros σ. apply (on_storage_weaken l).
      intros o ((HP & s & -> & Ha) & s' & [= <-] & Hr). split; [exact HP|].
      exists s. split; [reflexivity|]. unfold is_prepared, has_anything_.
      now rewrite <- Ha, <- Hr.
    + eapply triple_bind.
      { apply (ask_reports with_references h l Hcontext). apply reports_has_exception. }
      intros e. cbn beta. apply triple_ret. intros σ. apply (on_storage_weaken l).
      intros o (((HP & s & -> & Ha) & s' & [= <-] & Hr) & s'' & [= <-] & ->).
      split; [exact HP|]. exists s. split; [reflexivity|].
      unfold is_prepared, has_anything_. now rewrite <- Ha, <- Hr.
  - apply triple_ret. intros σ. apply (on_storage_weaken l).
    intros o (HP & s & -> & Ha). split; [exact HP|]. exists s. split; [reflexivity|].
    unfold is_prepared. now rewrite <- Ha.
Qed.



(** [wait] only looks at the cell, unless it finds a prepared call to
    run. *)
Lemma wait_keeps rev P wakes s0 :
  Forall (stable P l) wakes ->
  P (Some s0) ->
  rev = plain \/ is_prepared s0 = false ->
  triple (on_storage l (fun o => o = Some s0)) (wait rev h wakes)
    (fun _ => on_storage l P) (on_storage l P).
Proof.
  intros Hwakes HP0 Hrev.
  assert (Hcond : triple (on_storage l (fun o => o = Some s0))
    (under_waitable_lock rev h
       (fun unlock_ lock_ => cv_wait unlock_ lock_ (completed rev h) wakes))
    (fun _ => on_storage l P) (on_storage l P)).
  { eapply triple_weaken.
    - now apply (wait_on_condition_keeps rev h l Hcontext P).
    - intros σ. apply (on_storage_weaken l). now intros o ->.
    - intros a σ. apply (on_storage_weaken l). tauto.
    - auto. }
  unfold wait. destruct rev; [exact Hcond|].
  destruct Hrev as [Hrev|Hnot]; [discriminate|].
  eapply triple_bind.
  - eapply triple_weaken with (R' := on_storage l (fun o => o = Some s0)).
    + apply (guarded_keeps with_references h l Hcontext (fun o => o = Some s0) _
               (fun called o => o = Some s0 /\ called = false)).
      eapply triple_bind; [apply prepared_reports|].
      intros p. cbn beta. destruct p.
      * apply triple_pre with (P' := fun _ => False); [apply triple_false|].
        intros σ (-> & s & [= <-] & Hp). congruence.
      * apply triple_ret. intros σ. apply (on_storage_weaken l). tauto.
    + auto.
    + intros a σ H. exact H.
    + intros σ. apply (on_storage_weaken l). now intros o ->.
  - intros called. cbn beta. destruct called.
    + apply triple_pre with (P' := fun _ => False); [apply triple_false|].
      intros σ (_ & Hx). discriminate Hx.
    + eapply triple_pre; [exact Hcond|]. intros σ. apply (on_storage_weaken l). tauto.
Qed.

Lemma read_exception_keeps (P : machine -> Prop) R :
  triple P (read_exception h) (fun _ => P) R.
Proof.
  intros σ HP. unfold read_exception. rewrite Hcontext.
  now destruct (heap σ !! l).
Qed.

Lemma read_result_keeps (P : machine -> Prop) R :
  triple P (read_result h) (fun _ => P) R.
Proof.
  intros σ HP. unfold read_result. rewrite Hcontext.
  now destruct (heap σ !! l).
Qed.

(** What [get] does after [wait] only looks at the cell. *)
Lemma get_keeps rev T P wakes (Pre : machine -> Prop) :
  triple Pre (wait rev h wakes) (fun _ => on_storage l P) (on_storage l P) ->
  triple Pre (get rev T h wakes) (fun _ => on_storage l P) (on_storage l P).
Proof.
  intros Hwait. unfold get.
  eapply triple_bind; [exact Hwait|]. intros ?.
  apply (guarded_keeps rev h l Hcontext P _ (fun _ => P)).
  eapply triple_bind; [apply (ask_keeps rev h l Hcontext); discriminate|].
  intros e. cbn beta. destruct e.
  - eapply triple_bind; [apply (call_with_keeps rev h l Hcontext); discriminate|].
    intros ?. eapply triple_bind; [apply read_exception_keeps|].
    intros [ex|]; [now apply triple_throw | apply triple_undefined].
  - eapply triple_bind; [apply (call_with_keeps rev h l Hcontext); discriminate|].
    intros ?.
    assert (Hread : triple (on_storage l P)
      (let* r := read_result h in
       match r with Some v => ret (Some v) | None => throw bad_optional_access end)
      (fun _ => on_storage l P) (on_storage l P)).
    { eapply triple_bind; [apply read_result_keeps|].
      intros [v|]; [now apply triple_ret | now apply triple_throw]. }
    destruct rev; [exact Hread|].
    destruct (is_void T); [now apply triple_ret | exact Hread].
Qed.

End Futures.

Lemma triple_returns {A} (P : machine -> Prop) (m : M A) Q R σ a σ' :
  triple P m Q R -> P σ -> m σ = Ok a σ' -> Q a σ'.
Proof. intros H HP E. specialize (H σ HP). now rewrite E in H. Qed.

Lemma triple_throws {A} (P : machine -> Prop) (m : M A) Q R σ e σ' :
  triple P m Q R -> P σ -> m σ = Thrown e σ' -> R σ'.
Proof. intros H HP E. specialize (H σ HP). now rewrite E in H. Qed.

(** C3 (as amended): the operations of a future only look at the cell.
    Whatever property [P] of the storage the other threads keep, it holds
    after [wait_until] and [wait_for]; it holds after [wait] and [get],
    returning or throwing, in the revision whose [wait] never calls, and
    in the other one when the cell is not prepared on entry (an argument
    missing, or a result or exception there).  [valid] has no access to
    the memory at all: it is a function of the handle. *)
Theorem future_only_looks
  (rev : revision) (h : af_ctx_manager) (l : nat)
  (P : option ctx_storage -> Prop)
  (wakes : list interference) (last : interference) (σ : machine) (s0 : ctx_storage) :
  m_context h = Some l ->
  Forall (stable P l) wakes -> stable P l last ->
  storage_at l σ = Some s0 -> P (Some s0) ->
  (forall st σ', wait_until rev h wakes last σ = Ok st σ' -> P (storage_at l σ'))
  /\ (forall st σ', wait_for rev h wakes last σ = Ok st σ' -> P (storage_at l σ'))
  /\ (rev = plain \/ is_prepared s0 = false ->
      (forall σ', wait rev h wakes σ = Ok tt σ' -> P (storage_at l σ'))
      /\ (forall T v σ', get rev T h wakes σ = Ok v σ' -> P (storage_at l σ'))
      /\ (forall T e σ', get rev T h wakes σ = Thrown e σ' -> P (storage_at l σ')))
  /\ valid h = to_bool h.
Proof.
  intros Hc Hwakes Hlast Hs HP.
  assert (HPσ : on_storage l P σ) by (unfold on_storage; now rewrite Hs).
  assert (Huntil : forall st σ', wait_until rev h wakes last σ = Ok st σ' ->
                                 P (storage_at l σ')).
  { intros st σ' E.
    pose proof (triple_returns _ _ _ _ _ _ _
                  (wait_until_keeps rev h l Hc P wakes last Hwakes Hlast) HPσ E) as H.
    unfold on_storage in H. tauto. }
  split; [exact Huntil|]. split; [exact Huntil|]. split; [|reflexivity].
  intros Hrev.
  pose proof (wait_keeps h l Hc rev P wakes s0 Hwakes HP Hrev) as Hwait.
  repeat split.
  - intros σ' E. exact (triple_returns _ _ _ _ _ _ _ Hwait Hs E).
  - intros T v σ' E.
    exact (triple_returns _ _ _ _ _ _ _ (get_keeps h l Hc rev T P wakes _ Hwait) Hs E).
  - intros T e σ' E.
    exact (triple_throws _ _ _ _ _ _ _ (get_keeps h l Hc rev T P wakes _ Hwait) Hs E).
Qed.

Lemma future_only_looks_witness :
  storage_at 0
    {| heap := {[ 0%nat := successor_context spinlock_tag 1 (Some 5) None None ]};
       next_free := 1;
       trace := [(0%nat, ev_lock_global); (0%nat, ev_unlock_global);
                 (0%nat, ev_lock_global); (0%nat, ev_unlock_global)] |}
  = Some (ctx_base (successor_context spinlock_tag 1 (Some 5) None None)).
Proof.
  refine (proj1 (future_only_looks with_references
                   (handle_to 0 (successor_manager spinlock_tag)) 0
                   (fun o => o = Some (ctx_base (successor_context spinlock_tag 1 (Some 5) None None)))
                   [] (fun σ => σ)
                   (one_cell (successor_context spinlock_tag 1 (Some 5) None None))
                   (ctx_base (successor_context spinlock_tag 1 (Some 5) None None))
                   eq_refl ltac:(constructor) (fun σ H => H) eq_refl eq_refl)
                timeout _ _).
  reflexivity.
Defined.

(** C3, as stated, fails in the revision whose [wait] runs a prepared
    call: the result slot is empty before [wait] and holds [6] after it. *)
Lemma wait_runs_a_prepared_call :
  (m_result <$> storage_at 0 (one_cell (successor_context unsafe_tag 1 (Some 5) None None)))
  = Some None
  /\ exists σ',
      wait with_references (handle_to 0 (successor_manager unsafe_tag)) []
        (one_cell (successor_context unsafe_tag 1 (Some 5) None None))
      = Ok tt σ'
      /\ (m_result <$> storage_at 0 σ') = Some (Some 6)
      /\ trace σ' = [(0%nat, ev_invoke [5])].
Proof. split; [reflexivity|]. eexists. repeat split. Qed.

(** *** Total-correctness rules *)

Lemma total_ret {A} (P : machine -> Prop) (a : A) (Q : A -> machine -> Prop) :
  (forall σ, P σ -> Q a σ) -> total P (ret a) Q.
Proof. intros H σ HP. exists a, σ. split; [reflexivity | now apply H]. Qed.

Lemma total_bind {A B} P (m : M A) (k : A -> M B) Q' Q :
  total P m Q' -> (forall a, total (Q' a) (k a) Q) -> total P (bind m k) Q.
Proof.
  intros Hm Hk σ HP. destruct (Hm σ HP) as (a & σ1 & E & HQ').
  destruct (Hk a σ1 HQ') as (b & σ2 & E2 & HQ).
  exists b, σ2. split; [|exact HQ]. unfold bind. now rewrite E.
Qed.

Lemma total_at_scope_exit {A} P (body : M A) (after : M unit) Q' Q :
  total P body Q' -> (forall a, total (Q' a) after (fun _ => Q a)) ->
  total P (at_scope_exit body after) Q.
Proof.
  intros Hb Ha σ HP. destruct (Hb σ HP) as (a & σ1 & E & HQ').
  destruct (Ha a σ1 HQ') as (u & σ2 & E2 & HQ).
  exists a, σ2. split; [|exact HQ]. unfold at_scope_exit, bind. now rewrite E, E2.
Qed.

Lemma total_post {A} (P : machine -> Prop) (m : M A) (Q Q' : A -> machine -> Prop) :
  total P m Q' -> (forall a σ, Q' a σ -> Q a σ) -> total P m Q.
Proof.
  intros H HQ σ HP. destruct (H σ HP) as (a & σ' & E & Hq). eauto.
Qed.

Section Returning.
Variable h : af_ctx_manager.
Variable mg : manager.
Variable l : nat.
Hypothesis Hmanager : m_manager h = Some mg.
Hypothesis Hcontext : m_context h = Some l.

Lemma context_type_mutex_taken c :
  context_type (own (mutex_taken c)) = context_type (own c).
Proof. unfold mutex_taken. now destruct (own c) eqn:E; cbn; rewrite ?E. Qed.

Lemma ctx_base_mutex_taken c : ctx_base (mutex_taken c) = ctx_base c.
Proof. unfold mutex_taken. now destruct (own c). Qed.

Lemma its_waitable_mutex_taken c : its_waitable (mutex_taken c) = its_waitable c.
Proof. unfold mutex_taken, its_waitable. now destruct (own c) eqn:E; cbn; rewrite ?E. Qed.

(** An action that only asks returns, with the context as it was. *)
Lemma ask_total rev a f c :
  context_type (own c) = mg_context mg ->
  (forall c', context_type (own c') = mg_context mg ->
              core_manager rev mg a c' null_id None = answer_if (f (ctx_base c')) c') ->
  total (fun σ => heap σ !! l = Some c) (ask rev h a null_id None)
    (fun b σ' => b = f (ctx_base c) /\ heap σ' !! l = Some c).
Proof.
  intros Ht Hcore σ Hl. unfold ask, bind.
  rewrite (call_with_at rev h mg l c σ) by (repeat split; assumption).
  rewrite Hcore by assumption. unfold answer_if, answer. cbn.
  eexists _, _. split; [reflexivity|]. split; [|apply lookup_insert_eq].
  now destruct (f (ctx_base c)).
Qed.

Lemma core_has_result rev c :
  context_type (own c) = mg_context mg ->
  core_manager rev mg has_result c null_id None
  = answer_if (has_value_ (m_result (ctx_base c))) c.
Proof. intros Ht. unfold core_manager. now rewrite (cast_ok mg c Ht). Qed.

Lemma core_has_exception rev c :
  context_type (own c) = mg_context mg ->
  core_manager rev mg has_exception c null_id None
  = answer_if (has_value_ (m_exception (ctx_base c))) c.
Proof. intros Ht. unfold core_manager. now rewrite (cast_ok mg c Ht). Qed.

Lemma completed_total rev c :
  context_type (own c) = mg_context mg ->
  total (fun σ => heap σ !! l = Some c) (completed rev h)
    (fun b σ' => b = has_anything_ (ctx_base c) /\ heap σ' !! l = Some c).
Proof.
  intros Ht. unfold completed. destruct rev.
  - apply (ask_total plain has_anything has_anything_ c Ht).
    intros c' Ht'. unfold core_manager. now rewrite (cast_ok mg c' Ht').
  - eapply total_bind.
    { apply (ask_total with_references has_result (fun s => has_value_ (m_result s)) c Ht).
      intros c' Ht'. now apply core_has_result. }
    intros r. cbn beta. destruct r.
    + apply total_ret. intros σ [Hr Hl]. split; [|exact Hl].
      unfold has_anything_. now rewrite <- Hr.
    + intros σ [Hr Hl].
      destruct (ask_total with_references has_exception
                  (fun s => has_value_ (m_exception s)) c Ht
                  ltac:(intros c' Ht'; now apply core_has_exception)
                  σ Hl) as (b & σ' & E & Hb & Hl').
      exists b, σ'. split; [exact E|].
      split; [|exact Hl']. unfold has_anything_. now rewrite <- Hr.
Qed.

Lemma get_waitable_total rev c :
  context_type (own c) = mg_context mg ->
  total (fun σ => heap σ !! l = Some c) (call_with rev h get_waitable null_id None)
    (fun r σ' => r.1 = Some (its_waitable c) /\ heap σ' !! l = Some c).
Proof.
  intros Ht σ Hl.
  rewrite (call_with_at rev h mg l c σ) by (repeat split; assumption).
  unfold core_manager. rewrite (cast_ok mg c Ht). cbn.
  eexists _, _. split; [reflexivity|]. split; [|apply lookup_insert_eq].
  unfold its_waitable. now destruct (own c).
Qed.

End Returning.

End AnyFunctionFacts.

(* ===================================================================== *)
(** ** Arithmetic and comparison of compact integers                      *)
(* ===================================================================== *)

Section CompactArithmeticFacts.
Import Compact.

Lemma byte_of_Z_of_byte (b : memory_t) (r : Z) : byte_of_Z (Z_of_byte b + 256 * r) = b.
Proof.
  unfold byte_of_Z, Z_of_byte.
  pose proof (Byte.to_N_bounded b) as Hb.
  replace ((Z.of_N (Byte.to_N b) + 256 * r) mod 256) with (Z.of_N (Byte.to_N b)).
  - rewrite N2Z.id. now rewrite Byte.of_to_N.
  - rewrite (Z.mul_comm 256 r), Z.mod_add by lia. symmetry. apply Z.mod_small. lia.
Qed.

Lemma Z_of_byte_range (b : memory_t) : 0 <= Z_of_byte b < 256.
Proof. unfold Z_of_byte. pose proof (Byte.to_N_bounded b). lia. Qed.

Lemma bytes_le_unsigned_le (bs : list memory_t) :
  bytes_le (length bs) (unsigned_le bs) = bs.
Proof.
  induction bs as [|b bs IH]; cbn [length bytes_le unsigned_le]; [reflexivity|].
  rewrite byte_of_Z_of_byte. f_equal.
  replace ((Z_of_byte b + 256 * unsigned_le bs) / 256) with (unsigned_le bs); [exact IH|].
  pose proof (Z_of_byte_range b).
  rewrite (Z.mul_comm 256), Z.div_add by lia.
  rewrite (Z.div_small (Z_of_byte b)) by lia. lia.
Qed.

Lemma unsigned_le_range (bs : list memory_t) :
  0 <= unsigned_le bs < 2 ^ (8 * Z.of_nat (length bs)).
Proof.
  induction bs as [|b bs IH]; cbn [length unsigned_le]; [cbn; lia|].
  pose proof (Z_of_byte_range b).
  replace (8 * Z.of_nat (S (length bs))) with (8 + 8 * Z.of_nat (length bs)) by lia.
  rewrite Z.pow_add_r by lia. change (2 ^ 8) with 256. nia.
Qed.

Section OneType.
Variable bo : byteorder.
Variable T : integral.
Variable sizeof_int : nat.
Hypothesis Hsize : (0 < size_of T)%nat.

Lemma bits_pos : 8 <= bits T.
Proof. unfold bits. lia. Qed.

Lemma pow_bits_split : 2 ^ bits T = 2 * 2 ^ (bits T - 1).
Proof.
  pose proof bits_pos. rewrite <- Z.pow_succ_r by lia. f_equal. lia.
Qed.

Lemma pow_half_pos : 0 < 2 ^ (bits T - 1).
Proof. pose proof bits_pos. apply Z.pow_pos_nonneg; lia. Qed.

(** What [load] sees after [store], for any integer stored. *)
Lemma load_store_any (x : Z) (c : compact_integer) :
  has_size T c -> load bo T (store bo T x c) = to_T T x.
Proof.
  intros Hc. unfold load, store, storage_load, value_representation, to_T.
  cbn [m_storage]. now rewrite load_store_pattern.
Qed.

Lemma has_size_store (x : Z) (c : compact_integer) :
  has_size T c -> has_size T (store bo T x c).
Proof.
  unfold has_size, store, storage_store, object_representation. cbn [m_storage m_data].
  intros ->. destruct bo; rewrite length_take, ?length_rev, length_bytes_le; lia.
Qed.

Lemma to_T_in_range (x : Z) : in_range T (to_T T x).
Proof.
  unfold to_T, in_range.
  pose proof pow_bits_split. pose proof pow_half_pos.
  assert (0 <= x mod 2 ^ bits T < 2 ^ bits T) by (apply Z.mod_pos_bound; lia).
  destruct (is_signed T); cbn [andb]; [|lia].
  destruct (Z.leb_spec (2 ^ (bits T - 1)) (x mod 2 ^ bits T)); lia.
Qed.

Lemma to_T_fixed (x : Z) : in_range T x -> to_T T x = x.
Proof.
  unfold to_T, in_range. intros Hx.
  pose proof pow_bits_split. pose proof pow_half_pos.
  destruct (is_signed T); cbn [andb].
  - destruct (Z_lt_le_dec x 0) as [Hneg|Hnn].
    + assert (Hm : x mod 2 ^ bits T = x + 2 ^ bits T).
      { symmetry. apply (Z.mod_unique x (2 ^ bits T) (-1)); lia. }
      rewrite Hm. destruct (Z.leb_spec (2 ^ (bits T - 1)) (x + 2 ^ bits T)); lia.
    + rewrite Z.mod_small by lia. destruct (Z.leb_spec (2 ^ (bits T - 1)) x); lia.
  - apply Z.mod_small. lia.
Qed.

Lemma to_T_mod (x : Z) : to_T T x mod 2 ^ bits T = x mod 2 ^ bits T.
Proof.
  unfold to_T. pose proof pow_bits_split. pose proof pow_half_pos.
  assert (0 <= x mod 2 ^ bits T < 2 ^ bits T) by (apply Z.mod_pos_bound; lia).
  destruct (is_signed T && (2 ^ (bits T - 1) <=? x mod 2 ^ bits T)).
  - replace (x mod 2 ^ bits T - 2 ^ bits T) with (x mod 2 ^ bits T + (-1) * 2 ^ bits T) by lia.
    rewrite Z.mod_add by lia. apply Z.mod_mod. lia.
  - apply Z.mod_mod. lia.
Qed.

Lemma to_T_congruent (x y : Z) :
  x mod 2 ^ bits T = y mod 2 ^ bits T -> to_T T x = to_T T y.
Proof. unfold to_T. now intros ->. Qed.

(** A storage of the right size always loads a value of [T]. *)
Lemma load_as_pattern (c : compact_integer) :
  has_size T c ->
  exists u, 0 <= u < 2 ^ bits T /\ load bo T c = to_T T u
            /\ object_representation bo T u = m_data (m_storage c).
Proof.
  intros Hc. unfold has_size in Hc.
  set (bs := match bo with little_endian => m_data (m_storage c)
                         | big_endian => rev (m_data (m_storage c)) end).
  assert (Hlen : length bs = size_of T) by (subst bs; destruct bo; now rewrite ?length_rev).
  exists (unsigned_le bs).
  pose proof (unsigned_le_range bs) as Hr. rewrite Hlen in Hr. fold (bits T) in Hr.
  split; [exact Hr|]. split.
  - unfold load, storage_load, value_representation, to_T. fold bs.
    now rewrite Z.mod_small by exact Hr.
  - unfold object_representation. rewrite Z.mod_small by exact Hr.
    rewrite <- Hlen, bytes_le_unsigned_le. subst bs.
    destruct bo; [reflexivity | apply rev_involutive].
Qed.

Lemma load_in_range (c : compact_integer) : has_size T c -> in_range T (load bo T c).
Proof.
  intros Hc. destruct (load_as_pattern c Hc) as (u & _ & -> & _). apply to_T_in_range.
Qed.

Lemma store_load_bytes (c : compact_integer) :
  has_size T c -> store bo T (load bo T c) c = c.
Proof.
  intros Hc. destruct (load_as_pattern c Hc) as (u & Hu & Hload & Hrep).
  destruct c as [[bs]]. unfold store, storage_store. cbn [m_storage m_data] in *.
  f_equal. f_equal.
  assert (Hobj : object_representation bo T (load bo T {| m_storage := {| m_data := bs |} |})
                 = object_representation bo T u).
  { unfold object_representation. rewrite Hload, to_T_mod. reflexivity. }
  rewrite Hobj, Hrep. apply firstn_all.
Qed.

Lemma store_congruent (x y : Z) (c : compact_integer) :
  x mod 2 ^ bits T = y mod 2 ^ bits T -> store bo T x c = store bo T y c.
Proof.
  intros E. unfold store, storage_store, object_representation. now rewrite E.
Qed.

Lemma store_same_size (x : Z) (a b : compact_integer) :
  has_size T a -> has_size T b -> store bo T x a = store bo T x b.
Proof.
  unfold has_size, store, storage_store. intros Ha Hb. now rewrite Ha, Hb.
Qed.

(** X2: the comparison operators order compact integers by the values
    they load, [==] holds exactly for equal storages, and of [<], [==],
    [>] exactly one holds. *)
Theorem comparisons_follow_values (a b : compact_integer) :
  has_size T a -> has_size T b ->
  (eq_op bo T a b = true <-> a = b)
  /\ (ne_op bo T a b = true <-> a <> b)
  /\ (lt_op bo T a b = true <-> load bo T a < load bo T b)
  /\ (gt_op bo T a b = true <-> load bo T b < load bo T a)
  /\ (le_op bo T a b = true <-> load bo T a <= load bo T b)
  /\ (ge_op bo T a b = true <-> load bo T b <= load bo T a)
  /\ (lt_op bo T a b = true /\ eq_op bo T a b = false /\ gt_op bo T a b = false
      \/ lt_op bo T a b = false /\ eq_op bo T a b = true /\ gt_op bo T a b = false
      \/ lt_op bo T a b = false /\ eq_op bo T a b = false /\ gt_op bo T a b = true).
Proof.
  intros Ha Hb.
  assert (Heq : eq_op bo T a b = true <-> a = b).
  { unfold eq_op. rewrite Z.eqb_eq. split; [|now intros ->].
    intros E. rewrite <- (store_load_bytes a Ha), <- (store_load_bytes b Hb).
    rewrite E. now apply store_same_size. }
  split; [exact Heq|].
  unfold ne_op, le_op, ge_op, gt_op, lt_op in *.
  split.
  { rewrite negb_true_iff, <- not_true_iff_false. now rewrite Heq. }
  unfold eq_op.
  destruct (Z.ltb_spec (load bo T a) (load bo T b));
    destruct (Z.ltb_spec (load bo T b) (load bo T a));
    destruct (Z.eqb_spec (load bo T a) (load bo T b)); cbn; try lia;
    repeat split; try (intros; lia); try discriminate; auto.
Qed.

(** The arithmetic operators on an unsigned [T] are never undefined: the
    result is reduced modulo [2 ^ bits T]. *)
Lemma arithmetic_unsigned (r : Z) :
  is_signed T = false ->
  - 2 ^ bits T <= r < 2 * 2 ^ bits T ->
  arithmetic T sizeof_int r = Some (r mod 2 ^ bits T).
Proof.
  intros Hu Hr. unfold arithmetic. rewrite Hu.
  destruct (Nat.ltb_spec (size_of T) sizeof_int) as [Hnarrow|Hwide]; [|reflexivity].
  assert (Hint : int_range sizeof_int r = true).
  { unfold int_range. pose proof bits_pos.
    assert (Hle : bits T + 1 <= 8 * Z.of_nat sizeof_int - 1) by (unfold bits; lia).
    assert (Hpow : 2 ^ (bits T + 1) <= 2 ^ (8 * Z.of_nat sizeof_int - 1))
      by (apply Z.pow_le_mono_r; lia).
    rewrite Z.pow_add_r in Hpow by lia. change (2 ^ 1) with 2 in Hpow.
    apply andb_true_intro. split; [apply Z.leb_le | apply Z.ltb_lt]; lia. }
  rewrite Hint. unfold to_T. now rewrite Hu.
Qed.

Lemma modify_some (func : Z -> option Z) (c : compact_integer) (r : Z) :
  func (load bo T c) = Some r -> modify bo T func c = Some (store bo T r c).
Proof.
  intros H. unfold modify, storage_modify, load in *. now rewrite H.
Qed.

(** X1: storing back what was loaded gives the same bytes, so a
    [modify] whose function leaves the value alone leaves the object
    alone. *)
Theorem store_load_keeps_bytes (c : compact_integer) :
  has_size T c ->
  store bo T (load bo T c) c = c
  /\ modify bo T (fun v => Some v) c = Some c.
Proof.
  intros Hc. split; [now apply store_load_bytes|].
  rewrite (modify_some (fun v => Some v) c (load bo T c) eq_refl).
  f_equal. now apply store_load_bytes.
Qed.

Lemma load_store_small (x : Z) (c : compact_integer) :
  is_signed T = false -> has_size T c -> 0 <= x <= 1 -> load bo T (store bo T x c) = x.
Proof.
  intros Hu Hc Hx. rewrite load_store_any by assumption. apply to_T_fixed.
  unfold in_range. rewrite Hu. pose proof pow_bits_split. pose proof pow_half_pos. lia.
Qed.

Lemma int_range_small (r : Z) :
  (1 <= sizeof_int)%nat -> -2 <= r <= 2 -> int_range sizeof_int r = true.
Proof.
  intros Hint Hr. unfold int_range.
  assert (Hpow : 2 ^ 7 <= 2 ^ (8 * Z.of_nat sizeof_int - 1))
    by (apply Z.pow_le_mono_r; lia).
  change (2 ^ 7) with 128 in Hpow.
  apply andb_true_intro. split; [apply Z.leb_le | apply Z.ltb_lt]; lia.
Qed.

(** X3: on an unsigned [T] other than [bool], [+=] and [-=] are defined for
    every operand, wrap around modulo [2 ^ bits T], and [-= a] undoes
    [+= a].  On [bool] they are defined too, but [+=] gives the
    disjunction, so that [-= a] after [+= a] gives [false] whenever [a] is
    [true]. *)
Theorem add_then_sub_unsigned (a : Z) (c : compact_integer) :
  is_signed T = false -> has_size T c ->
  (in_range T a ->
   exists c1 c2,
     add_assign bo T sizeof_int false a c = Some c1
     /\ load bo T c1 = (load bo T c + a) mod 2 ^ bits T
     /\ sub_assign bo T sizeof_int false a c1 = Some c2
     /\ load bo T c2 = load bo T c
     /\ c2 = c)
  /\ ((1 <= sizeof_int)%nat -> 0 <= load bo T c <= 1 -> 0 <= a <= 1 ->
      exists c1 c2,
        add_assign bo T sizeof_int true a c = Some c1
        /\ load bo T c1 = Z.max (load bo T c) a
        /\ sub_assign bo T sizeof_int true a c1 = Some c2
        /\ load bo T c2 = (if a =? 0 then load bo T c else 0)).
Proof.
  intros Hu Hc. split.
  - intros Ha.
    pose proof (load_in_range c Hc) as Hv. unfold in_range in Hv, Ha. rewrite Hu in Hv, Ha.
    assert (Hpos : 0 < 2 ^ bits T)
      by (pose proof pow_bits_split; pose proof pow_half_pos; lia).
    assert (HtoT : forall x, to_T T x = x mod 2 ^ bits T)
      by (intros x; unfold to_T; now rewrite Hu).
    unfold add_assign, sub_assign, compound.
    eexists _, _. split.
    { apply modify_some. apply arithmetic_unsigned; [assumption | lia]. }
    assert (H1 : load bo T (store bo T ((load bo T c + a) mod 2 ^ bits T) c)
                 = (load bo T c + a) mod 2 ^ bits T).
    { rewrite load_store_any, HtoT by assumption. apply Z.mod_mod. lia. }
    split; [exact H1|].
    assert (Hc1 : has_size T (store bo T ((load bo T c + a) mod 2 ^ bits T) c))
      by now apply has_size_store.
    assert (Hm : 0 <= (load bo T c + a) mod 2 ^ bits T < 2 ^ bits T)
      by (apply Z.mod_pos_bound; lia).
    split.
    { apply modify_some. rewrite H1. apply arithmetic_unsigned; [assumption | lia]. }
    assert (Hback : ((load bo T c + a) mod 2 ^ bits T - a) mod 2 ^ bits T = load bo T c).
    { rewrite Zminus_mod_idemp_l. replace (load bo T c + a - a) with (load bo T c) by lia.
      apply Z.mod_small. lia. }
    rewrite Hback.
    assert (Hsame : store bo T (load bo T c)
                      (store bo T ((load bo T c + a) mod 2 ^ bits T) c) = c).
    { rewrite (store_same_size _ _ c Hc1 Hc). now apply store_load_bytes. }
    split; [now rewrite Hsame | exact Hsame].
  - intros Hint Hv Ha. unfold add_assign, sub_assign, compound, converted.
    assert (Hsum : 0 <= (if load bo T c + a =? 0 then 0 else 1) <= 1)
      by (destruct (load bo T c + a =? 0); lia).
    assert (H1 : load bo T (store bo T (if load bo T c + a =? 0 then 0 else 1) c)
                 = Z.max (load bo T c) a).
    { rewrite load_store_small by assumption.
      destruct (Z.eqb_spec (load bo T c + a) 0); lia. }
    assert (Hc1 : has_size T (store bo T (if load bo T c + a =? 0 then 0 else 1) c))
      by now apply has_size_store.
    eexists _, _. split.
    { apply modify_some. now rewrite int_range_small by lia. }
    split; [exact H1|]. split.
    { apply modify_some. rewrite H1. now rewrite int_range_small by lia. }
    rewrite load_store_small;
      [|assumption|assumption|destruct (Z.max (load bo T c) a - a =? 0); lia].
    destruct (Z.eqb_spec a 0), (Z.eqb_spec (Z.max (load bo T c) a - a) 0); lia.
Qed.

(** X4: [++] is undefined exactly at the maximum of a signed [T] that is
    not narrower than [int]; otherwise the object then loads the
    successor converted to [T] (so an unsigned maximum goes to zero), and
    the postfix form returns the object as it was. *)
Theorem increment_defined (c : compact_integer) :
  has_size T c ->
  (pre_increment bo T sizeof_int c = None <->
   (sizeof_int <= size_of T)%nat /\ is_signed T = true
   /\ load bo T c = 2 ^ (bits T - 1) - 1)
  /\ (forall c', pre_increment bo T sizeof_int c = Some c' ->
       load bo T c' = to_T T (load bo T c + 1)
       /\ has_size T c'
       /\ post_increment bo T sizeof_int c = Some (c, c')).
Proof.
  intros Hc. pose proof (load_in_range c Hc) as Hv.
  pose proof pow_bits_split as Hsplit. pose proof pow_half_pos as Hhalf.
  pose proof bits_pos as Hbits.
  assert (Hrun : forall r, arithmetic T sizeof_int (load bo T c + 1) = Some r ->
                 pre_increment bo T sizeof_int c = Some (store bo T r c)).
  { intros r Hr. unfold pre_increment. now apply modify_some. }
  assert (Hnone : arithmetic T sizeof_int (load bo T c + 1) = None ->
                  pre_increment bo T sizeof_int c = None).
  { intros Hn. unfold pre_increment, modify, storage_modify.
    unfold load in Hn. now rewrite Hn. }
  assert (Hcases :
    (arithmetic T sizeof_int (load bo T c + 1) = None
     /\ (sizeof_int <= size_of T)%nat /\ is_signed T = true
     /\ load bo T c = 2 ^ (bits T - 1) - 1)
    \/ (arithmetic T sizeof_int (load bo T c + 1) = Some (to_T T (load bo T c + 1))
        /\ ~ ((sizeof_int <= size_of T)%nat /\ is_signed T = true
              /\ load bo T c = 2 ^ (bits T - 1) - 1))).
  { unfold arithmetic, in_range_b. unfold in_range in Hv.
    destruct (Nat.ltb_spec (size_of T) sizeof_int) as [Hnarrow|Hwide].
    - right. split; [|lia].
      assert (Hint : int_range sizeof_int (load bo T c + 1) = true).
      { unfold int_range.
        assert (Hle : bits T + 1 <= 8 * Z.of_nat sizeof_int - 1) by (unfold bits; lia).
        assert (Hpow : 2 ^ (bits T + 1) <= 2 ^ (8 * Z.of_nat sizeof_int - 1))
          by (apply Z.pow_le_mono_r; lia).
        rewrite Z.pow_add_r in Hpow by lia. change (2 ^ 1) with 2 in Hpow.
        apply andb_true_intro. split; [apply Z.leb_le | apply Z.ltb_lt];
          destruct (is_signed T); lia. }
      now rewrite Hint.
    - destruct (is_signed T) eqn:Hs.
      + destruct (Z.eq_dec (load bo T c) (2 ^ (bits T - 1) - 1)) as [Hmax|Hnot].
        * left. split; [|auto].
          replace (load bo T c + 1 <? 2 ^ (bits T - 1)) with false
            by (symmetry; apply Z.ltb_ge; lia).
          now rewrite andb_false_r.
        * right. split; [|tauto].
          replace (- 2 ^ (bits T - 1) <=? load bo T c + 1) with true
            by (symmetry; apply Z.leb_le; lia).
          replace (load bo T c + 1 <? 2 ^ (bits T - 1)) with true
            by (symmetry; apply Z.ltb_lt; lia).
          cbn. f_equal. symmetry. apply to_T_fixed. unfold in_range. rewrite Hs. lia.
      + right. split; [|intros (_ & Hx & _); discriminate].
        f_equal. unfold to_T. now rewrite Hs. }
  destruct Hcases as [(Harith & Hmax)|(Harith & Hnot)].
  - rewrite (Hnone Harith). split; [tauto|]. intros c' Hx. discriminate.
  - rewrite (Hrun _ Harith). split.
    + split; [discriminate | intros Hx; now destruct Hnot].
    + intros c' [= <-]. split.
      { rewrite load_store_any by assumption. apply to_T_fixed, to_T_in_range. }
      split; [now apply has_size_store|].
      unfold post_increment. now rewrite (Hrun _ Harith).
Qed.

(** X5: on a [T] other than [bool], [~] never leaves [T]: the complement
    loads [-v - 1] when [T] is signed and [2 ^ bits T - 1 - v] when it is
    not, and taking it twice gives the bytes back.  On [bool] the
    complement of either value is [true]. *)
Theorem complement_twice (c : compact_integer) :
  has_size T c ->
  (load bo T (bit_not bo T false c)
   = (if is_signed T then - load bo T c - 1 else 2 ^ bits T - 1 - load bo T c)
   /\ bit_not bo T false (bit_not bo T false c) = c)
  /\ (is_signed T = false ->
      load bo T (bit_not bo T true c) = 1
      /\ load bo T (bit_not bo T true (bit_not bo T true c)) = 1).
Proof.
  intros Hc. pose proof (load_in_range c Hc) as Hv.
  pose proof pow_bits_split as Hsplit. pose proof pow_half_pos as Hhalf.
  split.
  - assert (Hload : load bo T (bit_not bo T false c)
                    = (if is_signed T then - load bo T c - 1
                       else 2 ^ bits T - 1 - load bo T c)).
    { unfold bit_not, construct. rewrite load_store_any by assumption.
      unfold Z.lnot, Z.pred. unfold in_range in Hv.
      destruct (is_signed T) eqn:Hs.
      - apply to_T_fixed. unfold in_range. rewrite Hs. lia.
      - rewrite (to_T_congruent (- load bo T c + -1) (2 ^ bits T - 1 - load bo T c)).
        + apply to_T_fixed. unfold in_range. rewrite Hs. lia.
        + replace (2 ^ bits T - 1 - load bo T c)
            with (- load bo T c + -1 + 1 * 2 ^ bits T) by lia.
          now rewrite Z.mod_add by lia. }
    split; [exact Hload|].
    assert (Hc1 : has_size T (bit_not bo T false c)) by (now apply has_size_store).
    unfold bit_not at 1. unfold construct. rewrite Hload.
    rewrite (store_same_size _ _ c Hc1 Hc).
    transitivity (store bo T (load bo T c) c); [|now apply store_load_bytes].
    apply store_congruent. unfold Z.lnot, Z.pred. unfold in_range in Hv.
    destruct (is_signed T).
    + f_equal. lia.
    + replace (- (2 ^ bits T - 1 - load bo T c) + -1)
        with (load bo T c + (-1) * 2 ^ bits T) by lia.
      now rewrite Z.mod_add by lia.
  - intros Hu.
    assert (Hone : forall c', has_size T c' -> load bo T (bit_not bo T true c') = 1).
    { intros c' Hc'. pose proof (load_in_range c' Hc') as Hv'.
      unfold in_range in Hv'. rewrite Hu in Hv'.
      unfold bit_not, construct, converted, Z.lnot, Z.pred.
      destruct (Z.eqb_spec (- load bo T c' + -1) 0) as [E|_]; [lia|].
      apply load_store_small; [assumption | assumption | lia]. }
    split; [now apply Hone|]. apply Hone. now apply has_size_store.
Qed.

End OneType.

(** [store] after [load] at [int16_t], bytes [ff fe], big-endian target. *)
Lemma store_load_keeps_bytes_witness :
  store big_endian int16_t (load big_endian int16_t (of_bytes [xff; xfe]))
    (of_bytes [xff; xfe])
  = of_bytes [xff; xfe]
  /\ modify big_endian int16_t (fun v => Some v) (of_bytes [xff; xfe])
     = Some (of_bytes [xff; xfe]).
Proof.
  apply (store_load_keeps_bytes big_endian int16_t).
  - cbn. lia.
  - reflexivity.
Defined.

(** [-1 < 1] at [int8_t]. *)
Lemma comparisons_follow_values_witness :
  lt_op little_endian int8_t (of_bytes [xff]) (of_bytes [x01]) = true
  <-> load little_endian int8_t (of_bytes [xff])
      < load little_endian int8_t (of_bytes [x01]).
Proof.
  refine (proj1 (proj2 (proj2 (comparisons_follow_values little_endian int8_t _
                                 (of_bytes [xff]) (of_bytes [x01]) _ _)))).
  - cbn. lia.
  - reflexivity.
  - reflexivity.
Defined.

(** [100 += 200] and back at [uint8_t], with a four-byte [int]. *)
Lemma add_then_sub_unsigned_witness :
  exists c1 c2,
    add_assign little_endian uint8_t 4 false 200 (of_bytes [x64]) = Some c1
    /\ load little_endian uint8_t c1
       = (load little_endian uint8_t (of_bytes [x64]) + 200) mod 2 ^ bits uint8_t
    /\ sub_assign little_endian uint8_t 4 false 200 c1 = Some c2
    /\ load little_endian uint8_t c2 = load little_endian uint8_t (of_bytes [x64])
    /\ c2 = of_bytes [x64].
Proof.
  refine (proj1 (add_then_sub_unsigned little_endian uint8_t 4 _ 200 (of_bytes [x64]) _ _) _).
  - cbn. lia.
  - reflexivity.
  - reflexivity.
  - unfold in_range, bits. cbn. lia.
Defined.

(** [++] at the maximum of [int32_t], with a four-byte [int]. *)
Lemma increment_defined_witness :
  pre_increment little_endian int32_t 4 (of_bytes [xff; xff; xff; x7f]) = None
  <-> (4 <= size_of int32_t)%nat /\ is_signed int32_t = true
      /\ load little_endian int32_t (of_bytes [xff; xff; xff; x7f])
         = 2 ^ (bits int32_t - 1) - 1.
Proof.
  refine (proj1 (increment_defined little_endian int32_t 4 _
                   (of_bytes [xff; xff; xff; x7f]) _)).
  - cbn. lia.
  - reflexivity.
Defined.

(** [~15] at [uint8_t]. *)
Lemma complement_twice_witness :
  load big_endian uint8_t (bit_not big_endian uint8_t false (of_bytes [x0f]))
  = 2 ^ bits uint8_t - 1 - load big_endian uint8_t (of_bytes [x0f])
  /\ bit_not big_endian uint8_t false (bit_not big_endian uint8_t false (of_bytes [x0f]))
     = of_bytes [x0f].
Proof.
  refine (proj1 (complement_twice big_endian uint8_t _ (of_bytes [x0f]) _)).
  - cbn. lia.
  - reflexivity.
Defined.

End CompactArithmeticFacts.

(* ===================================================================== *)
(** ** Further properties of the handles                                  *)
(* ===================================================================== *)

Section HandleFacts.
Import AnyFunction.

(** *** The recursions over the index sequence *)

Lemma get_impl_seq (i a n : nat) :
  get_impl i (seq a n) = if (a <=? i)%nat && (i <? a + n)%nat then Some i else None.
Proof.
  revert a. induction n as [|n IH]; intros a; cbn [seq get_impl].
  - destruct (Nat.leb_spec a i), (Nat.ltb_spec i (a + 0)); cbn; try reflexivity; lia.
  - destruct (Nat.eqb_spec i a) as [->|Hne].
    + rewrite Nat.leb_refl. destruct (Nat.ltb_spec a (a + S n)); [reflexivity | lia].
    + rewrite IH.
      destruct (Nat.leb_spec (S a) i), (Nat.leb_spec a i),
        (Nat.ltb_spec i (S a + n)), (Nat.ltb_spec i (a + S n)); cbn; try reflexivity; lia.
Qed.

Lemma has_value_impl_seq (i : nat) (t : list (option value)) (a n : nat) :
  has_value_impl i t (seq a n)
  = (a <=? i)%nat && (i <? a + n)%nat && has_value_ (nth i t None).
Proof.
  revert a. induction n as [|n IH]; intros a; cbn [seq has_value_impl].
  - destruct (Nat.leb_spec a i), (Nat.ltb_spec i (a + 0)); cbn; try reflexivity; lia.
  - destruct (Nat.eqb_spec i a) as [->|Hne].
    + rewrite Nat.leb_refl. destruct (Nat.ltb_spec a (a + S n)); [reflexivity | lia].
    + rewrite IH.
      destruct (Nat.leb_spec (S a) i), (Nat.leb_spec a i),
        (Nat.ltb_spec i (S a + n)), (Nat.ltb_spec i (a + S n)); cbn; try reflexivity; lia.
Qed.

Lemma is_same_impl_seq (T : list stored_type) (i : nat) (id : type_id_t) (a n : nat) :
  is_same_impl T i id (seq a n)
  = (a <=? i)%nat && (i <? a + n)%nat
    && match T !! i with
       | Some tC => bool_decide (type_id (of_type tC) = id)
       | None => false
       end.
Proof.
  revert a. induction n as [|n IH]; intros a; cbn [seq is_same_impl].
  - destruct (Nat.leb_spec a i), (Nat.ltb_spec i (a + 0)); cbn; try reflexivity; lia.
  - destruct (Nat.eqb_spec i a) as [->|Hne].
    + rewrite Nat.leb_refl. destruct (Nat.ltb_spec a (a + S n)); [reflexivity | lia].
    + rewrite IH.
      destruct (Nat.leb_spec (S a) i), (Nat.leb_spec a i),
        (Nat.ltb_spec i (S a + n)), (Nat.ltb_spec i (a + S n)); cbn; try reflexivity; lia.
Qed.

Lemma nth_lookup_value (i : nat) (t : list (option value)) :
  has_value_ (nth i t None) = match t !! i with Some (Some _) => true | _ => false end.
Proof.
  revert i. induction t as [|x t IH]; intros [|i]; cbn; try reflexivity.
  apply IH.
Qed.

Lemma ith_get_spec (i : nat) (t : list (option value)) :
  ith_get i t = if (i <? length t)%nat then Some i else None.
Proof. unfold ith_get. rewrite get_impl_seq. reflexivity. Qed.

Lemma ith_has_value_spec (i : nat) (t : list (option value)) :
  ith_has_value i t = match t !! i with Some (Some _) => true | _ => false end.
Proof.
  unfold ith_has_value. rewrite has_value_impl_seq, nth_lookup_value.
  change (0 <=? i)%nat with true. change (0 + length t)%nat with (length t).
  destruct (Nat.ltb_spec i (length t)) as [Hlt|Hge]; [reflexivity|].
  now rewrite (lookup_ge_None_2 t i) by lia.
Qed.

Lemma ith_is_same_spec (T : list stored_type) (i : nat) (id : type_id_t) :
  ith_is_same T i id
  = match T !! i with
    | Some tC => bool_decide (type_id (of_type tC) = id)
    | None => false
    end.
Proof.
  unfold ith_is_same. rewrite is_same_impl_seq.
  change (0 <=? i)%nat with true. change (0 + length T)%nat with (length T).
  destruct (Nat.ltb_spec i (length T)) as [Hlt|Hge]; [reflexivity|].
  now rewrite (lookup_ge_None_2 T i) by lia.
Qed.

(** X6: on a tuple that is not empty the three [ith_element] recursions
    reach exactly the slot with the asked index: out of range [get]
    answers null and the other two answer false, in range they look at
    slot [i] and no other. *)
Theorem ith_element_reaches_slot
  (i : nat) (t : list (option value)) (T : list stored_type) (id : type_id_t) :
  (0 < length t)%nat -> (0 < length T)%nat ->
  ith_get i t = (if (i <? length t)%nat then Some i else None)
  /\ ith_has_value i t = match t !! i with Some (Some _) => true | _ => false end
  /\ ith_is_same T i id
     = match T !! i with
       | Some tC => bool_decide (type_id (of_type tC) = id)
       | None => false
       end.
Proof.
  intros _ _.
  split; [apply ith_get_spec|]. split; [apply ith_has_value_spec | apply ith_is_same_spec].
Qed.

(** Slot [1] of a tuple of two. *)
Lemma ith_element_reaches_slot_witness :
  ith_get 1 [Some 5; None] = Some 1%nat
  /\ ith_has_value 1 [Some 5; None] = false
  /\ ith_is_same [as_is int_; as_is int_lvalue] 1 (type_id (of_type (as_is int_lvalue)))
     = true.
Proof.
  apply (ith_element_reaches_slot 1 [Some 5; None] [as_is int_; as_is int_lvalue]
           (type_id (of_type (as_is int_lvalue)))).
  - cbn. lia.
  - cbn. lia.
Defined.

(** X7: [has_values] holds exactly when every slot of the tuple holds a
    value. *)
Theorem has_values_every_slot (t : list (option value)) :
  (0 < length t)%nat ->
  (has_values t = true <->
   forall i, (i < length t)%nat -> ith_has_value i t = true).
Proof.
  intros _.
  rewrite has_values_forallb.
  assert (Hslot : forall i, ith_has_value i t
                            = match t !! i with Some (Some _) => true | _ => false end)
    by (intros i; apply ith_has_value_spec).
  setoid_rewrite Hslot. clear Hslot.
  induction t as [|x t IH]; cbn [forallb length].
  - split; [intros _ i Hi; lia | reflexivity].
  - rewrite andb_true_iff, IH. split.
    + intros [Hx Ht] [|i] Hi; cbn; [now destruct x | apply Ht; lia].
    + intros Hall. split.
      * specialize (Hall 0%nat ltac:(lia)). cbn in Hall. now destruct x.
      * intros i Hi. apply (Hall (S i)). lia.
Qed.

(** A tuple of two with the second slot empty. *)
Lemma has_values_every_slot_witness :
  has_values [Some 5; None] = true
  <-> forall i, (i < 2)%nat -> ith_has_value i [Some 5; None] = true.
Proof.
  apply (has_values_every_slot [Some 5; None]).
  cbn. lia.
Defined.

(** *** Calls through a handle that leave the memory as it was *)

Lemma call_with_answer rev h mg l c σ a id arg p :
  points_to σ h mg l c ->
  core_manager rev mg a c id arg = answer p c ->
  call_with rev h a id arg σ = Ok (p, None) σ.
Proof.
  intros Hp Hcore. rewrite (call_with_at _ _ _ _ _ _ _ _ _ Hp), Hcore. cbn.
  rewrite put_same; [reflexivity | apply Hp].
Qed.

Lemma ask_at rev h mg l c σ a id arg p :
  points_to σ h mg l c ->
  core_manager rev mg a c id arg = answer p c ->
  ask rev h a id arg σ = Ok (has_value_ p) σ.
Proof.
  intros Hp Hcore. unfold ask, bind.
  now rewrite (call_with_answer _ _ _ _ _ _ _ _ _ _ Hp Hcore).
Qed.

Lemma points_to_taken σ h mg l c :
  points_to σ h mg l c ->
  points_to (put l (Some (taken c)) [] σ) h mg l (taken c).
Proof. intros Hp. eapply points_to_put; [eassumption | apply context_type_taken]. Qed.

Lemma unlock_at rev σ h mg l c s evs :
  points_to σ h mg l c -> held c = false ->
  call_with rev h unlock_call null_id None (put l (Some (with_base s (taken c))) evs σ)
  = Ok (Some to_context, None) (put l (Some (with_base s c)) evs σ).
Proof.
  intros Hp Hheld.
  assert (Hp' : points_to (put l (Some (with_base s (taken c))) evs σ) h mg l
                  (with_base s (taken c))).
  { eapply points_to_put; [eassumption | apply context_type_taken]. }
  rewrite (call_with_at _ _ _ _ _ _ _ _ _ Hp').
  rewrite core_unlock_call by (assumption || apply Hp). cbn.
  now rewrite put_put, app_nil_r.
Qed.

(** A guarded body that returns: the guard takes the lock, the body runs
    and the lock is given back. *)
Lemma guarded_run {A} rev σ h mg l c (body : M A) a s evs :
  points_to σ h mg l c -> held c = false ->
  body (put l (Some (taken c)) [] σ)
  = Ok a (put l (Some (with_base s (taken c))) evs σ) ->
  guarded rev h body σ = Ok a (put l (Some (with_base s c)) evs σ).
Proof.
  intros Hp Hheld Hbody.
  rewrite (guarded_at _ _ _ _ _ _ _ Hp Hheld). unfold at_scope_exit. rewrite Hbody.
  unfold bind. now rewrite (unlock_at _ _ _ _ _ _ _ _ Hp Hheld).
Qed.

Lemma guarded_thrown {A} rev σ h mg l c (body : M A) e s evs :
  points_to σ h mg l c -> held c = false ->
  body (put l (Some (taken c)) [] σ)
  = Thrown e (put l (Some (with_base s (taken c))) evs σ) ->
  guarded rev h body σ = Thrown e (put l (Some (with_base s c)) evs σ).
Proof.
  intros Hp Hheld Hbody.
  rewrite (guarded_at _ _ _ _ _ _ _ Hp Hheld). unfold at_scope_exit. rewrite Hbody.
  unfold bind. now rewrite (unlock_at _ _ _ _ _ _ _ _ Hp Hheld).
Qed.

Lemma put_taken_same σ h mg l c :
  points_to σ h mg l c ->
  put l (Some (with_base (ctx_base c) (taken c))) [] σ = put l (Some (taken c)) [] σ.
Proof. intros _. now rewrite <- ctx_base_taken, with_base_same. Qed.

(** A guarded body that only looks returns its answer in the memory it
    started from. *)
Lemma guarded_look {A} rev σ h mg l c (body : M A) a :
  points_to σ h mg l c -> held c = false ->
  (forall σ1, points_to σ1 h mg l (taken c) -> body σ1 = Ok a σ1) ->
  guarded rev h body σ = Ok a σ.
Proof.
  intros Hp Hheld Hbody.
  rewrite (guarded_run rev σ h mg l c body a (ctx_base c) [] Hp Hheld).
  - rewrite with_base_same. f_equal. apply put_same, Hp.
  - rewrite (put_taken_same _ _ _ _ _ Hp). apply Hbody. now apply points_to_taken.
Qed.

Lemma guarded_look_thrown {A} rev σ h mg l c (body : M A) e :
  points_to σ h mg l c -> held c = false ->
  (forall σ1, points_to σ1 h mg l (taken c) -> body σ1 = Thrown e σ1) ->
  guarded rev h body σ = Thrown e σ.
Proof.
  intros Hp Hheld Hbody.
  rewrite (guarded_thrown rev σ h mg l c body e (ctx_base c) [] Hp Hheld).
  - rewrite with_base_same. f_equal. apply put_same, Hp.
  - rewrite (put_taken_same _ _ _ _ _ Hp). apply Hbody. now apply points_to_taken.
Qed.

(** The answers of the asking actions. *)
Lemma core_answer_if rev mg c a id arg b :
  context_type (own c) = mg_context mg ->
  match a with
  | has_result => b = has_value_ (m_result (ctx_base c))
  | has_exception => b = has_value_ (m_exception (ctx_base c))
  | has_anything => rev = plain /\ b = has_anything_ (ctx_base c)
  | has_all_arguments =>
      rev = with_references /\ b = has_values (m_arguments (ctx_base c))
  | has_argument =>
      exists i_, arg = Some i_ /\ b = ith_has_value i_ (m_arguments (ctx_base c))
  | check_argument_type =>
      exists i_, arg = Some i_
                 /\ b = ith_is_same (map (function_argument rev) (mg_args mg)) i_ id
  | _ => False
  end ->
  core_manager rev mg a c id arg = answer_if b c.
Proof.
  intros Htype Hb. unfold core_manager. rewrite cast_ok by assumption. cbn.
  destruct a; try contradiction; try (now subst b).
  - destruct Hb as [-> ->]. reflexivity.
  - destruct Hb as (i_ & -> & ->). reflexivity.
  - destruct Hb as (i_ & -> & ->). reflexivity.
  - destruct Hb as [-> ->]. reflexivity.
Qed.

Lemma ask_if rev h mg l c σ a id arg b :
  points_to σ h mg l c ->
  core_manager rev mg a c id arg = answer_if b c ->
  ask rev h a id arg σ = Ok b σ.
Proof.
  intros Hp Hcore. unfold answer_if in Hcore.
  rewrite (ask_at _ _ _ _ _ _ _ _ _ _ Hp Hcore). now destruct b.
Qed.

Lemma completed_at_cell rev σ h mg l c :
  points_to σ h mg l c ->
  completed rev h σ = Ok (has_anything_ (ctx_base c)) σ.
Proof.
  intros Hp. pose proof Hp as (_ & _ & _ & Htype). unfold completed, has_anything_.
  destruct rev.
  - apply (ask_if _ _ _ _ _ _ _ _ _ _ Hp). now apply core_answer_if.
  - unfold bind.
    rewrite (ask_if _ _ _ _ _ _ _ _ _ (has_value_ (m_result (ctx_base c))) Hp)
      by now apply core_answer_if.
    destruct (has_value_ (m_result (ctx_base c))); [reflexivity|].
    apply (ask_if _ _ _ _ _ _ _ _ _ _ Hp). now apply core_answer_if.
Qed.

Lemma prepared_at_cell σ h mg l c :
  points_to σ h mg l c ->
  prepared with_references h σ = Ok (is_prepared (ctx_base c)) σ.
Proof.
  intros Hp. pose proof Hp as (_ & _ & _ & Htype).
  unfold prepared, is_prepared, has_anything_, bind.
  rewrite (ask_if _ _ _ _ _ _ _ _ _ (has_values (m_arguments (ctx_base c))) Hp)
    by now apply core_answer_if.
  destruct (has_values (m_arguments (ctx_base c))); [|reflexivity].
  rewrite (ask_if _ _ _ _ _ _ _ _ _ (has_value_ (m_result (ctx_base c))) Hp)
    by now apply core_answer_if.
  destruct (has_value_ (m_result (ctx_base c))); [reflexivity|].
  rewrite (ask_if _ _ _ _ _ _ _ _ _ (has_value_ (m_exception (ctx_base c))) Hp)
    by now apply core_answer_if.
  reflexivity.
Qed.

Lemma has_argument_at_cell rev σ h mg l c n :
  points_to σ h mg l c ->
  af_has_argument rev h n σ
  = Ok (match m_arguments (ctx_base c) !! n with Some (Some _) => true | _ => false end) σ.
Proof.
  intros Hp. pose proof Hp as (_ & _ & _ & Htype). unfold af_has_argument.
  rewrite <- ith_has_value_spec.
  apply (ask_if _ _ _ _ _ _ _ _ _ _ Hp). apply core_answer_if; [assumption|]. eauto.
Qed.

Lemma argument_count_at_cell rev σ h mg l c :
  points_to σ h mg l c ->
  argument_count rev h σ = Ok (length (mg_args mg)) σ.
Proof.
  intros Hp. pose proof Hp as (_ & _ & Hheap & Htype). unfold argument_count, bind.
  rewrite (call_with_at _ _ _ _ _ _ _ _ _ Hp). unfold core_manager.
  rewrite cast_ok by assumption. cbn. now rewrite put_same.
Qed.

(** X8: asked of a cell whose lock is free, the observers of
    [any_function] answer the state of its slots and give the memory back
    exactly as it was. *)
Theorem observers_answer_the_slots
  (rev : revision) (σ : machine) (h : af_ctx_manager) (mg : manager)
  (l : nat) (c : context) (n : nat) :
  points_to σ h mg l c -> held c = false ->
  af_has_result rev h σ = Ok (has_value_ (m_result (ctx_base c))) σ
  /\ af_has_exception rev h σ = Ok (has_value_ (m_exception (ctx_base c))) σ
  /\ af_has_anything rev h σ = Ok (has_anything_ (ctx_base c)) σ
  /\ af_is_prepared h σ = Ok (is_prepared (ctx_base c)) σ
  /\ af_has_arguments h σ = Ok (has_values (m_arguments (ctx_base c))) σ
  /\ af_has_argument rev h n σ
     = Ok (match m_arguments (ctx_base c) !! n with Some (Some _) => true | _ => false end) σ
  /\ argument_count rev h σ = Ok (length (mg_args mg)) σ.
Proof.
  intros Hp Hheld. pose proof Hp as (_ & _ & _ & Htype).
  assert (Htaken : context_type (own (taken c)) = mg_context mg)
    by now rewrite context_type_taken.
  repeat apply conj.
  - apply (guarded_look _ _ _ _ _ _ _ _ Hp Hheld). intros σ1 Hp1.
    rewrite <- (ctx_base_taken c).
    apply (ask_if _ _ _ _ _ _ _ _ _ _ Hp1). now apply core_answer_if.
  - apply (guarded_look _ _ _ _ _ _ _ _ Hp Hheld). intros σ1 Hp1.
    rewrite <- (ctx_base_taken c).
    apply (ask_if _ _ _ _ _ _ _ _ _ _ Hp1). now apply core_answer_if.
  - apply (guarded_look _ _ _ _ _ _ _ _ Hp Hheld). intros σ1 Hp1.
    rewrite <- (ctx_base_taken c). apply (completed_at_cell _ _ _ _ _ _ Hp1).
  - apply (guarded_look _ _ _ _ _ _ _ _ Hp Hheld). intros σ1 Hp1.
    rewrite <- (ctx_base_taken c). apply (prepared_at_cell _ _ _ _ _ Hp1).
  - apply (ask_if _ _ _ _ _ _ _ _ _ _ Hp). now apply core_answer_if.
  - apply (has_argument_at_cell _ _ _ _ _ _ _ Hp).
  - apply (argument_count_at_cell _ _ _ _ _ _ Hp).
Qed.

(** The observers on a completed [successor] cell behind a spin lock. *)
Lemma observers_answer_the_slots_witness :
  af_has_result plain (handle_to 0 (successor_manager spinlock_tag))
    (one_cell (successor_context spinlock_tag 1 (Some 5) (Some 6) None))
  = Ok true (one_cell (successor_context spinlock_tag 1 (Some 5) (Some 6) None))
  /\ af_has_exception plain (handle_to 0 (successor_manager spinlock_tag))
       (one_cell (successor_context spinlock_tag 1 (Some 5) (Some 6) None))
     = Ok false (one_cell (successor_context spinlock_tag 1 (Some 5) (Some 6) None))
  /\ af_has_anything plain (handle_to 0 (successor_manager spinlock_tag))
       (one_cell (successor_context spinlock_tag 1 (Some 5) (Some 6) None))
     = Ok true (one_cell (successor_context spinlock_tag 1 (Some 5) (Some 6) None))
  /\ af_is_prepared (handle_to 0 (successor_manager spinlock_tag))
       (one_cell (successor_context spinlock_tag 1 (Some 5) (Some 6) None))
     = Ok false (one_cell (successor_context spinlock_tag 1 (Some 5) (Some 6) None))
  /\ af_has_arguments (handle_to 0 (successor_manager spinlock_tag))
       (one_cell (successor_context spinlock_tag 1 (Some 5) (Some 6) None))
     = Ok true (one_cell (successor_context spinlock_tag 1 (Some 5) (Some 6) None))
  /\ af_has_argument plain (handle_to 0 (successor_manager spinlock_tag)) 0
       (one_cell (successor_context spinlock_tag 1 (Some 5) (Some 6) None))
     = Ok true (one_cell (successor_context spinlock_tag 1 (Some 5) (Some 6) None))
  /\ argument_count plain (handle_to 0 (successor_manager spinlock_tag))
       (one_cell (successor_context spinlock_tag 1 (Some 5) (Some 6) None))
     = Ok 1%nat (one_cell (successor_context spinlock_tag 1 (Some 5) (Some 6) None)).
Proof.
  apply (observers_answer_the_slots plain
           (one_cell (successor_context spinlock_tag 1 (Some 5) (Some 6) None))
           (handle_to 0 (successor_manager spinlock_tag))
           (successor_manager spinlock_tag) 0
           (successor_context spinlock_tag 1 (Some 5) (Some 6) None) 0).
  - repeat split.
  - reflexivity.
Defined.

Lemma guarded_held {A} rev σ h mg l c (body : M A) :
  points_to σ h mg l c -> held c = true -> guarded rev h body σ = Blocked.
Proof.
  intros Hp Hheld. pose proof Hp as (_ & _ & _ & Htype).
  unfold guarded, ask, bind. rewrite (call_with_at _ _ _ _ _ _ _ _ _ Hp).
  unfold core_manager. rewrite cast_ok by assumption. cbn.
  unfold held in Hheld. unfold lock.
  destruct (own c) as [| |flag|[mu]]; try discriminate; cbn in Hheld; now rewrite Hheld.
Qed.

(** X9: while the lock of the context is taken, everything that goes
    through a [call_guard] waits for it (here: for ever), and the two
    observers without a guard answer all the same. *)
Theorem guard_waits_for_the_lock
  (rev : revision) (σ : machine) (h : af_ctx_manager) (mg : manager)
  (l : nat) (c : context) (args : list (cpp_type * value)) (n : nat) :
  points_to σ h mg l c -> held c = true ->
  af_has_result rev h σ = Blocked
  /\ af_has_exception rev h σ = Blocked
  /\ af_has_anything rev h σ = Blocked
  /\ af_is_prepared h σ = Blocked
  /\ call_stored rev h σ = Blocked
  /\ call_operator rev h args σ = Blocked
  /\ af_has_argument rev h n σ
     = Ok (match m_arguments (ctx_base c) !! n with Some (Some _) => true | _ => false end) σ
  /\ argument_count rev h σ = Ok (length (mg_args mg)) σ.
Proof.
  intros Hp Hheld.
  repeat apply conj; try (apply (guarded_held _ _ _ _ _ _ _ Hp Hheld)).
  - apply (has_argument_at_cell _ _ _ _ _ _ _ Hp).
  - apply (argument_count_at_cell _ _ _ _ _ _ Hp).
Qed.

(** A call on a [successor] cell whose spin lock is taken. *)
Lemma guard_waits_for_the_lock_witness :
  call_stored plain (handle_to 0 (successor_manager spinlock_tag))
    (one_cell (taken (successor_context spinlock_tag 1 (Some 5) None None)))
  = Blocked.
Proof.
  refine (proj1 (proj2 (proj2 (proj2 (proj2
            (guard_waits_for_the_lock plain
               (one_cell (taken (successor_context spinlock_tag 1 (Some 5) None None)))
               (handle_to 0 (successor_manager spinlock_tag))
               (successor_manager spinlock_tag) 0
               (taken (successor_context spinlock_tag 1 (Some 5) None None))
               [] 0%nat _ _)))))).
  - repeat split.
  - reflexivity.
Defined.

Lemma lookup_map {A B} (f : A -> B) (xs : list A) (n : nat) :
  map f xs !! n = f <$> xs !! n.
Proof.
  revert n. induction xs as [|x xs IH]; intros [|n]; cbn; try reflexivity. apply IH.
Qed.

Lemma is_argument_of_type_at rev σ h mg l c T n :
  points_to σ h mg l c ->
  is_argument_of_type rev h T n σ
  = Ok (bool_decide (function_argument rev <$> mg_args mg !! n
                     = Some (asked_argument rev T))) σ.
Proof.
  intros Hp. pose proof Hp as (_ & _ & _ & Htype). unfold is_argument_of_type.
  rewrite (ask_if _ _ _ _ _ _ _ _ _ _ Hp
             (core_answer_if _ _ _ check_argument_type _ _ _ Htype
                (ex_intro _ n (conj eq_refl eq_refl)))).
  f_equal. rewrite ith_is_same_spec, lookup_map.
  destruct (mg_args mg !! n) as [A|]; cbn.
  - unfold type_id. apply bool_decide_ext. split; intros E; congruence.
  - symmetry. now apply bool_decide_eq_false.
Qed.

(** X10: [is_argument_of_type<T>(n)] never changes the memory, is false out
    of range, and compares the stored type of parameter [n] with [T] as
    written in [plain] (so a declared parameter type is recognised only
    when it is already decayed) and with [function_argument<T>] in
    [with_references] (so the declared type is always recognised). *)
Theorem argument_type_test
  (rev : revision) (σ : machine) (h : af_ctx_manager) (mg : manager)
  (l : nat) (c : context) (T : cpp_type) (n : nat) :
  points_to σ h mg l c ->
  is_argument_of_type rev h T n σ
  = Ok (bool_decide (function_argument rev <$> mg_args mg !! n
                     = Some (asked_argument rev T))) σ
  /\ ((length (mg_args mg) <= n)%nat -> is_argument_of_type rev h T n σ = Ok false σ)
  /\ (forall P, mg_args mg !! n = Some P ->
        is_argument_of_type rev h P n σ
        = Ok (match rev with
              | plain => bool_decide (decay P = P)
              | with_references => true
              end) σ).
Proof.
  intros Hp. split; [apply (is_argument_of_type_at _ _ _ _ _ _ _ _ Hp)|]. split.
  - intros Hn. rewrite (is_argument_of_type_at _ _ _ _ _ _ _ _ Hp).
    rewrite (lookup_ge_None_2 _ _ Hn). reflexivity.
  - intros P HP. rewrite (is_argument_of_type_at _ _ _ _ _ _ _ _ Hp), HP. cbn. f_equal.
    destruct rev; cbn.
    + apply bool_decide_ext. split; intros E; congruence.
    + now apply bool_decide_eq_true.
Qed.

(** [is_argument_of_type<int>(0)] on a [successor] cell. *)
Lemma argument_type_test_witness :
  is_argument_of_type with_references (handle_to 0 (successor_manager unsafe_tag)) int_ 0
    (one_cell (successor_context unsafe_tag 1 None None None))
  = Ok true (one_cell (successor_context unsafe_tag 1 None None None)).
Proof.
  refine (proj2 (proj2
            (argument_type_test with_references
               (one_cell (successor_context unsafe_tag 1 None None None))
               (handle_to 0 (successor_manager unsafe_tag))
               (successor_manager unsafe_tag) 0
               (successor_context unsafe_tag 1 None None None) int_ 0%nat _))
            int_ eq_refl).
  repeat split.
Defined.

Lemma core_get_argument rev mg c id n :
  context_type (own c) = mg_context mg ->
  core_manager rev mg get_argument c id (Some n)
  = answer (if (n <? length (m_arguments (ctx_base c)))%nat
            then Some (to_argument n) else None) c.
Proof.
  intros Htype. unfold core_manager. rewrite cast_ok by assumption. cbn -[Nat.ltb].
  rewrite ith_get_spec. destruct (n <? length (m_arguments (ctx_base c)))%nat; reflexivity.
Qed.

Lemma core_get_result rev mg c id arg :
  context_type (own c) = mg_context mg ->
  core_manager rev mg get_result c id arg = answer (Some to_result) c.
Proof.
  intros Htype. unfold core_manager. now rewrite cast_ok by assumption.
Qed.

Lemma core_get_exception rev mg c id arg :
  context_type (own c) = mg_context mg ->
  core_manager rev mg get_exception c id arg = answer (Some to_exception) c.
Proof.
  intros Htype. unfold core_manager. now rewrite cast_ok by assumption.
Qed.

(** X11: [argument_cast<T>(af, n)] gives the place of slot [n] when the
    stored type of parameter [n] is the asked one and throws
    [bad_type_cast] otherwise, also for an index out of range; the
    pointer form answers null instead.  Neither changes the memory. *)
Theorem argument_cast_checks_type
  (rev : revision) (σ : machine) (h : af_ctx_manager) (mg : manager)
  (l : nat) (c : context) (T : cpp_type) (n : nat) :
  points_to σ h mg l c -> held c = false ->
  length (m_arguments (ctx_base c)) = length (mg_args mg) ->
  argument_cast rev T h n σ
  = (if bool_decide (function_argument rev <$> mg_args mg !! n
                     = Some (asked_argument rev T))
     then Ok (to_argument n) σ else Thrown bad_type_cast σ)
  /\ argument_cast_ptr rev T h n σ
     = Ok (if bool_decide (function_argument rev <$> mg_args mg !! n
                           = Some (asked_argument rev T))
           then Some (to_argument n) else None) σ
  /\ ((length (mg_args mg) <= n)%nat ->
      argument_cast rev T h n σ = Thrown bad_type_cast σ).
Proof.
  intros Hp Hheld Hlen. pose proof Hp as (_ & _ & _ & Htype).
  assert (Htaken : context_type (own (taken c)) = mg_context mg)
    by now rewrite context_type_taken.
  assert (Hout : (length (mg_args mg) <= n)%nat ->
                 bool_decide (function_argument rev <$> mg_args mg !! n
                              = Some (asked_argument rev T)) = false).
  { intros Hn. rewrite (lookup_ge_None_2 _ _ Hn). now apply bool_decide_eq_false. }
  assert (Hcast : argument_cast rev T h n σ
    = (if bool_decide (function_argument rev <$> mg_args mg !! n
                       = Some (asked_argument rev T))
       then Ok (to_argument n) σ else Thrown bad_type_cast σ)).
  { unfold argument_cast, bind at 1.
    rewrite (is_argument_of_type_at _ _ _ _ _ _ _ _ Hp).
    case_bool_decide as Hsame; cbn [negb]; [|reflexivity].
    assert (Hn : (n < length (mg_args mg))%nat).
    { destruct (mg_args mg !! n) eqn:E; [|discriminate].
      eapply lookup_lt_Some; eassumption. }
    apply (guarded_look _ _ _ _ _ _ _ _ Hp Hheld). intros σ1 Hp1. unfold bind.
    rewrite (call_with_answer _ _ _ _ _ _ _ _ _ _ Hp1 (core_get_argument _ _ _ _ _ Htaken)).
    rewrite ctx_base_taken, Hlen. cbn -[Nat.ltb].
    destruct (Nat.ltb_spec n (length (mg_args mg))); [reflexivity | lia]. }
  split; [exact Hcast|]. split.
  - unfold argument_cast_ptr, bind at 1.
    rewrite (is_argument_of_type_at _ _ _ _ _ _ _ _ Hp).
    case_bool_decide as Hsame; cbn [negb]; [|reflexivity].
    assert (Hn : (n < length (mg_args mg))%nat).
    { destruct (mg_args mg !! n) eqn:E; [|discriminate].
      eapply lookup_lt_Some; eassumption. }
    apply (guarded_look _ _ _ _ _ _ _ _ Hp Hheld). intros σ1 Hp1. unfold bind.
    rewrite (call_with_answer _ _ _ _ _ _ _ _ _ _ Hp1 (core_get_argument _ _ _ _ _ Htaken)).
    rewrite ctx_base_taken, Hlen. cbn -[Nat.ltb].
    destruct (Nat.ltb_spec n (length (mg_args mg))); [reflexivity | lia].
  - intros Hn. rewrite Hcast. now rewrite (Hout Hn).
Qed.

(** [argument_cast<int>(af, 1)] on a [successor] cell: out of range. *)
Lemma argument_cast_checks_type_witness :
  argument_cast plain int_ (handle_to 0 (successor_manager unsafe_tag)) 1
    (one_cell (successor_context unsafe_tag 1 (Some 5) None None))
  = Thrown bad_type_cast (one_cell (successor_context unsafe_tag 1 (Some 5) None None)).
Proof.
  refine (proj2 (proj2
            (argument_cast_checks_type plain
               (one_cell (successor_context unsafe_tag 1 (Some 5) None None))
               (handle_to 0 (successor_manager unsafe_tag))
               (successor_manager unsafe_tag) 0
               (successor_context unsafe_tag 1 (Some 5) None None) int_ 1%nat _ _ _)) _).
  - repeat split.
  - reflexivity.
  - reflexivity.
  - cbn. lia.
Defined.

(** X12: [result_cast<T>(af)] gives the place of the result slot when the
    stored result type is the one asked for and throws [bad_type_cast]
    otherwise; the pointer form answers null instead.  [plain] asks for
    [T] as written, [with_references] for [function_result<T>].  Neither
    changes the memory. *)
Theorem result_cast_checks_type
  (rev : revision) (σ : machine) (h : af_ctx_manager) (mg : manager)
  (l : nat) (c : context) (T : cpp_type) :
  points_to σ h mg l c -> held c = false -> is_void T = false ->
  result_cast rev T h σ
  = (if bool_decide (function_result rev (mg_result mg) = function_result rev T)
     then Ok to_result σ else Thrown bad_type_cast σ)
  /\ result_cast_ptr rev T h σ
     = Ok (if bool_decide (function_result rev (mg_result mg) = function_result rev T)
           then Some to_result else None) σ
  /\ (rev = plain ->
      (result_cast rev T h σ = Ok to_result σ <-> mg_result mg = T)).
Proof.
  intros Hp Hheld Hvoid. pose proof Hp as (_ & _ & _ & Htype).
  assert (Htaken : context_type (own (taken c)) = mg_context mg)
    by now rewrite context_type_taken.
  assert (Hask : is_result_of_type rev h T σ
                 = Ok (bool_decide (function_result rev (mg_result mg)
                                    = function_result rev T)) σ).
  { unfold is_result_of_type. apply (ask_if _ _ _ _ _ _ _ _ _ _ Hp).
    now apply core_check_result_type. }
  assert (Hcast : result_cast rev T h σ
    = (if bool_decide (function_result rev (mg_result mg) = function_result rev T)
       then Ok to_result σ else Thrown bad_type_cast σ)).
  { unfold result_cast, bind at 1. rewrite Hask.
    case_bool_decide as Hsame; cbn [negb]; [|reflexivity].
    apply (guarded_look _ _ _ _ _ _ _ _ Hp Hheld). intros σ1 Hp1. unfold bind.
    now rewrite (call_with_answer _ _ _ _ _ _ _ _ _ _ Hp1 (core_get_result _ _ _ _ _ Htaken)). }
  split; [exact Hcast|]. split.
  - unfold result_cast_ptr, bind at 1. rewrite Hask.
    case_bool_decide as Hsame; cbn [negb]; [|reflexivity].
    apply (guarded_look _ _ _ _ _ _ _ _ Hp Hheld). intros σ1 Hp1. unfold bind.
    now rewrite (call_with_answer _ _ _ _ _ _ _ _ _ _ Hp1 (core_get_result _ _ _ _ _ Htaken)).
  - intros ->. unfold function_result in Hcast. rewrite Hcast. clear Hcast Hask.
    case_bool_decide as Hsame.
    + split; [intros _; now injection Hsame | reflexivity].
    + split; [discriminate | intros E; destruct Hsame; now rewrite E].
Qed.

(** [result_cast<const int>(af)] on a [successor] cell, in [plain]. *)
Lemma result_cast_checks_type_witness :
  result_cast plain const_int (handle_to 0 (successor_manager unsafe_tag))
    (one_cell (successor_context unsafe_tag 1 (Some 5) (Some 6) None))
  = Thrown bad_type_cast (one_cell (successor_context unsafe_tag 1 (Some 5) (Some 6) None)).
Proof.
  refine (proj1
            (result_cast_checks_type plain
               (one_cell (successor_context unsafe_tag 1 (Some 5) (Some 6) None))
               (handle_to 0 (successor_manager unsafe_tag))
               (successor_manager unsafe_tag) 0
               (successor_context unsafe_tag 1 (Some 5) (Some 6) None) const_int _ _ _)).
  - repeat split.
  - reflexivity.
  - reflexivity.
Defined.

Lemma rethrow_at rev σ h mg l c :
  points_to σ h mg l c ->
  rethrow rev h σ
  = match m_exception (ctx_base c) with
    | Some e => Thrown (rethrown e) σ
    | None => Undefined_behaviour
    end.
Proof.
  intros Hp. pose proof Hp as (_ & Hctx & Hheap & Htype). unfold rethrow, bind.
  rewrite (call_with_answer _ _ _ _ _ _ _ _ _ _ Hp (core_get_exception _ _ _ _ _ Htype)).
  unfold read_exception. rewrite Hctx, Hheap.
  now destruct (m_exception (ctx_base c)).
Qed.

(** X13: [rethrow()] throws the stored exception, leaving the memory as it
    was, exactly when [has_exception()] answers true; with no exception
    stored its behaviour is undefined. *)
Theorem rethrow_needs_an_exception
  (rev : revision) (σ : machine) (h : af_ctx_manager) (mg : manager)
  (l : nat) (c : context) :
  points_to σ h mg l c -> held c = false ->
  (forall e, m_exception (ctx_base c) = Some e ->
     af_has_exception rev h σ = Ok true σ
     /\ rethrow rev h σ = Thrown (rethrown e) σ)
  /\ (m_exception (ctx_base c) = None ->
      af_has_exception rev h σ = Ok false σ
      /\ rethrow rev h σ = Undefined_behaviour).
Proof.
  intros Hp Hheld. pose proof Hp as (_ & _ & _ & Htype).
  assert (Hhas : af_has_exception rev h σ
                 = Ok (has_value_ (m_exception (ctx_base c))) σ).
  { apply (guarded_look _ _ _ _ _ _ _ _ Hp Hheld). intros σ1 Hp1.
    rewrite <- (ctx_base_taken c).
    apply (ask_if _ _ _ _ _ _ _ _ _ _ Hp1). apply core_answer_if; [|reflexivity].
    now rewrite context_type_taken. }
  rewrite Hhas, (rethrow_at _ _ _ _ _ _ Hp).
  split; [intros e He | intros He]; rewrite He; auto.
Qed.

(** [rethrow()] on a cell that was called with its argument missing. *)
Lemma rethrow_needs_an_exception_witness :
  af_has_exception plain (handle_to 0 (successor_manager unsafe_tag))
    (one_cell (successor_context unsafe_tag 1 None None (Some missing_argument)))
  = Ok true (one_cell (successor_context unsafe_tag 1 None None (Some missing_argument)))
  /\ rethrow plain (handle_to 0 (successor_manager unsafe_tag))
       (one_cell (successor_context unsafe_tag 1 None None (Some missing_argument)))
     = Thrown (rethrown missing_argument)
         (one_cell (successor_context unsafe_tag 1 None None (Some missing_argument))).
Proof.
  refine (proj1
            (rethrow_needs_an_exception plain
               (one_cell (successor_context unsafe_tag 1 None None (Some missing_argument)))
               (handle_to 0 (successor_manager unsafe_tag))
               (successor_manager unsafe_tag) 0
               (successor_context unsafe_tag 1 None None (Some missing_argument)) _ _)
            missing_argument eq_refl).
  - repeat split.
  - reflexivity.
Defined.

(** *** The call *)

Lemma is_prepared_split s :
  is_prepared s = true ->
  has_values (m_arguments s) = true /\ has_anything_ s = false
  /\ m_exception s = None /\ m_result s = None.
Proof.
  unfold is_prepared, has_anything_. intros H.
  apply andb_true_iff in H as [Hargs Hnone]. apply negb_true_iff in Hnone.
  pose proof Hnone as Hboth. apply orb_false_iff in Hboth as [Hr He].
  repeat split; try assumption.
  - now destruct (m_exception s).
  - now destruct (m_result s).
Qed.

Lemma call_case_prepared R rev c f :
  is_prepared (ctx_base c) = true ->
  m_callable (ctx_base c) = Some f ->
  call_case R rev c
  = match f (argument_values (m_arguments (ctx_base c))) with
    | returned v =>
        Replied {| r_pointer := Some to_context;
                   r_context :=
                     Some (with_base
                             (with_result
                                (Some match rev with
                                      | with_references =>
                                          if is_void R then as_void_value else v
                                      | plain => v
                                      end) (ctx_base c)) c);
                   r_out := None;
                   r_events := lock_waitable (own c)
                               ++ [ev_invoke (argument_values (m_arguments (ctx_base c)))]
                               ++ unlock_waitable (own c) ++ notify (own c) |}
    | raised e =>
        Replied {| r_pointer := None;
                   r_context := Some (with_base (with_exception (Some e) (ctx_base c)) c);
                   r_out := None;
                   r_events := lock_waitable (own c)
                               ++ [ev_invoke (argument_values (m_arguments (ctx_base c)))]
                               ++ unlock_waitable (own c) ++ notify (own c) |}
    end.
Proof.
  intros Hprep Hf. apply is_prepared_split in Hprep as (Hargs & Hnone & He & Hr).
  unfold call_case. rewrite Hargs, Hnone, Hf. cbn [negb].
  destruct (f (argument_values (m_arguments (ctx_base c)))) as [v|e]; [reflexivity|].
  unfold store_exception. now rewrite He.
Qed.

(** The [call] action asked through a handle whose guard holds the lock. *)
Lemma ask_call_prepared rev σ h mg l c f :
  points_to σ h mg l c -> held c = false ->
  is_prepared (ctx_base c) = true ->
  m_callable (ctx_base c) = Some f ->
  ask rev h call null_id None (put l (Some (taken c)) [] σ)
  = match f (argument_values (m_arguments (ctx_base c))) with
    | returned v =>
        Ok true
          (put l (Some (with_base
                          (with_result
                             (Some match rev with
                                   | with_references =>
                                       if is_void (mg_result mg) then as_void_value else v
                                   | plain => v
                                   end) (ctx_base c)) (taken c)))
             (lock_waitable (own c)
              ++ [ev_invoke (argument_values (m_arguments (ctx_base c)))]
              ++ unlock_waitable (own c) ++ notify (own c)) σ)
    | raised e =>
        Ok false
          (put l (Some (with_base (with_exception (Some e) (ctx_base c)) (taken c)))
             (lock_waitable (own c)
              ++ [ev_invoke (argument_values (m_arguments (ctx_base c)))]
              ++ unlock_waitable (own c) ++ notify (own c)) σ)
    end.
Proof.
  intros Hp Hheld Hprep Hf. pose proof (points_to_taken _ _ _ _ _ Hp) as Hp1.
  pose proof Hp1 as (_ & _ & _ & Htype1).
  unfold ask, bind. rewrite (call_with_at _ _ _ _ _ _ _ _ _ Hp1).
  rewrite (core_call _ _ _ _ _ Htype1).
  rewrite (call_case_prepared _ _ _ f) by (rewrite ctx_base_taken; assumption).
  rewrite ctx_base_taken.
  destruct (events_taken c) as (-> & -> & ->).
  destruct (f (argument_values (m_arguments (ctx_base c)))) as [v|e]; cbn;
    now rewrite put_put.
Qed.

Lemma call_stored_prepared
  (rev : revision) (σ : machine) (h : af_ctx_manager) (mg : manager)
  (l : nat) (c : context) (f : callable) :
  points_to σ h mg l c -> held c = false ->
  is_prepared (ctx_base c) = true ->
  m_callable (ctx_base c) = Some f ->
  call_stored rev h σ
  = match f (argument_values (m_arguments (ctx_base c))) with
    | returned v =>
        Ok succeeded
          (put l (Some (with_base
                          (with_result
                             (Some match rev with
                                   | with_references =>
                                       if is_void (mg_result mg) then as_void_value else v
                                   | plain => v
                                   end) (ctx_base c)) c))
             (lock_waitable (own c)
              ++ [ev_invoke (argument_values (m_arguments (ctx_base c)))]
              ++ unlock_waitable (own c) ++ notify (own c)) σ)
    | raised e =>
        Ok exception
          (put l (Some (with_base (with_exception (Some e) (ctx_base c)) c))
             (lock_waitable (own c)
              ++ [ev_invoke (argument_values (m_arguments (ctx_base c)))]
              ++ unlock_waitable (own c) ++ notify (own c)) σ)
    end.
Proof.
  intros Hp Hheld Hprep Hf. unfold call_stored.
  pose proof (ask_call_prepared rev _ _ _ _ _ _ Hp Hheld Hprep Hf) as Hask.
  destruct (f (argument_values (m_arguments (ctx_base c)))) as [v|e].
  - apply (guarded_run _ _ _ _ _ _ _ _ _ _ Hp Hheld). unfold bind. now rewrite Hask.
  - apply (guarded_run _ _ _ _ _ _ _ _ _ _ Hp Hheld). unfold bind. now rewrite Hask.
Qed.



Lemma call_stored_completed rev σ h mg l c :
  points_to σ h mg l c -> held c = false ->
  has_values (m_arguments (ctx_base c)) = true ->
  has_anything_ (ctx_base c) = true ->
  call_stored rev h σ = Ok succeeded (put l (Some c) (notifier_events (own c)) σ).
Proof.
  intros Hp Hheld Hargs Hany. unfold call_stored.
  replace (Some c) with (Some (with_base (ctx_base c) c)) by now rewrite with_base_same.
  apply (guarded_run _ _ _ _ _ _ _ _ _ _ Hp Hheld).
  pose proof (points_to_taken _ _ _ _ _ Hp) as Hp1.
  pose proof Hp1 as (_ & _ & _ & Htype1).
  unfold ask, bind. rewrite (call_with_at _ _ _ _ _ _ _ _ _ Hp1).
  rewrite (core_call _ _ _ _ _ Htype1).
  rewrite call_case_completed by (rewrite ctx_base_taken; assumption). cbn.
  rewrite put_put. cbn. rewrite <- ctx_base_taken, with_base_same.
  unfold notifier_events. now destruct (events_taken c) as (-> & -> & ->).
Qed.

Lemma invocations_app (t1 t2 : list (nat * event)) :
  invocations (t1 ++ t2) = (invocations t1 + invocations t2)%nat.
Proof. unfold invocations. now rewrite filter_app, length_app. Qed.

Lemma invocations_notifier l m :
  invocations (map (pair l) (notifier_events m)) = 0%nat.
Proof. now destruct m. Qed.





Lemma accepted_types rev mg (args : list (cpp_type * value)) :
  bool_decide (type_id (optional_tuple (map (function_argument rev) (mg_args mg)))
               = type_id (optional_tuple (map (fun a => function_argument rev a.1) args)))
  = bool_decide (map (fun a => function_argument rev a.1) args
                 = map (function_argument rev) (mg_args mg)).
Proof.
  apply bool_decide_ext. unfold type_id. split; intros E; [|now rewrite E].
  injection E as E. now symmetry.
Qed.

(** The body of [operator()(args...)] under its guard, up to the
    assignment. *)
Lemma call_operator_body rev σ h mg l c args :
  points_to σ h mg l c -> held c = false ->
  call_operator rev h args σ
  = at_scope_exit
      (if bool_decide (map (fun a => function_argument rev a.1) args
                       = map (function_argument rev) (mg_args mg))
       then
         fun σ1 =>
           (let* ok := call_assigned rev h args in
            ret (if ok then succeeded else exception))
             (put l (Some (with_base
                             (with_arguments (map Some (map snd args)) (ctx_base c))
                             (taken c)))
                (map ev_bind_temporary (bound_to_temporary rev args)) σ)
       else ret arguments_not_accepted)
      (run call_with rev h unlock_call null_id None then ret tt)
      (put l (Some (taken c)) [] σ).
Proof.
  intros Hp Hheld.
  pose proof (points_to_taken _ _ _ _ _ Hp) as Hp1.
  pose proof Hp1 as (_ & _ & _ & Htype1).
  unfold call_operator. rewrite (guarded_at _ _ _ _ _ _ _ Hp Hheld).
  unfold at_scope_exit.
  match goal with
  | |- match ?x with _ => _ end = match ?y with _ => _ end =>
      assert (Hbody : x = y); [|now rewrite Hbody]
  end.
  unfold bind at 1.
  rewrite (call_with_at _ _ _ _ _ _ _ _ _ Hp1).
  rewrite (core_get_argument_storage _ _ _ _ _ Htype1), accepted_types.
  cbn [answer r_pointer r_out r_context r_events fst].
  rewrite put_put. cbn [app].
  case_bool_decide as Hsame; [|reflexivity].
  unfold bind at 1.
  rewrite (assign_arguments_at _ _ _ _ _ _ _ Hp1), put_put. cbn [app].
  now rewrite ctx_base_taken.
Qed.

(** Refused arguments: nothing is touched. *)
Lemma call_operator_refused rev σ h mg l c args :
  points_to σ h mg l c -> held c = false ->
  map (fun a => function_argument rev a.1) args
  <> map (function_argument rev) (mg_args mg) ->
  call_operator rev h args σ = Ok arguments_not_accepted σ.
Proof.
  intros Hp Hheld Hdiff.
  rewrite (call_operator_body _ _ _ _ _ _ _ Hp Hheld).
  rewrite bool_decide_eq_false_2 by assumption.
  unfold at_scope_exit, ret, bind.
  rewrite <- (put_taken_same _ _ _ _ _ Hp).
  rewrite (unlock_at _ _ _ _ _ _ _ _ Hp Hheld), with_base_same.
  f_equal. apply put_same, Hp.
Qed.

(** Accepted arguments none of which is bound to the temporary:
    [operator()(args...)] is: write the arguments into the cell, then
    [operator()()]. *)
Lemma call_operator_accepted rev σ h mg l c args :
  points_to σ h mg l c -> held c = false ->
  map (fun a => function_argument rev a.1) args
  = map (function_argument rev) (mg_args mg) ->
  bound_to_temporary rev args = [] ->
  call_operator rev h args σ
  = call_stored rev h
      (put l (Some (with_base (with_arguments (map Some (map snd args)) (ctx_base c)) c))
         [] σ).
Proof.
  intros Hp Hheld Haccepted Hvalues.
  assert (Hp' : points_to
                  (put l (Some (with_base (with_arguments (map Some (map snd args))
                                             (ctx_base c)) c)) [] σ)
                  h mg l
                  (with_base (with_arguments (map Some (map snd args)) (ctx_base c)) c)).
  { eapply points_to_put; [eassumption | reflexivity]. }
  rewrite (call_operator_body _ _ _ _ _ _ _ Hp Hheld).
  rewrite bool_decide_eq_true_2 by assumption.
  unfold call_stored. rewrite (guarded_at _ _ _ _ _ _ _ Hp' Hheld).
  rewrite put_put. cbn [app]. unfold call_assigned. rewrite Hvalues. cbn [map].
  now rewrite taken_with_base.
Qed.

(** Accepted arguments some of which are bound to the temporary. *)
Lemma call_operator_over_temporary rev σ h mg l c args :
  points_to σ h mg l c -> held c = false ->
  map (fun a => function_argument rev a.1) args
  = map (function_argument rev) (mg_args mg) ->
  bound_to_temporary rev args <> [] ->
  call_operator rev h args σ
  = if has_anything_ (ctx_base c)
    then Ok succeeded
           (put l (Some (with_base (with_arguments (map Some (map snd args)) (ctx_base c)) c))
              (map ev_bind_temporary (bound_to_temporary rev args)
               ++ notifier_events (own c)) σ)
    else Undefined_behaviour.
Proof.
  intros Hp Hheld Haccepted Hbound.
  pose proof Hp as (_ & Hctx & _ & Htype).
  rewrite (call_operator_body _ _ _ _ _ _ _ Hp Hheld).
  rewrite bool_decide_eq_true_2 by assumption.
  set (c1 := with_base (with_arguments (map Some (map snd args)) (ctx_base c)) (taken c)).
  set (evs := map ev_bind_temporary (bound_to_temporary rev args)).
  assert (Hp1 : points_to (put l (Some c1) evs σ) h mg l c1).
  { eapply points_to_put; [eassumption|]. unfold c1. cbn. apply context_type_taken. }
  pose proof Hp1 as (_ & _ & Hheap1 & Htype1).
  unfold at_scope_exit, bind at 1, call_assigned.
  destruct (bound_to_temporary rev args) as [|i rest] eqn:Hb; [now destruct Hbound|].
  rewrite Hctx, Hheap1.
  replace (has_anything_ (ctx_base c1)) with (has_anything_ (ctx_base c)) by reflexivity.
  destruct (has_anything_ (ctx_base c)) eqn:Hany; [|reflexivity].
  unfold ask, bind at 1. rewrite (call_with_at _ _ _ _ _ _ _ _ _ Hp1).
  rewrite (core_call _ _ _ _ _ Htype1).
  rewrite call_case_completed; [|apply has_values_assigned|exact Hany].
  cbn [r_pointer r_out r_context r_events fst has_value_ ret].
  rewrite put_put. unfold bind.
  unfold c1. rewrite (unlock_at _ _ _ _ _ _ _ _ Hp Hheld).
  cbn [own with_base]. unfold notifier_events.
  now destruct (events_taken c) as (-> & -> & ->).
Qed.



(** X17: [operator()(args...)] with accepted argument types on a cell
    that already holds a result or an exception invokes nothing, leaves
    the result and the exception as they are and answers [succeeded]; it
    assigns to the argument slots all the same, which then hold the
    supplied values when every argument is stored by value. *)
Theorem call_operator_on_completed_cell
  (rev : revision) (σ : machine) (h : af_ctx_manager) (mg : manager)
  (l : nat) (c : context) (args : list (cpp_type * value)) :
  points_to σ h mg l c -> held c = false -> notifier_can_lock c σ ->
  has_anything_ (ctx_base c) = true ->
  call_compiles rev args = true ->
  map (fun a => function_argument rev a.1) args
  = map (function_argument rev) (mg_args mg) ->
  (exists σ',
     call_operator rev h args σ = Ok succeeded σ'
     /\ invocations (trace σ') = invocations (trace σ)
     /\ (m_result <$> storage_at l σ') = Some (m_result (ctx_base c))
     /\ (m_exception <$> storage_at l σ') = Some (m_exception (ctx_base c)))
  /\ (bound_to_temporary rev args = [] ->
      call_operator rev h args σ
      = Ok succeeded
          (put l (Some (with_base (with_arguments (map Some (map snd args)) (ctx_base c)) c))
             (notifier_events (own c)) σ)).
Proof.
  intros Hp Hheld _ Hany _ Haccepted.
  assert (Hp' : points_to
                  (put l (Some (with_base (with_arguments (map Some (map snd args))
                                             (ctx_base c)) c)) [] σ)
                  h mg l
                  (with_base (with_arguments (map Some (map snd args)) (ctx_base c)) c)).
  { eapply points_to_put; [eassumption | reflexivity]. }
  assert (Hvalues : bound_to_temporary rev args = [] ->
            call_operator rev h args σ
            = Ok succeeded
                (put l (Some (with_base
                                (with_arguments (map Some (map snd args)) (ctx_base c)) c))
                   (notifier_events (own c)) σ)).
  { intros Hvalues.
    rewrite (call_operator_accepted _ _ _ _ _ _ _ Hp Hheld Haccepted Hvalues).
    rewrite (call_stored_completed rev _ _ _ _ _ Hp' Hheld).
    - now rewrite put_put.
    - cbn [ctx_base with_base m_arguments with_arguments]. apply has_values_assigned.
    - exact Hany. }
  split; [|exact Hvalues].
  destruct (bound_to_temporary rev args) as [|i rest] eqn:Hb.
  - eexists. split; [now apply Hvalues|]. split.
    + unfold put; cbn [trace]. rewrite invocations_app, invocations_notifier. lia.
    + rewrite storage_at_put. now split.
  - rewrite (call_operator_over_temporary _ _ _ _ _ _ _ Hp Hheld Haccepted), Hany, Hb
      by (rewrite Hb; discriminate).
    eexists. split; [reflexivity|]. split.
    + unfold put; cbn [trace]. rewrite map_app, !invocations_app, invocations_notifier.
      assert (Hbind : forall js, invocations (map (pair l) (map ev_bind_temporary js)) = 0%nat)
        by (induction js; [reflexivity | assumption]).
      rewrite Hbind. lia.
    + rewrite storage_at_put. now split.
Qed.

(** [af(9)] on a [successor] cell that already holds [6]. *)
Lemma call_operator_on_completed_cell_witness :
  call_operator plain (handle_to 0 (successor_manager unsafe_tag))
    [(int_, 9)] (one_cell (successor_context unsafe_tag 1 (Some 5) (Some 6) None))
  = Ok succeeded
      (put 0 (Some (successor_context unsafe_tag 1 (Some 9) (Some 6) None)) []
         (one_cell (successor_context unsafe_tag 1 (Some 5) (Some 6) None))).
Proof.
  refine (proj2
            (call_operator_on_completed_cell plain
               (one_cell (successor_context unsafe_tag 1 (Some 5) (Some 6) None))
               (handle_to 0 (successor_manager unsafe_tag))
               (successor_manager unsafe_tag) 0
               (successor_context unsafe_tag 1 (Some 5) (Some 6) None)
               [(int_, 9)] _ _ _ _ _ _) _).
  - repeat split.
  - reflexivity.
  - left. reflexivity.
  - reflexivity.
  - reflexivity.
  - reflexivity.
  - reflexivity.
Defined.

(** *** The mutex of the waitable and the condition variable *)

Lemma global_locked_app (t evs : list (nat * event)) :
  global_locked (t ++ evs)
  = fold_left (fun locked e =>
                 match e.2 with
                 | ev_lock_global => true
                 | ev_unlock_global => false
                 | _ => locked
                 end) evs (global_locked t).
Proof. unfold global_locked. apply fold_left_app. Qed.

Lemma its_waitable_type c c' :
  context_type (own c) = context_type (own c') -> its_waitable c = its_waitable c'.
Proof. unfold its_waitable. now destruct (own c), (own c'). Qed.

Lemma get_waitable_at rev σ h mg l c :
  points_to σ h mg l c ->
  call_with rev h get_waitable null_id None σ = Ok (Some (its_waitable c), None) σ.
Proof.
  intros Hp. pose proof Hp as (_ & _ & _ & Htype).
  apply (call_with_answer _ _ _ _ _ _ _ _ _ _ Hp).
  unfold core_manager. rewrite cast_ok by assumption. unfold its_waitable.
  now destruct (own c).
Qed.

Lemma mutex_lock_free σ h mg l c c0 :
  points_to σ h mg l c -> context_type (own c0) = mg_context mg ->
  waitable_mutex c σ = false ->
  exists σ', mutex_lock h (Some (its_waitable c0)) σ = Ok tt σ'
             /\ points_to σ' h mg l (mutex_taken c)
             /\ waitable_mutex (mutex_taken c) σ' = true.
Proof.
  intros Hp Htype0 Hfree. pose proof Hp as (Hmg & Hctx & Hheap & Htype).
  rewrite (its_waitable_type c0 c) by congruence.
  unfold mutex_lock, its_waitable, mutex_taken, waitable_mutex in *. rewrite Hctx.
  destruct (own c) as [| |flag|w] eqn:Hown.
  - rewrite Hfree. eexists. split; [reflexivity|]. split.
    + split; [assumption|]. split; [assumption|]. split; [exact Hheap|]. now rewrite Hown.
    + rewrite Hown. cbn [trace emit]. now rewrite global_locked_app.
  - rewrite Hfree. eexists. split; [reflexivity|]. split.
    + split; [assumption|]. split; [assumption|]. split; [exact Hheap|]. now rewrite Hown.
    + rewrite Hown. cbn [trace emit]. now rewrite global_locked_app.
  - rewrite Hfree. eexists. split; [reflexivity|]. split.
    + split; [assumption|]. split; [assumption|]. split; [exact Hheap|]. now rewrite Hown.
    + rewrite Hown. cbn [trace emit]. now rewrite global_locked_app.
  - rewrite Hheap, Hown, Hfree. eexists. split; [reflexivity|]. split.
    + eapply points_to_put; [eassumption|]. cbn. now rewrite Hown.
    + reflexivity.
Qed.

Lemma mutex_lock_held σ h mg l c c0 :
  points_to σ h mg l c -> context_type (own c0) = mg_context mg ->
  waitable_mutex c σ = true ->
  mutex_lock h (Some (its_waitable c0)) σ = Blocked.
Proof.
  intros Hp Htype0 Htaken. pose proof Hp as (Hmg & Hctx & Hheap & Htype).
  rewrite (its_waitable_type c0 c) by congruence.
  unfold mutex_lock, its_waitable, waitable_mutex in *. rewrite Hctx.
  destruct (own c) as [| |flag|w] eqn:Hown; try (now rewrite Htaken).
  now rewrite Hheap, Hown, Htaken.
Qed.

Lemma mutex_unlock_held σ h mg l c c0 :
  points_to σ h mg l c -> context_type (own c0) = mg_context mg ->
  waitable_mutex c σ = true ->
  exists σ', mutex_unlock h (Some (its_waitable c0)) σ = Ok tt σ'
             /\ points_to σ' h mg l (mutex_released c)
             /\ waitable_mutex (mutex_released c) σ' = false.
Proof.
  intros Hp Htype0 Htaken. pose proof Hp as (Hmg & Hctx & Hheap & Htype).
  rewrite (its_waitable_type c0 c) by congruence.
  unfold mutex_unlock, its_waitable, mutex_released, waitable_mutex in *. rewrite Hctx.
  destruct (own c) as [| |flag|w] eqn:Hown.
  - rewrite Htaken. eexists. split; [reflexivity|]. split.
    + split; [assumption|]. split; [assumption|]. split; [exact Hheap|]. now rewrite Hown.
    + rewrite Hown. cbn [trace emit]. now rewrite global_locked_app.
  - rewrite Htaken. eexists. split; [reflexivity|]. split.
    + split; [assumption|]. split; [assumption|]. split; [exact Hheap|]. now rewrite Hown.
    + rewrite Hown. cbn [trace emit]. now rewrite global_locked_app.
  - rewrite Htaken. eexists. split; [reflexivity|]. split.
    + split; [assumption|]. split; [assumption|]. split; [exact Hheap|]. now rewrite Hown.
    + rewrite Hown. cbn [trace emit]. now rewrite global_locked_app.
  - rewrite Hheap, Hown, Htaken. eexists. split; [reflexivity|]. split.
    + eapply points_to_put; [eassumption|]. cbn. now rewrite Hown.
    + reflexivity.
Qed.


Lemma mutex_released_taken c σ :
  waitable_mutex c σ = false -> mutex_released (mutex_taken c) = c.
Proof.
  unfold mutex_released, mutex_taken, waitable_mutex. destruct c as [n s o].
  cbn. destruct o as [| |flag|[mu]]; cbn; try reflexivity. now intros ->.
Qed.

Lemma completed_at_context l σ c :
  heap σ !! l = Some c -> (completed_at l σ <-> has_anything_ (ctx_base c) = true).
Proof.
  intros Hheap. unfold completed_at, storage_at. rewrite Hheap. cbn. split.
  - now intros (s & [= <-] & Hs).
  - intros Hs. now exists (ctx_base c).
Qed.

Section WaitingForTheCell.
Variable rev : revision.
Variable h : af_ctx_manager.
Variable mg : manager.
Variable l : nat.
Variable c0 : context.
Hypothesis Hmanager : m_manager h = Some mg.
Hypothesis Hcontext : m_context h = Some l.
Hypothesis Htype0 : context_type (own c0) = mg_context mg.

Lemma points_to_here σ c :
  heap σ !! l = Some c -> context_type (own c) = mg_context mg -> points_to σ h mg l c.
Proof. intros. repeat split; assumption. Qed.

Lemma look_under_mutex σ :
  waitable_held mg l σ ->
  (completed_at l σ /\ completed rev h σ = Ok true σ)
  \/ (~ completed_at l σ /\ completed rev h σ = Ok false σ).
Proof.
  intros (c & Hheap & Htype & _).
  rewrite (completed_at_cell rev _ _ _ _ _ (points_to_here _ _ Hheap Htype)).
  pose proof (completed_at_context _ _ _ Hheap) as Hiff.
  destruct (has_anything_ (ctx_base c)); [left | right]; split; try reflexivity.
  - now apply Hiff.
  - intros Hc. apply Hiff in Hc. discriminate.
Qed.









Lemma cv_wait_already wakes σ :
  waitable_held mg l σ -> completed_at l σ ->
  cv_wait (mutex_unlock h (Some (its_waitable c0)))
    (mutex_lock h (Some (its_waitable c0))) (completed rev h) wakes σ
  = Ok tt σ.
Proof.
  intros Hheld Hdone.
  destruct (look_under_mutex σ Hheld) as [[_ E]|[Hnot _]]; [|contradiction].
  destruct wakes; cbn [cv_wait]; unfold bind; now rewrite E.
Qed.


(** Entering the scope of the [std::unique_lock] on the mutex of the
    waitable of [c0], the context at [l]. *)
Lemma under_waitable_lock_free {A} (body : M unit -> M unit -> M A) σ :
  heap σ !! l = Some c0 -> waitable_mutex c0 σ = false ->
  exists σ1,
    points_to σ1 h mg l (mutex_taken c0)
    /\ waitable_mutex (mutex_taken c0) σ1 = true
    /\ under_waitable_lock rev h body σ
       = at_scope_exit
           (body (mutex_unlock h (Some (its_waitable c0)))
                 (mutex_lock h (Some (its_waitable c0))))
           (mutex_unlock h (Some (its_waitable c0))) σ1.
Proof.
  intros Hheap Hfree. pose proof (points_to_here _ _ Hheap Htype0) as Hp.
  destruct (mutex_lock_free _ _ _ _ _ c0 Hp Htype0 Hfree) as (σ1 & E & Hp1 & Htaken).
  exists σ1. split; [exact Hp1|]. split; [exact Htaken|].
  unfold under_waitable_lock, bind at 1. rewrite (get_waitable_at _ _ _ _ _ _ Hp).
  cbn [fst]. unfold bind. now rewrite E.
Qed.

Lemma under_waitable_lock_held {A} (body : M unit -> M unit -> M A) σ :
  heap σ !! l = Some c0 -> waitable_mutex c0 σ = true ->
  under_waitable_lock rev h body σ = Blocked.
Proof.
  intros Hheap Htaken. pose proof (points_to_here _ _ Hheap Htype0) as Hp.
  unfold under_waitable_lock, bind at 1. rewrite (get_waitable_at _ _ _ _ _ _ Hp).
  cbn [fst]. unfold bind. now rewrite (mutex_lock_held _ _ _ _ _ c0 Hp Htype0 Htaken).
Qed.


Lemma held_of_points_to σ c :
  points_to σ h mg l c -> waitable_mutex c σ = true -> waitable_held mg l σ.
Proof. intros (_ & _ & Hheap & Htype) Htaken. now exists c. Qed.

(** The scope entered and left with nothing waited for in between: the
    context is as it was. *)
Lemma leave_waitable_lock_at_once {A} (body : M A) (a : A) σ σ1 :
  waitable_mutex c0 σ = false ->
  points_to σ1 h mg l (mutex_taken c0) -> waitable_mutex (mutex_taken c0) σ1 = true ->
  body σ1 = Ok a σ1 ->
  exists σ3,
    at_scope_exit body (mutex_unlock h (Some (its_waitable c0))) σ1 = Ok a σ3
    /\ points_to σ3 h mg l c0 /\ waitable_mutex c0 σ3 = false.
Proof.
  intros Hfree Hp1 Htaken E.
  destruct (mutex_unlock_held _ _ _ _ _ c0 Hp1 Htype0 Htaken) as (σ3 & E3 & Hp3 & Hfree3).
  rewrite (mutex_released_taken _ _ Hfree) in Hp3, Hfree3.
  exists σ3. split; [|now split]. unfold at_scope_exit. rewrite E. unfold bind. now rewrite E3.
Qed.

End WaitingForTheCell.

(** *** The future *)

(** The guarded part of [get] on a cell with a free lock. *)
Lemma get_after_wait rev T σ h mg l c :
  points_to σ h mg l c -> held c = false ->
  guarded rev h (
    let* e := ask rev h has_exception null_id None in
    if e then
      run call_with rev h get_exception null_id None then
      let* eptr_ := read_exception h in
      match eptr_ with
      | Some ex => throw (rethrown ex)
      | None => undefined
      end
    else
      run call_with rev h get_result null_id None then
      match rev with
      | with_references =>
          if is_void T then ret None else
          let* r := read_result h in
          match r with Some v => ret (Some v) | None => throw bad_optional_access end
      | plain =>
          let* r := read_result h in
          match r with Some v => ret (Some v) | None => throw bad_optional_access end
      end) σ
  = match m_exception (ctx_base c) with
    | Some e => Thrown (rethrown e) σ
    | None =>
        match m_result (ctx_base c) with
        | Some v =>
            Ok (match rev with
                | with_references => if is_void T then None else Some v
                | plain => Some v
                end) σ
        | None =>
            match rev with
            | with_references =>
                if is_void T then Ok None σ else Thrown bad_optional_access σ
            | plain => Thrown bad_optional_access σ
            end
        end
    end.
Proof.
  intros Hp Hheld. pose proof Hp as (_ & Hctx & _ & Htype).
  assert (Htaken : context_type (own (taken c)) = mg_context mg)
    by now rewrite context_type_taken.
  assert (Hask : forall σ1, points_to σ1 h mg l (taken c) ->
            ask rev h has_exception null_id None σ1
            = Ok (has_value_ (m_exception (ctx_base c))) σ1).
  { intros σ1 Hp1. rewrite <- (ctx_base_taken c).
    apply (ask_if _ _ _ _ _ _ _ _ _ _ Hp1). now apply core_answer_if. }
  assert (Hreade : forall σ1, points_to σ1 h mg l (taken c) ->
            read_exception h σ1 = Ok (m_exception (ctx_base c)) σ1).
  { intros σ1 (_ & _ & Hheap1 & _). unfold read_exception.
    now rewrite Hctx, Hheap1, ctx_base_taken. }
  assert (Hreadr : forall σ1, points_to σ1 h mg l (taken c) ->
            read_result h σ1 = Ok (m_result (ctx_base c)) σ1).
  { intros σ1 (_ & _ & Hheap1 & _). unfold read_result.
    now rewrite Hctx, Hheap1, ctx_base_taken. }
  destruct (m_exception (ctx_base c)) as [e|] eqn:He.
  - apply (guarded_look_thrown _ _ _ _ _ _ _ _ Hp Hheld). intros σ1 Hp1.
    unfold bind. rewrite (Hask σ1 Hp1). cbn [has_value_].
    rewrite (call_with_answer _ _ _ _ _ _ _ _ _ _ Hp1 (core_get_exception _ _ _ _ _ Htaken)).
    now rewrite (Hreade σ1 Hp1).
  - destruct (m_result (ctx_base c)) as [v|] eqn:Hr.
    + apply (guarded_look _ _ _ _ _ _ _ _ Hp Hheld). intros σ1 Hp1.
      unfold bind. rewrite (Hask σ1 Hp1). cbn [has_value_].
      rewrite (call_with_answer _ _ _ _ _ _ _ _ _ _ Hp1 (core_get_result _ _ _ _ _ Htaken)).
      destruct rev; [now rewrite (Hreadr σ1 Hp1)|].
      destruct (is_void T); [reflexivity | now rewrite (Hreadr σ1 Hp1)].
    + destruct rev; [|destruct (is_void T)].
      * apply (guarded_look_thrown _ _ _ _ _ _ _ _ Hp Hheld). intros σ1 Hp1.
        unfold bind. rewrite (Hask σ1 Hp1). cbn [has_value_].
        rewrite (call_with_answer _ _ _ _ _ _ _ _ _ _ Hp1 (core_get_result _ _ _ _ _ Htaken)).
        now rewrite (Hreadr σ1 Hp1).
      * apply (guarded_look _ _ _ _ _ _ _ _ Hp Hheld). intros σ1 Hp1.
        unfold bind. rewrite (Hask σ1 Hp1). cbn [has_value_].
        now rewrite (call_with_answer _ _ _ _ _ _ _ _ _ _ Hp1 (core_get_result _ _ _ _ _ Htaken)).
      * apply (guarded_look_thrown _ _ _ _ _ _ _ _ Hp Hheld). intros σ1 Hp1.
        unfold bind. rewrite (Hask σ1 Hp1). cbn [has_value_].
        rewrite (call_with_answer _ _ _ _ _ _ _ _ _ _ Hp1 (core_get_result _ _ _ _ _ Htaken)).
        now rewrite (Hreadr σ1 Hp1).
Qed.

(** [wait()] on a completed cell whose lock and the mutex of whose
    waitable are free returns at once and leaves the context as it was. *)
Lemma wait_on_completed rev σ h mg l c wakes :
  points_to σ h mg l c -> held c = false -> waitable_mutex c σ = false ->
  has_anything_ (ctx_base c) = true ->
  exists σ', wait rev h wakes σ = Ok tt σ'
             /\ points_to σ' h mg l c /\ waitable_mutex c σ' = false.
Proof.
  intros Hp Hheld Hfree Hany. pose proof Hp as (Hmg & Hctx & Hheap & Htype).
  assert (Hcond : exists σ',
    under_waitable_lock rev h
      (fun unlock_ lock_ => cv_wait unlock_ lock_ (completed rev h) wakes) σ = Ok tt σ'
    /\ points_to σ' h mg l c /\ waitable_mutex c σ' = false).
  { destruct (@under_waitable_lock_free rev h mg l c Hmg Hctx Htype _
                (fun unlock_ lock_ => cv_wait unlock_ lock_ (completed rev h) wakes)
                σ Hheap Hfree) as (σ1 & Hp1 & Htaken & E).
    rewrite E.
    apply (@leave_waitable_lock_at_once h mg l c Htype _ _ tt σ σ1 Hfree Hp1 Htaken).
    apply (@cv_wait_already rev h mg l c Hmg Hctx wakes σ1).
    - exact (held_of_points_to _ _ _ _ _ Hp1 Htaken).
    - pose proof Hp1 as (_ & _ & Hheap1 & _).
      apply (completed_at_context _ _ _ Hheap1). now rewrite ctx_base_mutex_taken. }
  unfold wait. destruct rev; [exact Hcond|].
  unfold bind at 1.
  rewrite (guarded_look with_references σ h mg l c _ false Hp Hheld).
  - exact Hcond.
  - intros σ1 Hp1. unfold bind at 1.
    rewrite (prepared_at_cell _ _ _ _ _ Hp1), ctx_base_taken.
    unfold is_prepared. now rewrite Hany, andb_false_r.
Qed.

(** X18: [get()] on a completed cell, called while the lock of the cell
    and the mutex of its waitable are free, does not wait: a stored
    exception is rethrown, and it goes before a stored result; otherwise
    the stored result is returned (nothing for [void]).  The context is
    afterwards as it was. *)
Theorem get_gives_what_is_stored
  (rev : revision) (T : cpp_type) (σ : machine) (h : af_ctx_manager) (mg : manager)
  (l : nat) (c : context) (wakes : list interference) :
  points_to σ h mg l c -> held c = false -> waitable_mutex c σ = false ->
  has_anything_ (ctx_base c) = true ->
  exists σ',
    heap σ' !! l = Some c
    /\ get rev T h wakes σ
       = match m_exception (ctx_base c) with
         | Some e => Thrown (rethrown e) σ'
         | None =>
             Ok (match rev with
                 | with_references => if is_void T then None else m_result (ctx_base c)
                 | plain => m_result (ctx_base c)
                 end) σ'
         end
    /\ (m_exception (ctx_base c) = None -> has_value_ (m_result (ctx_base c)) = true).
Proof.
  intros Hp Hheld Hfree Hany.
  destruct (wait_on_completed rev _ _ _ _ _ wakes Hp Hheld Hfree Hany)
    as (σ' & Hwait & Hp' & _).
  exists σ'. split; [apply Hp'|].
  assert (Hres : m_exception (ctx_base c) = None ->
                 has_value_ (m_result (ctx_base c)) = true).
  { intros He. unfold has_anything_ in Hany. rewrite He in Hany.
    now rewrite orb_false_r in Hany. }
  split; [|exact Hres].
  unfold get, bind at 1. rewrite Hwait.
  rewrite (get_after_wait rev T _ _ _ _ _ Hp' Hheld).
  destruct (m_exception (ctx_base c)) as [e|]; [reflexivity|].
  specialize (Hres eq_refl).
  destruct (m_result (ctx_base c)) as [v|]; [|discriminate].
  reflexivity.
Qed.

(** [get()] on a cell that holds both a result and an exception. *)
Lemma get_gives_what_is_stored_witness :
  exists σ',
    heap σ' !! 0%nat
    = Some (successor_context unsafe_tag 1 None (Some 7) (Some missing_argument))
    /\ get plain int_ (handle_to 0 (successor_manager unsafe_tag)) []
         (one_cell (successor_context unsafe_tag 1 None (Some 7) (Some missing_argument)))
       = Thrown (rethrown missing_argument) σ'
    /\ (Some missing_argument = None -> has_value_ (Some 7) = true).
Proof.
  apply (get_gives_what_is_stored plain int_
           (one_cell (successor_context unsafe_tag 1 None (Some 7) (Some missing_argument)))
           (handle_to 0 (successor_manager unsafe_tag))
           (successor_manager unsafe_tag) 0
           (successor_context unsafe_tag 1 None (Some 7) (Some missing_argument)) []).
  - repeat split.
  - reflexivity.
  - reflexivity.
  - reflexivity.
Defined.




(** *** Counting the handles *)

Lemma with_counter_same c : with_counter (m_counter c) c = c.
Proof. now destruct c. Qed.

Lemma release_acquire c :
  0 < m_counter c < size_max_plus_one -> release (acquire c) = (Some c, []).
Proof.
  intros Hn. unfold release, acquire, size_max_plus_one in *. cbn [m_counter with_counter].
  assert (Hback : ((m_counter c + 1) mod 2 ^ 64 - 1) mod 2 ^ 64 = m_counter c).
  { rewrite Zminus_mod_idemp_l. replace (m_counter c + 1 - 1) with (m_counter c) by lia.
    apply Z.mod_small. lia. }
  rewrite Hback. destruct (Z.eqb_spec (m_counter c) 0) as [E|_]; [lia|].
  unfold with_counter. cbn. now destruct c.
Qed.

Lemma release_more c :
  1 < m_counter c < size_max_plus_one ->
  release c = (Some (with_counter (m_counter c - 1) c), []).
Proof.
  intros Hn. unfold release, size_max_plus_one in *.
  rewrite Z.mod_small by lia.
  destruct (Z.eqb_spec (m_counter c - 1) 0) as [E|_]; [lia | reflexivity].
Qed.

Lemma destroy_more rev σ h mg l c :
  points_to σ h mg l c -> 1 < m_counter c < size_max_plus_one ->
  destroy rev h σ = Ok tt (put l (Some (with_counter (m_counter c - 1) c)) [] σ).
Proof.
  intros Hp Hn. rewrite (destroy_at _ _ _ _ _ _ Hp). now rewrite release_more.
Qed.

Lemma destroy_last rev σ h mg l c :
  points_to σ h mg l c -> m_counter c = 1 ->
  destroy rev h σ = Ok tt (put l None [ev_destroy; ev_deallocate] σ).
Proof.
  intros Hp Hn. rewrite (destroy_at _ _ _ _ _ _ Hp). now rewrite release_last.
Qed.

Lemma destroy_freed rev σ h l :
  m_context h = Some l -> heap σ !! l = None -> to_bool h = true ->
  destroy rev h σ = Undefined_behaviour.
Proof.
  intros Hctx Hheap Hbool. unfold destroy. rewrite Hbool. unfold bind, call_with.
  rewrite Hctx, Hheap. now destruct (m_manager h).
Qed.

(** X20: a copy of a handle adds one to the counter of its context and
    equals the original; destroying the copy gives back the memory exactly
    as it was before the copy. *)
Theorem copy_then_destroy
  (rev : revision) (σ : machine) (h : af_ctx_manager) (mg : manager)
  (l : nat) (c : context) :
  points_to σ h mg l c -> 0 < m_counter c < size_max_plus_one ->
  exists h' σ1,
    copy_construct rev h σ = Ok h' σ1
    /\ equal h' h = true
    /\ heap σ1 !! l = Some (with_counter ((m_counter c + 1) mod size_max_plus_one) c)
    /\ trace σ1 = trace σ
    /\ destroy rev h' σ1 = Ok tt σ.
Proof.
  intros Hp Hn. exists h, (put l (Some (acquire c)) [] σ).
  split; [now apply copy_construct_at with mg|].
  split; [apply equal_refl|]. split; [apply heap_put|].
  split; [unfold put; cbn [trace]; apply app_nil_r|].
  assert (Hp1 : points_to (put l (Some (acquire c)) [] σ) h mg l (acquire c))
    by (eapply points_to_put; [eassumption | reflexivity]).
  rewrite (destroy_at _ _ _ _ _ _ Hp1), release_acquire by assumption. cbn [fst snd].
  rewrite put_put. cbn [app]. f_equal. apply put_same, Hp.
Qed.

(** A third handle to the context at [0] of [two_cells], made and
    destroyed. *)
Lemma copy_then_destroy_witness :
  exists h' σ1,
    copy_construct plain (handle_to 0 (successor_manager unsafe_tag)) two_cells = Ok h' σ1
    /\ equal h' (handle_to 0 (successor_manager unsafe_tag)) = true
    /\ heap σ1 !! 0%nat = Some (successor_context unsafe_tag 3 None None None)
    /\ trace σ1 = trace two_cells
    /\ destroy plain h' σ1 = Ok tt two_cells.
Proof.
  apply (copy_then_destroy plain two_cells
           (handle_to 0 (successor_manager unsafe_tag))
           (successor_manager unsafe_tag) 0
           (successor_context unsafe_tag 2 None None None)).
  - repeat split.
  - unfold size_max_plus_one. cbn. lia.
Defined.

(** X21: a [future<T>] refused for its result type leaves no trace: the
    count taken by the base subobject is given back before
    [bad_type_cast] leaves the constructor (and the [get_future<T>()] of
    [with_references]), so the memory is exactly as before. *)
Theorem refused_future_gives_the_count_back
  (rev : revision) (T : cpp_type) (σ : machine) (h : af_ctx_manager) (mg : manager)
  (l : nat) (c : context) :
  points_to σ h mg l c -> 0 < m_counter c < size_max_plus_one ->
  function_result rev T <> function_result rev (mg_result mg) ->
  future_construct rev T h σ = Thrown bad_type_cast σ
  /\ (rev = with_references -> get_future T h σ = Thrown bad_type_cast σ).
Proof.
  intros Hp Hn Hdiff.
  assert (Hgoal : future_construct rev T h σ = Thrown bad_type_cast σ).
  { unfold future_construct, bind at 1.
    rewrite (copy_construct_at _ _ _ _ _ _ Hp), (points_to_bool _ _ _ _ _ Hp).
    assert (Hp1 : points_to (put l (Some (acquire c)) [] σ) h mg l (acquire c))
      by (eapply points_to_put; [eassumption | reflexivity]).
    pose proof Hp1 as (_ & _ & _ & Htype1).
    unfold bind at 1, is_result_of_type.
    rewrite (ask_if _ _ _ _ _ _ _ _ _ _ Hp1 (core_check_result_type _ _ _ _ _ Htype1)).
    rewrite bool_decide_eq_false_2 by congruence.
    unfold bind. rewrite (destroy_at _ _ _ _ _ _ Hp1), release_acquire by assumption.
    cbn [fst snd]. rewrite put_put. cbn [app]. unfold throw. f_equal. apply put_same, Hp. }
  split; [exact Hgoal | intros ->; exact Hgoal].
Qed.

(** [future<int&>] from a [successor] cell, in [with_references]. *)
Lemma refused_future_gives_the_count_back_witness :
  future_construct with_references int_lvalue (handle_to 0 (successor_manager unsafe_tag))
    (one_cell (successor_context unsafe_tag 1 None None None))
  = Thrown bad_type_cast (one_cell (successor_context unsafe_tag 1 None None None))
  /\ (with_references = with_references ->
      get_future int_lvalue (handle_to 0 (successor_manager unsafe_tag))
        (one_cell (successor_context unsafe_tag 1 None None None))
      = Thrown bad_type_cast (one_cell (successor_context unsafe_tag 1 None None None))).
Proof.
  apply (refused_future_gives_the_count_back with_references int_lvalue
           (one_cell (successor_context unsafe_tag 1 None None None))
           (handle_to 0 (successor_manager unsafe_tag))
           (successor_manager unsafe_tag) 0
           (successor_context unsafe_tag 1 None None None)).
  - repeat split.
  - unfold size_max_plus_one. cbn. lia.
  - cbn. discriminate.
Defined.

Lemma destroy_each_some rev h mg l (k : nat) :
  forall σ c,
    points_to σ h mg l c ->
    Z.of_nat k < m_counter c < size_max_plus_one ->
    destroy_each rev h k σ
    = Ok tt (put l (Some (with_counter (m_counter c - Z.of_nat k) c)) [] σ).
Proof.
  induction k as [|k IH]; intros σ c Hp Hn.
  - cbn [destroy_each]. unfold ret. f_equal.
    replace (m_counter c - Z.of_nat 0) with (m_counter c) by lia.
    rewrite with_counter_same. symmetry. apply put_same, Hp.
  - cbn [destroy_each]. unfold bind.
    rewrite (destroy_more _ _ _ _ _ _ Hp) by lia.
    rewrite (IH _ (with_counter (m_counter c - 1) c)).
    + rewrite put_put. cbn [app m_counter with_counter]. do 3 f_equal.
      unfold with_counter. cbn. f_equal. lia.
    + eapply points_to_put; [eassumption | reflexivity].
    + cbn [m_counter with_counter]. lia.
Qed.

(** X22: of [n] handles to one context, destroying all but the last only
    counts down; destroying the last destroys and deallocates the
    context, once; one more destructor call on a stale handle is undefined
    behaviour. *)
Theorem last_handle_frees_the_context
  (rev : revision) (σ : machine) (h : af_ctx_manager) (mg : manager)
  (l : nat) (c : context) (n : nat) :
  points_to σ h mg l c ->
  m_counter c = Z.of_nat n -> (0 < n)%nat -> Z.of_nat n < size_max_plus_one ->
  (forall k, (k < n)%nat ->
     destroy_each rev h k σ
     = Ok tt (put l (Some (with_counter (Z.of_nat (n - k)) c)) [] σ))
  /\ destroy_each rev h n σ = Ok tt (put l None [ev_destroy; ev_deallocate] σ)
  /\ destroy_each rev h (S n) σ = Undefined_behaviour.
Proof.
  intros Hp Hc Hpos Hmax.
  assert (Hsome : forall k, (k < n)%nat ->
            destroy_each rev h k σ
            = Ok tt (put l (Some (with_counter (Z.of_nat (n - k)) c)) [] σ)).
  { intros k Hk. rewrite (destroy_each_some rev h mg l k σ c Hp) by lia.
    do 4 f_equal. lia. }
  assert (Hsplit : forall a b σ0,
            destroy_each rev h (a + b) σ0
            = (run destroy_each rev h a then destroy_each rev h b) σ0).
  { induction a as [|a IH]; intros b σ0; cbn [destroy_each Nat.add].
    - reflexivity.
    - unfold bind. destruct (destroy rev h σ0); try reflexivity. apply IH. }
  assert (Hall : destroy_each rev h n σ
                 = Ok tt (put l None [ev_destroy; ev_deallocate] σ)).
  { replace n with ((n - 1) + 1)%nat at 1 by lia. rewrite Hsplit. unfold bind.
    rewrite Hsome by lia. cbn [destroy_each]. unfold bind.
    erewrite destroy_last.
    - unfold ret. f_equal. unfold put. cbn. f_equal.
      + now rewrite delete_insert_eq.
      + now rewrite app_nil_r.
    - eapply points_to_put; [eassumption | reflexivity].
    - cbn [m_counter with_counter]. lia. }
  split; [exact Hsome|]. split; [exact Hall|].
  replace (S n) with (n + 1)%nat by lia. rewrite Hsplit. unfold bind. rewrite Hall.
  cbn [destroy_each]. unfold bind. erewrite destroy_freed; [reflexivity | apply Hp | |].
  - cbn. apply lookup_delete_eq.
  - now apply points_to_bool with σ mg l c.
Qed.

(** The two handles to the context at [0] of [two_cells]. *)
Lemma last_handle_frees_the_context_witness :
  destroy_each plain (handle_to 0 (successor_manager unsafe_tag)) 2 two_cells
  = Ok tt (put 0 None [ev_destroy; ev_deallocate] two_cells)
  /\ destroy_each plain (handle_to 0 (successor_manager unsafe_tag)) 3 two_cells
     = Undefined_behaviour.
Proof.
  refine (proj2
            (last_handle_frees_the_context plain two_cells
               (handle_to 0 (successor_manager unsafe_tag))
               (successor_manager unsafe_tag) 0
               (successor_context unsafe_tag 2 None None None) 2 _ _ _ _)).
  - repeat split.
  - reflexivity.
  - lia.
  - unfold size_max_plus_one. cbn. lia.
Defined.

(** X23: copy assignment to a handle that refers to another context takes
    two off the counter of the context it leaves (one by the explicit
    release, one when the temporary that received the old pointers is
    destroyed) and adds one to the counter of the context it joins; when
    the old context had exactly two handles it is freed although one
    still refers to it. *)
Theorem copy_assign_counts
  (rev : revision) (σ : machine) (this other : af_ctx_manager) (mg1 mg2 : manager)
  (l1 l2 : nat) (c1 c2 : context) :
  points_to σ this mg1 l1 c1 -> points_to σ other mg2 l2 c2 -> l1 <> l2 ->
  1 < m_counter c1 < size_max_plus_one ->
  exists σ',
    copy_assign rev false this other σ = Ok other σ'
    /\ heap σ' !! l2 = Some (acquire c2)
    /\ heap σ' !! l1
       = (if m_counter c1 =? 2 then None
          else Some (with_counter (m_counter c1 - 2) c1)).
Proof.
  intros Hp1 Hp2 Hne Hn.
  unfold copy_assign. rewrite (points_to_bool _ _ _ _ _ Hp1).
  unfold bind at 1. unfold bind at 1.
  rewrite (call_with_at _ _ _ _ _ _ _ _ _ Hp1).
  pose proof Hp1 as (Hmg1 & Hctx1 & Hheap1 & Htype1).
  pose proof Hp2 as (Hmg2 & Hctx2 & Hheap2 & Htype2).
  rewrite (core_down_ref_counter _ _ _ _ _ Htype1), release_more by assumption.
  cbn [fst snd r_pointer r_out r_context r_events ret].
  set (c1' := with_counter (m_counter c1 - 1) c1).
  set (σ1 := put l1 (Some c1') [] σ).
  assert (Hp2' : points_to σ1 other mg2 l2 c2).
  { repeat split; try assumption. unfold σ1, put. cbn [heap].
    now rewrite lookup_insert_ne. }
  unfold bind at 1. rewrite (copy_construct_at _ _ _ _ _ _ Hp2').
  set (σ2 := put l2 (Some (acquire c2)) [] σ1).
  assert (Hp1' : points_to σ2 this mg1 l1 c1').
  { repeat split; try assumption. unfold σ2, σ1, put. cbn [heap].
    rewrite lookup_insert_ne by congruence. apply lookup_insert_eq. }
  unfold move_assign, swap, bind, ret. cbn [fst snd].
  rewrite (destroy_at _ _ _ _ _ _ Hp1').
  eexists. split; [reflexivity|].
  unfold release. cbn [m_counter with_counter c1'].
  unfold size_max_plus_one in *. rewrite Z.mod_small by lia.
  replace (m_counter c1 - 1 - 1 =? 0) with (m_counter c1 =? 2)
    by (destruct (Z.eqb_spec (m_counter c1) 2), (Z.eqb_spec (m_counter c1 - 1 - 1) 0); lia).
  destruct (m_counter c1 =? 2); cbn [fst snd put heap].
  - split; [|apply lookup_delete_eq].
    rewrite lookup_delete_ne by congruence. apply lookup_insert_eq.
  - split; [rewrite lookup_insert_ne by congruence; apply lookup_insert_eq|].
    rewrite lookup_insert_eq. unfold c1', with_counter. cbn. do 2 f_equal. lia.
Qed.

(** The handle to the context at [0] of [two_cells], which has two
    handles, assigned the handle to the context at [1]. *)
Lemma copy_assign_counts_witness :
  exists σ',
    copy_assign plain false (handle_to 0 (successor_manager unsafe_tag))
      (handle_to 1 (successor_manager unsafe_tag)) two_cells
    = Ok (handle_to 1 (successor_manager unsafe_tag)) σ'
    /\ heap σ' !! 1%nat = Some (successor_context unsafe_tag 2 None None None)
    /\ heap σ' !! 0%nat = None.
Proof.
  apply (copy_assign_counts plain two_cells
           (handle_to 0 (successor_manager unsafe_tag))
           (handle_to 1 (successor_manager unsafe_tag))
           (successor_manager unsafe_tag) (successor_manager unsafe_tag) 0 1
           (successor_context unsafe_tag 2 None None None)
           (successor_context unsafe_tag 1 None None None)).
  - repeat split.
  - repeat split.
  - lia.
  - unfold size_max_plus_one. cbn. lia.
Defined.

(** X24: copy assignment to an empty handle is the copy constructor: the
    defect above needs a target that already refers to a context. *)
Theorem copy_assign_to_empty
  (rev : revision) (σ : machine) (this other : af_ctx_manager) :
  to_bool this = false ->
  copy_assign rev false this other σ = copy_construct rev other σ.
Proof.
  intros Hempty. unfold copy_assign. rewrite Hempty.
  unfold bind at 1. cbn [ret]. unfold bind at 1.
  destruct (copy_construct rev other σ) as [tmp σ1|e σ1| | |]; try reflexivity.
  unfold move_assign, swap, bind, ret, destroy. cbn [fst snd]. now rewrite Hempty.
Qed.

(** An empty handle assigned the handle to a [successor] cell. *)
Lemma copy_assign_to_empty_witness :
  copy_assign plain false empty (handle_to 0 (successor_manager unsafe_tag))
    (one_cell (successor_context unsafe_tag 1 None None None))
  = copy_construct plain (handle_to 0 (successor_manager unsafe_tag))
      (one_cell (successor_context unsafe_tag 1 None None None)).
Proof.
  apply (copy_assign_to_empty plain
           (one_cell (successor_context unsafe_tag 1 None None None))
           empty (handle_to 0 (successor_manager unsafe_tag))).
  reflexivity.
Defined.

(** *** A cell as constructed *)

Lemma has_values_replicate (n : nat) :
  has_values (replicate n None) = bool_decide (n = 0%nat).
Proof.
  rewrite has_values_forallb. destruct n as [|n]; reflexivity.
Qed.

Lemma held_context_trait (t : tag) (n : Z) (s : ctx_storage) :
  held {| m_counter := n; ctx_base := s; own := context_trait t |} = false.
Proof. now destruct t. Qed.

(** X25: a cell as [any_function(Tag, f)] constructs it for a function
    with parameters is valid, counts the parameters of [f], holds no
    argument, no result and no exception, is not prepared, answers for the
    result type it was made with, and is freed by one destructor call. *)
Theorem fresh_cell
  (rev : revision) (Tag : tag) (f : callable) (R : cpp_type) (Args : list cpp_type)
  (σ : machine) :
  (0 < length Args)%nat ->
  exists h σ',
    construct Tag f R Args σ = Ok h σ'
    /\ valid h = true
    /\ argument_count rev h σ' = Ok (length Args) σ'
    /\ (forall n, af_has_argument rev h n σ' = Ok false σ')
    /\ af_has_anything rev h σ' = Ok false σ'
    /\ af_is_prepared h σ' = Ok false σ'
    /\ (forall T, is_result_of_type rev h T σ'
                  = Ok (bool_decide (function_result rev R = function_result rev T)) σ')
    /\ destroy rev h σ'
       = Ok tt (put (next_free σ) None [ev_destroy; ev_deallocate] σ').
Proof.
  intros Hargs. eexists _, _. split; [reflexivity|].
  set (mg := {| mg_context := Tag; mg_result := R; mg_args := Args |}).
  set (c := {| m_counter := 1;
               ctx_base := {| m_exception := None; m_callable := Some f;
                              m_result := None;
                              m_arguments := replicate (length Args) None |};
               own := context_trait Tag |}).
  set (h := {| m_context := Some (next_free σ); m_manager := Some mg |}).
  set (σ' := {| heap := <[next_free σ := c]> (heap σ);
                next_free := S (next_free σ); trace := trace σ |}).
  assert (Hp : points_to σ' h mg (next_free σ) c).
  { repeat split. - apply lookup_insert_eq. - apply context_type_trait. }
  assert (Hheld : held c = false) by apply held_context_trait.
  pose proof Hp as (_ & _ & _ & Htype).
  split; [reflexivity|].
  split; [apply (argument_count_at_cell _ _ _ _ _ _ Hp)|].
  split.
  { intros n. rewrite (has_argument_at_cell _ _ _ _ _ _ n Hp). f_equal.
    cbn [ctx_base c m_arguments].
    destruct (replicate (length Args) None !! n) as [x|] eqn:E; [|reflexivity].
    apply lookup_replicate in E as [-> _]. reflexivity. }
  split.
  { apply (guarded_look _ _ _ _ _ _ _ _ Hp Hheld). intros σ1 Hp1.
    now rewrite (completed_at_cell _ _ _ _ _ _ Hp1), ctx_base_taken. }
  split.
  { apply (guarded_look _ _ _ _ _ _ _ _ Hp Hheld). intros σ1 Hp1.
    rewrite (prepared_at_cell _ _ _ _ _ Hp1), ctx_base_taken. f_equal.
    unfold is_prepared. cbn [ctx_base c m_arguments].
    rewrite has_values_replicate. rewrite bool_decide_eq_false_2 by lia. reflexivity. }
  split.
  { intros T. unfold is_result_of_type.
    apply (ask_if _ _ _ _ _ _ _ _ _ _ Hp). now apply core_check_result_type. }
  apply (destroy_last _ _ _ _ _ _ Hp). reflexivity.
Qed.

(** [any_function(unsafe, successor)] in an empty memory. *)
Lemma fresh_cell_witness :
  exists h σ',
    construct unsafe_tag successor int_ [int_]
      {| heap := ∅; next_free := 0; trace := [] |} = Ok h σ'
    /\ valid h = true
    /\ argument_count plain h σ' = Ok 1%nat σ'
    /\ (forall n, af_has_argument plain h n σ' = Ok false σ')
    /\ af_has_anything plain h σ' = Ok false σ'
    /\ af_is_prepared h σ' = Ok false σ'
    /\ (forall T, is_result_of_type plain h T σ'
                  = Ok (bool_decide (function_result plain int_ = function_result plain T)) σ')
    /\ destroy plain h σ' = Ok tt (put 0 None [ev_destroy; ev_deallocate] σ').
Proof.
  apply (fresh_cell plain unsafe_tag successor int_ [int_]
           {| heap := ∅; next_free := 0; trace := [] |}).
  cbn. lia.
Defined.

(** *** Waiting with nobody to wake the thread *)

Lemma on_condition_blocks rev σ h mg l c :
  points_to σ h mg l c -> held c = false ->
  has_anything_ (ctx_base c) = false ->
  under_waitable_lock rev h
    (fun unlock_ lock_ => cv_wait unlock_ lock_ (completed rev h) []) σ
  = Blocked.
Proof.
  intros Hp Hheld Hnone. pose proof Hp as (Hmg & Hctx & Hheap & Htype).
  destruct (waitable_mutex c σ) eqn:Hmutex.
  - now apply (@under_waitable_lock_held rev h mg l c Hmg Hctx Htype).
  - destruct (@under_waitable_lock_free rev h mg l c Hmg Hctx Htype _
                (fun unlock_ lock_ => cv_wait unlock_ lock_ (completed rev h) [])
                σ Hheap Hmutex) as (σ1 & Hp1 & Htaken & ->).
    unfold at_scope_exit. cbn [cv_wait]. unfold bind at 1.
    rewrite (completed_at_cell _ _ _ _ _ _ Hp1), ctx_base_mutex_taken, Hnone.
    reflexivity.
Qed.

(** X26: on a cell that holds neither result nor exception, with no other
    thread to complete it, [wait()] and [get()] never return; in
    [with_references] this needs a cell that is not prepared (a prepared
    one is run by the waiting thread). *)
Theorem wait_without_help_never_returns
  (rev : revision) (T : cpp_type) (σ : machine) (h : af_ctx_manager) (mg : manager)
  (l : nat) (c : context) :
  points_to σ h mg l c -> held c = false ->
  has_anything_ (ctx_base c) = false ->
  rev = plain \/ has_values (m_arguments (ctx_base c)) = false ->
  wait rev h [] σ = Blocked /\ get rev T h [] σ = Blocked.
Proof.
  intros Hp Hheld Hnone Hrev.
  assert (Hwait : wait rev h [] σ = Blocked).
  { unfold wait. destruct rev.
    - now apply on_condition_blocks with mg l c.
    - destruct Hrev as [Hrev|Hargs]; [discriminate|].
      unfold bind at 1.
      rewrite (guarded_look with_references σ h mg l c _ false Hp Hheld).
      + now apply on_condition_blocks with mg l c.
      + intros σ1 Hp1. unfold bind at 1.
        rewrite (prepared_at_cell _ _ _ _ _ Hp1), ctx_base_taken.
        unfold is_prepared. now rewrite Hargs. }
  split; [exact Hwait|]. unfold get, bind at 1. now rewrite Hwait.
Qed.

(** Waiting alone for a [successor] cell whose argument is missing. *)
Lemma wait_without_help_never_returns_witness :
  wait with_references (handle_to 0 (successor_manager waitable_tag)) []
    (one_cell (successor_context waitable_tag 1 None None None))
  = Blocked
  /\ get with_references int_ (handle_to 0 (successor_manager waitable_tag)) []
       (one_cell (successor_context waitable_tag 1 None None None))
     = Blocked.
Proof.
  apply (wait_without_help_never_returns with_references int_
           (one_cell (successor_context waitable_tag 1 None None None))
           (handle_to 0 (successor_manager waitable_tag))
           (successor_manager waitable_tag) 0
           (successor_context waitable_tag 1 None None None)).
  - repeat split.
  - reflexivity.
  - reflexivity.
  - right. reflexivity.
Defined.

(** *** The waits, begun with the mutex of the waitable free *)





Lemma nothing_keeps_waiting mg l : keeps_waiting mg l (fun σ => σ).
Proof. intros σ Hfree Hnot. now split. Qed.

(** Accepted arguments: the answer is never [arguments_not_accepted], and
    there is an answer when every argument is stored by value. *)
Lemma call_operator_answers rev σ h mg l c f (args : list (cpp_type * value)) :
  points_to σ h mg l c -> held c = false ->
  m_callable (ctx_base c) = Some f ->
  map (fun a => function_argument rev a.1) args
  = map (function_argument rev) (mg_args mg) ->
  (bound_to_temporary rev args = [] ->
   exists r σ', call_operator rev h args σ = Ok r σ' /\ r <> arguments_not_accepted)
  /\ (forall σ', call_operator rev h args σ <> Ok arguments_not_accepted σ').
Proof.
  intros Hp Hheld Hf Haccepted.
  assert (Hvalues : bound_to_temporary rev args = [] ->
            exists r σ', call_operator rev h args σ = Ok r σ'
                         /\ r <> arguments_not_accepted).
  { intros Hvalues.
    rewrite (call_operator_accepted _ _ _ _ _ _ _ Hp Hheld Haccepted Hvalues).
    assert (Hp' : points_to
                    (put l (Some (with_base (with_arguments (map Some (map snd args))
                                               (ctx_base c)) c)) [] σ)
                    h mg l
                    (with_base (with_arguments (map Some (map snd args)) (ctx_base c)) c)).
    { eapply points_to_put; [eassumption | reflexivity]. }
    destruct (has_anything_ (ctx_base c)) eqn:Hany.
    - rewrite (call_stored_completed rev _ _ _ _ _ Hp' Hheld).
      + eexists _, _. split; [reflexivity | discriminate].
      + cbn [ctx_base with_base m_arguments with_arguments]. apply has_values_assigned.
      + exact Hany.
    - rewrite (call_stored_prepared rev _ _ _ _ _ f Hp' Hheld).
      + destruct (f _); eexists _, _; (split; [reflexivity | discriminate]).
      + unfold is_prepared. cbn [ctx_base with_base m_arguments with_arguments].
        rewrite has_values_assigned. unfold has_anything_ in *. cbn. now rewrite Hany.
      + exact Hf. }
  split; [exact Hvalues|]. intros σ' E.
  destruct (bound_to_temporary rev args) as [|i rest] eqn:Hb.
  - destruct (Hvalues eq_refl) as (r & σ1 & E1 & Hr). rewrite E1 in E.
    injection E as -> _. now apply Hr.
  - rewrite (call_operator_over_temporary _ _ _ _ _ _ _ Hp Hheld Haccepted) in E
      by (rewrite Hb; discriminate).
    destruct (has_anything_ (ctx_base c)); discriminate.
Qed.

Lemma decayed_types_plain mg (args : list (cpp_type * value)) :
  map (fun a => function_argument plain a.1) args
  <> map (function_argument plain) (mg_args mg)
  <-> map (fun a => decay a.1) args <> map decay (mg_args mg).
Proof.
  assert (E1 : map (fun a : cpp_type * value => function_argument plain a.1) args
               = map as_is (map (fun a : cpp_type * value => decay a.1) args))
    by (rewrite map_map; reflexivity).
  assert (E2 : map (function_argument plain) (mg_args mg)
               = map as_is (map decay (mg_args mg)))
    by (rewrite map_map; reflexivity).
  rewrite E1, E2.
  split; intros Hne Heq; apply Hne.
  - now rewrite Heq.
  - now apply map_as_is_inj.
Qed.

(** C9 (as amended): on a handle to a live context with a free lock, a
    call [operator()(args...)] that compiles returns
    [arguments_not_accepted] exactly when the storage types
    [function_argument<Args>...] of the supplied arguments differ from
    those of the parameters of the callable, and then the memory is as
    before and no event, in particular no invocation, has happened.
    Where [function_argument] is [std::decay] these are the decayed types
    on both sides.  With accepted arguments that are all stored by value
    the call returns another answer; with an accepted argument stored as a
    reference, on a cell that holds neither result nor exception, the
    callable reads a reference to a dead temporary and the behaviour is
    undefined. *)
Theorem call_operator_not_accepted
  (rev : revision) (σ : machine) (h : af_ctx_manager) (mg : manager)
  (l : nat) (c : context) (f : callable) (args : list (cpp_type * value)) :
  points_to σ h mg l c ->
  held c = false ->
  m_callable (ctx_base c) = Some f ->
  call_compiles rev args = true ->
  (map (fun a => function_argument rev a.1) args
   <> map (function_argument rev) (mg_args mg) ->
   call_operator rev h args σ = Ok arguments_not_accepted σ)
  /\ (map (fun a => function_argument rev a.1) args
      = map (function_argument rev) (mg_args mg) ->
      forall σ', call_operator rev h args σ <> Ok arguments_not_accepted σ')
  /\ (rev = plain ->
      (map (fun a => function_argument rev a.1) args
       <> map (function_argument rev) (mg_args mg)
       <-> map (fun a => decay a.1) args <> map decay (mg_args mg)))
  /\ (map (fun a => function_argument rev a.1) args
      = map (function_argument rev) (mg_args mg) ->
      bound_to_temporary rev args = [] -> notifier_can_lock c σ ->
      exists r σ', call_operator rev h args σ = Ok r σ' /\ r <> arguments_not_accepted)
  /\ (map (fun a => function_argument rev a.1) args
      = map (function_argument rev) (mg_args mg) ->
      bound_to_temporary rev args <> [] -> has_anything_ (ctx_base c) = false ->
      call_operator rev h args σ = Undefined_behaviour).
Proof.
  intros Hp Hheld Hf _. split; [|split; [|split; [|split]]].
  - intros Hdiff. exact (call_operator_refused _ _ _ _ _ _ _ Hp Hheld Hdiff).
  - intros Haccepted.
    exact (proj2 (call_operator_answers _ _ _ _ _ _ _ _ Hp Hheld Hf Haccepted)).
  - intros ->. apply decayed_types_plain.
  - intros Haccepted Hvalues _.
    exact (proj1 (call_operator_answers _ _ _ _ _ _ _ _ Hp Hheld Hf Haccepted) Hvalues).
  - intros Haccepted Hbound Hnone.
    rewrite (call_operator_over_temporary _ _ _ _ _ _ _ Hp Hheld Haccepted Hbound).
    now rewrite Hnone.
Qed.

(** [af(x)] with [const int x] on a [successor] cell, in the revision with
    [reference_storage]: refused, nothing touched. *)
Lemma call_operator_not_accepted_witness :
  call_operator with_references (handle_to 0 (successor_manager waitable_tag))
    [(const_int_lvalue, 5)] (one_cell (successor_context waitable_tag 1 None None None))
  = Ok arguments_not_accepted (one_cell (successor_context waitable_tag 1 None None None)).
Proof.
  refine (proj1 (call_operator_not_accepted with_references
                   (one_cell (successor_context waitable_tag 1 None None None))
                   (handle_to 0 (successor_manager waitable_tag))
                   (successor_manager waitable_tag) 0
                   (successor_context waitable_tag 1 None None None) successor
                   [(const_int_lvalue, 5)] _ _ _ _) _).
  - repeat split.
  - reflexivity.
  - reflexivity.
  - reflexivity.
  - discriminate.
Defined.

(** C9, as stated, fails in the revision with [reference_storage]: a
    [const int] lvalue supplied for the parameter of [int successor(int)]
    has the decayed type of the parameter, the call compiles, and it is
    refused. *)
Lemma const_lvalue_for_value_parameter_is_refused :
  map (fun a : cpp_type * value => decay a.1) [(const_int_lvalue, 5)]
  = map decay (mg_args (successor_manager unsafe_tag))
  /\ call_compiles with_references [(const_int_lvalue, 5)] = true
  /\ call_operator with_references (handle_to 0 (successor_manager unsafe_tag))
       [(const_int_lvalue, 5)] (one_cell (successor_context unsafe_tag 1 None None None))
     = Ok arguments_not_accepted (one_cell (successor_context unsafe_tag 1 None None None)).
Proof. repeat split. Qed.




End HandleFacts.
